(** * Klio pipeline assembly ([klio_exec/commands/run.py])

    A shallow embedding of [KlioPipeline]: the methods that wire the Beam
    topology of a Klio job (recipient filter, audit log, data existence
    filters, business transform, acknowledgment and event output), and the
    properties of the topology they build.

    A Beam pipeline is a mutable object to which transforms are applied; it is
    modelled as the list of applied stages, threaded through a state-and-error
    monad.  A PCollection carries the bag of elements that flows through it
    (as a list) and the labels of the stages it is downstream of.

    Beam identifies an applied transform by its label; the model records
    the labels and does not re-check that they are unique.  The business
    transform of [run.py] is one opaque stage.  Scheduling is the engine's:
    the order of two stages here is the order in which they are applied and
    the downstream relation between them. *)

From Stdlib Require Import List String Ascii Bool Arith Lia Permutation.
From Stdlib Require Import DecimalString Decimal DecimalNat.
Import ListNotations.
Open Scope string_scope.
Open Scope list_scope.

Set Implicit Arguments.

(** ** Python exceptions and results *)

Inductive Exn : Type :=
| SystemExit (code : nat)
| KeyError (key : string)
| IndexError
| ValueError (msg : string)
| TransformError (msg : string).

Inductive Result (A : Type) : Type :=
| Ok (a : A)
| Raise (e : Exn).

Arguments Ok {A} a.
Arguments Raise {A} e.

(** ** Job configuration ([KlioConfig]) *)

(** An entry of [job_config.events.inputs]. *)
Record EventInput : Type := {
  in_name : string;
  skip_klio_read : bool;
  in_kwargs : string
}.

(** An entry of [job_config.events.outputs]. *)
Record EventOutput : Type := {
  out_name : string;
  skip_klio_write : bool;
  out_kwargs : string
}.

(** An entry of [job_config.data.inputs] or [job_config.data.outputs]. *)
Record DataConfig : Type := {
  skip_klio_existence_check : bool
}.

Record KlioConfig : Type := {
  streaming : bool;
  runner : string;
  experiments : list string;
  setup_file : option string;
  requirements_file : option string;
  events_inputs : list EventInput;
  events_outputs : list EventOutput;
  data_inputs : list DataConfig;
  data_outputs : list DataConfig
}.

(** The [runtime_conf] fields read by [run]. *)
Record RuntimeConf : Type := {
  direct_runner : bool;
  update : option bool;
  blocking : bool
}.

(** ** Event IO mappers *)

Inductive IoClass : Type :=
| KlioReadFromPubSub | KlioReadFromText | KlioReadFromBigQuery
| KlioReadFromAvro
| KlioWriteToPubSub | KlioWriteToText | KlioWriteToBigQuery
| KlioWriteToAvro.

Definition class_name (c : IoClass) : string :=
  match c with
  | KlioReadFromPubSub => "KlioReadFromPubSub"
  | KlioReadFromText => "KlioReadFromText"
  | KlioReadFromBigQuery => "KlioReadFromBigQuery"
  | KlioReadFromAvro => "KlioReadFromAvro"
  | KlioWriteToPubSub => "KlioWriteToPubSub"
  | KlioWriteToText => "KlioWriteToText"
  | KlioWriteToBigQuery => "KlioWriteToBigQuery"
  | KlioWriteToAvro => "KlioWriteToAvro"
  end.

Record EventMapper : Type := {
  input : list (string * IoClass);
  output : list (string * IoClass)
}.

Definition StreamingEventMapper : EventMapper :=
  {| input := [("pubsub", KlioReadFromPubSub)];
     output := [("pubsub", KlioWriteToPubSub)] |}.

Definition BatchEventMapper : EventMapper :=
  {| input := [("file", KlioReadFromText); ("bq", KlioReadFromBigQuery);
               ("avro", KlioReadFromAvro)];
     output := [("file", KlioWriteToText); ("bq", KlioWriteToBigQuery);
                ("avro", KlioWriteToAvro)] |}.

(** Python dictionaries with string keys, in insertion order. *)
Fixpoint dict_get {V : Type} (d : list (string * V)) (k : string) : option V :=
  match d with
  | [] => None
  | (k', v) :: d' => if String.eqb k k' then Some v else dict_get d' k
  end.

(** [d[k] = v]: an existing key keeps its place, a new key goes last. *)
Fixpoint dict_set {V : Type} (d : list (string * V)) (k : string) (v : V)
  : list (string * V) :=
  match d with
  | [] => [(k, v)]
  | (k', v') :: d' =>
      if String.eqb k k' then (k, v) :: d' else (k', v') :: dict_set d' k v
  end.

(** ** Beam values *)

(** The tags of the multi-output transforms of [klio.transforms.helpers]. *)
Inductive Tag : Type :=
| process | pass_thru | found | not_found | v1 | v2 | drop.

Definition Tag_eqb (a b : Tag) : bool :=
  match a, b with
  | process, process | pass_thru, pass_thru | found, found
  | not_found, not_found | v1, v1 | v2, v2 | drop, drop => true
  | _, _ => false
  end.

(** The transforms the assembler applies. *)
Inductive Transform : Type :=
| ReadEventInput (cls : IoClass) (kwargs : string)
| _KlioTagMessageVersion
| _KlioV1CheckRecipients
| KlioCheckRecipients
| KlioUpdateAuditLog
| KlioFilterPing
| KlioGcsCheckOutputExists
| KlioFilterForce
| KlioGcsCheckInputExists
| KlioAckInputMessage
| KlioDrop
| Flatten
| RunCallable
| WriteEventOutput (cls : IoClass) (kwargs : string).

Section Beam.

Variable Element : Type.

(** A PCollection: the labels of the stages it is downstream of (its
    producer first) and the bag of elements flowing through it. *)
Record PCollection : Type := {
  pc_up : list string;
  pc_elems : list Element
}.

(** What a variable such as [to_process] may hold: the pipeline object
    itself, or a PCollection. *)
Inductive PValue : Type :=
| PBegin
| PColl (c : PCollection).

(** The first argument of the business transform: one value, or the
    [MultiInputPCollTuple] of the per-input values. *)
Inductive ToProcess : Type :=
| Single (v : PValue)
| MultiInputPCollTuple (fields : list (string * PValue)).

(** An applied transform: its label, the transform, the labels of all
    stages upstream of it, the elements it consumes (for a read, the
    messages it takes from the event source) and the elements it emits, over
    all its outputs. *)
Record Stage : Type := {
  st_label : string;
  st_transform : Transform;
  st_up : list string;
  st_in : list Element;
  st_out : list Element
}.

Definition Pipeline : Type := list Stage.

(** ** The assembly monad: the pipeline is mutated in place, an exception
    leaves the stages applied so far. *)

Definition M (A : Type) : Type := Pipeline -> Result A * Pipeline.

Definition ret {A : Type} (a : A) : M A := fun p => (Ok a, p).

Definition raise {A : Type} (e : Exn) : M A := fun p => (Raise e, p).

Definition bind {A B : Type} (m : M A) (k : A -> M B) : M B :=
  fun p =>
    match m p with
    | (Ok a, p') => k a p'
    | (Raise e, p') => (Raise e, p')
    end.

Definition apply_stage (s : Stage) : M unit := fun p => (Ok tt, p ++ [s]).

End Beam.

Arguments PBegin {Element}.
Arguments ret {Element A} a.
Arguments raise {Element A} e.

Declare Scope klio_scope.
Delimit Scope klio_scope with klio.
Notation "x <- m ;; k" := (bind m (fun x => k))
  (at level 100, m at next level, right associativity) : klio_scope.
Notation "' pat <- m ;; k" := (bind m (fun x => match x with pat => k end))
  (at level 100, pat pattern, m at next level, right associativity)
  : klio_scope.
Notation "m ;;; k" := (bind m (fun _ => k))
  (at level 100, right associativity) : klio_scope.
Open Scope klio_scope.

(** ** The collaborators of the assembler *)

Inductive MessageVersion : Type := V1 | V2.

(** Modelled from the spec: [klio.transforms.helpers], the event connectors
    of [klio.transforms] and the job's [run.py] are not part of this file's
    source.  Each helper is taken as the per-element function the spec gives
    it (sections 4.1 to 4.5): the version tag, the two recipient predicates,
    the audit-log append, and the predicates on which the ping filter, the
    two existence checks and the force filter branch.  A connector is the
    bag of messages it reads; [run.py] either fails to import or offers
    [run_basic] and [run].  [namedtuple_accepts] is Python's check of the
    field names given to [collections.namedtuple]. *)
Class Helpers (Element : Type) : Type := {
  message_version : Element -> MessageVersion;
  v1_intended : Element -> bool;
  v2_intended : Element -> bool;
  audit : Element -> Element;
  ping : Element -> bool;
  data_output_exists : Element -> bool;
  force : Element -> bool;
  data_input_exists : Element -> bool;
  read_event_input : IoClass -> string -> list Element;
  namedtuple_accepts : list string -> bool
}.

Inductive RunPy (Element : Type) : Type :=
| ImportFails
| RunModule (run_basic run : option (ToProcess Element -> list Element)).

Arguments ImportFails {Element}.

Section Transforms.

Context {Element : Type} {H : Helpers Element}.

Local Abbreviation PCollection := (PCollection Element).
Local Abbreviation M := (M Element).

(** [pipeline | label >> transform_cls_in(...)] with the input's kwargs. *)
Definition apply_read (label : string) (cls : IoClass) (kwargs : string)
  : M PCollection :=
  let msgs := read_event_input cls kwargs in
  apply_stage {| st_label := label; st_transform := ReadEventInput cls kwargs;
                 st_up := []; st_in := msgs; st_out := msgs |} ;;;
  ret {| pc_up := [label]; pc_elems := msgs |}.

(** [pcoll | label >> T()] for a transform with tagged outputs: every
    element goes to the output [route] tags it with. *)
Definition apply_tagged (label : string) (t : Transform)
    (route : Element -> Tag) (pcoll : PCollection) : M (Tag -> PCollection) :=
  apply_stage {| st_label := label; st_transform := t;
                 st_up := pc_up pcoll; st_in := pc_elems pcoll;
                 st_out := pc_elems pcoll |} ;;;
  ret (fun tag =>
         {| pc_up := label :: pc_up pcoll;
            pc_elems :=
              filter (fun e => Tag_eqb (route e) tag) (pc_elems pcoll) |}).

(** [pcoll | label >> T()] for an element-wise transform. *)
Definition apply_map (label : string) (t : Transform)
    (f : Element -> Element) (pcoll : PCollection) : M PCollection :=
  apply_stage {| st_label := label; st_transform := t;
                 st_up := pc_up pcoll; st_in := pc_elems pcoll;
                 st_out := map f (pc_elems pcoll) |} ;;;
  ret {| pc_up := label :: pc_up pcoll; pc_elems := map f (pc_elems pcoll) |}.

(** [_ = pcoll | label >> T()]: the output is discarded. *)
Definition apply_sink (label : string) (t : Transform) (pcoll : PCollection)
  : M unit :=
  apply_stage {| st_label := label; st_transform := t;
                 st_up := pc_up pcoll; st_in := pc_elems pcoll;
                 st_out := [] |}.

Fixpoint all_pcolls (l : list (option PCollection))
  : option (list PCollection) :=
  match l with
  | [] => Some []
  | None :: _ => None
  | Some c :: l' =>
      match all_pcolls l' with
      | Some cs => Some (c :: cs)
      | None => None
      end
  end.

(** [pcolls | label >> beam.Flatten()]: Beam's [Flatten.expand] checks that
    every input is a PCollection, and an empty input needs [pipeline=]. *)
Definition apply_Flatten (label : string) (pipeline_given : bool)
    (pcolls : list (option PCollection)) : M PCollection :=
  match all_pcolls pcolls with
  | None => raise (TransformError "Expecting a PCollection argument.")
  | Some cs =>
      match cs, pipeline_given with
      | [], false => raise (ValueError "requires a pipeline to be specified")
      | _, _ =>
          let up := List.concat (map (@pc_up Element) cs) in
          let es := List.concat (map (@pc_elems Element) cs) in
          apply_stage {| st_label := label; st_transform := Flatten;
                         st_up := up; st_in := es; st_out := es |} ;;;
          ret {| pc_up := label :: up; pc_elems := es |}
      end
  end.

Definition tag_version (e : Element) : Tag :=
  match message_version e with V1 => v1 | V2 => v2 end.

Definition check_recipients (intended : Element -> bool) (e : Element) : Tag :=
  if intended e then process else drop.

Definition filter_ping (e : Element) : Tag :=
  if ping e then pass_thru else process.

Definition check_output_exists (e : Element) : Tag :=
  if data_output_exists e then found else not_found.

Definition filter_force (e : Element) : Tag :=
  if force e then process else pass_thru.

Definition check_input_exists (e : Element) : Tag :=
  if data_input_exists e then found else not_found.

(** The streams a value hands to the business transform. *)
Definition pvalue_up (v : PValue Element) : list string :=
  match v with PBegin => [] | PColl c => pc_up c end.

Definition pvalue_elems (v : PValue Element) : list Element :=
  match v with PBegin => [] | PColl c => pc_elems c end.

Definition to_process_values (t : ToProcess Element) : list (PValue Element) :=
  match t with
  | Single v => [v]
  | MultiInputPCollTuple fields => map snd fields
  end.

(** [out_pcol = run_callable(to_process, self.config)]: the business
    transform is one opaque stage that consumes the streams it is given. *)
Definition apply_run (run_callable : ToProcess Element -> list Element)
    (to_process : ToProcess Element) : M PCollection :=
  let up := List.concat (map pvalue_up (to_process_values to_process)) in
  apply_stage {| st_label := "run"; st_transform := RunCallable;
                 st_up := up;
                 st_in := List.concat (map pvalue_elems
                                           (to_process_values to_process));
                 st_out := run_callable to_process |} ;;;
  ret {| pc_up := "run" :: up; pc_elems := run_callable to_process |}.

End Transforms.

(** ** [KlioPipeline] *)

Module KlioPipeline.

Section Assembly.

Context {Element : Type} {H : Helpers Element}.

Variable config : KlioConfig.
Variable run_py : RunPy Element.

Local Abbreviation PCollection := (PCollection Element).
Local Abbreviation PValue := (PValue Element).
Local Abbreviation M := (M Element).

Definition _io_mapper : EventMapper :=
  if streaming config then StreamingEventMapper else BatchEventMapper.

Definition _has_event_inputs : bool :=
  Nat.ltb 0 (List.length (events_inputs config)).
Definition _has_multi_event_inputs : bool :=
  Nat.ltb 1 (List.length (events_inputs config)).
Definition _has_event_outputs : bool :=
  Nat.ltb 0 (List.length (events_outputs config)).
Definition _has_data_inputs : bool :=
  Nat.ltb 0 (List.length (data_inputs config)).
Definition _has_multi_data_inputs : bool :=
  Nat.ltb 1 (List.length (data_inputs config)).
Definition _has_data_outputs : bool :=
  Nat.ltb 0 (List.length (data_outputs config)).
Definition _has_multi_data_outputs : bool :=
  Nat.ltb 1 (List.length (data_outputs config)).

(** [self.config.pipeline_options.runner == "DirectGKERunner"] *)
Definition is_direct_gke : bool := String.eqb (runner config) "DirectGKERunner".

Definition _get_run_callable : M (ToProcess Element -> list Element) :=
  match run_py with
  | ImportFails => raise (SystemExit 1)
  | RunModule run_basic_callable run_callable =>
      match run_basic_callable, run_callable with
      | None, None => raise (SystemExit 1)
      | Some f, _ => ret f
      | None, Some f => ret f
      end
  end.

(** [pfx] of [_setup_data_io_filters] and [_filter_intended_recipients]:
    set when the prefix [is not None]. *)
Definition prefix_of (label_prefix : option string) : string :=
  match label_prefix with
  | Some l => ("[" ++ l ++ "] ")%string
  | None => ""
  end.

(** The nested [lbl] of both methods: ["{}{}".format(pfx, label)]. *)
Definition lbl (pfx label : string) : string := (pfx ++ label)%string.

(** The label of [_update_audit_log] and [_generate_pcoll]: prefixed when
    the prefix is truthy. *)
Definition prefixed (label_prefix : option string) (label : string) : string :=
  match label_prefix with
  | Some l =>
      if String.eqb l "" then label else ("[" ++ l ++ "] " ++ label)%string
  | None => label
  end.

Definition _setup_data_io_filters (in_pcol : PCollection)
    (label_prefix : option string) : M (PCollection * option PCollection) :=
  if _has_multi_data_inputs || _has_multi_data_outputs then
    raise (SystemExit 1)
  else
    let data_in_config :=
      if _has_data_inputs then hd_error (data_inputs config) else None in
    let data_out_config :=
      if _has_data_outputs then hd_error (data_outputs config) else None in
    let pfx := prefix_of label_prefix in
    let lbl := lbl pfx in
    ' (to_process_output, pings_pass_thru) <-
      match data_in_config with
      | Some _ =>
          pings <- apply_tagged (lbl "Ping Filter") KlioFilterPing
                     filter_ping in_pcol ;;
          ret (pings process, Some (pings pass_thru))
      | None => ret (in_pcol, None)
      end ;;
    ' (to_pass_thru, to_filter_input) <-
      match data_out_config with
      | Some {| skip_klio_existence_check := false |} =>
          output_exists <- apply_tagged (lbl "Output Exists Filter")
                             KlioGcsCheckOutputExists check_output_exists
                             to_process_output ;;
          output_force <- apply_tagged (lbl "Output Force Filter")
                            KlioFilterForce filter_force
                            (output_exists found) ;;
          to_pass_thru <- apply_Flatten (lbl "Flatten to Pass Thru") false
                            [pings_pass_thru; Some (output_force pass_thru)] ;;
          to_filter_input <- apply_Flatten (lbl "Flatten to Process") false
                               [Some (output_exists not_found);
                                Some (output_force process)] ;;
          ret (Some to_pass_thru, to_filter_input)
      | _ => ret (pings_pass_thru, to_process_output)
      end ;;
    match data_in_config with
    | Some {| skip_klio_existence_check := false |} =>
        input_exists <- apply_tagged (lbl "Input Exists Filter")
                          KlioGcsCheckInputExists check_input_exists
                          to_filter_input ;;
        (if is_direct_gke then
           apply_sink (lbl "Ack Input Message from No Data Input Found")
             KlioAckInputMessage (input_exists not_found)
         else ret tt) ;;;
        apply_sink (lbl "Drop Not Found Data") KlioDrop
          (input_exists not_found) ;;;
        ret (input_exists found, to_pass_thru)
    | _ => ret (to_filter_input, to_pass_thru)
    end.

Definition _update_audit_log (in_pcol : PCollection)
    (label_pfx : option string) : M PCollection :=
  let label := prefixed label_pfx "Updating KlioMessage Audit Log" in
  apply_map label KlioUpdateAuditLog audit in_pcol.

Definition _filter_intended_recipients (in_pcol : PCollection)
    (label_pfx : option string) : M PCollection :=
  let pfx := prefix_of label_pfx in
  let lbl := lbl pfx in
  msg_version <- apply_tagged (lbl "Tag Message Versions")
                   _KlioTagMessageVersion tag_version in_pcol ;;
  v1_to_process <- apply_tagged (lbl "Should Process v1 Message")
                     _KlioV1CheckRecipients (check_recipients v1_intended)
                     (msg_version v1) ;;
  v2_to_process <- apply_tagged (lbl "Should Process v2 Message")
                     KlioCheckRecipients (check_recipients v2_intended)
                     (msg_version v2) ;;
  to_drop <- apply_Flatten (lbl "Flatten to Drop Messages to Ignore") false
               [Some (v1_to_process drop); Some (v2_to_process drop)] ;;
  (if is_direct_gke then
     apply_sink (lbl "Ack Dropped Input Message") KlioAckInputMessage to_drop
   else ret tt) ;;;
  apply_sink (lbl "Drop Messages to Ignore") KlioDrop to_drop ;;;
  apply_Flatten (lbl "Flatten to Process Intended Messages") false
    [Some (v1_to_process process); Some (v2_to_process process)].

(** [str(index)] *)
Definition str (n : nat) : string := NilEmpty.string_of_uint (Nat.to_uint n).

Fixpoint input_conf_names_from (index : nat) (ev_inputs : list EventInput)
    (input_dict : list (string * EventInput)) : list (string * EventInput) :=
  match ev_inputs with
  | [] => input_dict
  | ev :: rest =>
      let name := (in_name ev ++ str index)%string in
      input_conf_names_from (S index) rest (dict_set input_dict name ev)
  end.

Definition _generate_input_conf_names : list (string * EventInput) :=
  input_conf_names_from 0 (events_inputs config) [].

Definition _generate_pcoll (input_config : EventInput)
    (label_prefix : option string) : M (PValue * option PCollection) :=
  if skip_klio_read input_config then ret (PBegin, None)
  else
    let label := prefixed label_prefix "Read Event Input" in
    match dict_get (input _io_mapper) (in_name input_config) with
    | None => raise (KeyError (in_name input_config))
    | Some transform_cls_in =>
        in_pcol <- apply_read label transform_cls_in
                     (in_kwargs input_config) ;;
        intended_msgs <- _filter_intended_recipients in_pcol label_prefix ;;
        audit_logged_msgs <- _update_audit_log intended_msgs label_prefix ;;
        ' (to_process, to_pass_thru) <-
          _setup_data_io_filters audit_logged_msgs label_prefix ;;
        ret (PColl to_process, to_pass_thru)
    end.

(** The loop of [_generate_pcoll_per_input] over [inputs.items()]. *)
Fixpoint per_input_loop (inputs : list (string * EventInput))
    (input_name_to_input_pcolls : list (string * PValue))
    (multi_to_pass_thru : list PCollection)
  : M (list (string * PValue) * list PCollection) :=
  match inputs with
  | [] => ret (input_name_to_input_pcolls, multi_to_pass_thru)
  | (input_name, input_conf) :: rest =>
      ' (input_to_process, input_to_pass_thru) <-
        _generate_pcoll input_conf (Some input_name) ;;
      let multi_to_pass_thru :=
        match input_to_pass_thru with
        | Some c => multi_to_pass_thru ++ [c]
        | None => multi_to_pass_thru
        end in
      per_input_loop rest
        (dict_set input_name_to_input_pcolls input_name input_to_process)
        multi_to_pass_thru
  end.

Definition _generate_pcoll_per_input
  : M (list (string * PValue) * PCollection) :=
  let inputs := _generate_input_conf_names in
  if negb (namedtuple_accepts (map fst inputs)) then
    raise (ValueError "Type names and field names must be valid identifiers")
  else
    ' (input_name_to_input_pcolls, multi_to_pass_thru) <-
      per_input_loop inputs [] [] ;;
    let to_process := input_name_to_input_pcolls in
    to_pass_thru <- apply_Flatten "Merge multi-input pass-thrus" true
                      (map Some multi_to_pass_thru) ;;
    ret (to_process, to_pass_thru).

Definition _setup_pipeline : M unit :=
  run_callable <- _get_run_callable ;;
  ' (to_process, to_pass_thru) <-
    (if _has_event_inputs then
       if negb _has_multi_event_inputs then
         match hd_error (events_inputs config) with
         | None => raise IndexError
         | Some input_config =>
             ' (to_process, to_pass_thru) <-
               _generate_pcoll input_config None ;;
             ret (Single to_process, to_pass_thru)
         end
       else
         ' (to_process, to_pass_thru) <- _generate_pcoll_per_input ;;
         ret (MultiInputPCollTuple to_process, Some to_pass_thru)
     else ret (Single PBegin, None)) ;;
  out_pcol <- apply_run run_callable to_process ;;
  (if is_direct_gke then
     to_ack_input <-
       match to_pass_thru with
       | Some pt => apply_Flatten "Flatten to Ack Input Messages" false
                      [Some out_pcol; Some pt]
       | None => ret out_pcol
       end ;;
     apply_sink "Ack Input Messages" KlioAckInputMessage to_ack_input
   else ret tt) ;;;
  if _has_event_outputs then
    match hd_error (events_outputs config) with
    | None => raise IndexError
    | Some output_config =>
        if negb (skip_klio_write output_config) then
          match dict_get (output _io_mapper) (out_name output_config) with
          | None => raise (KeyError (out_name output_config))
          | Some transform_cls_out =>
              to_output <-
                match to_pass_thru with
                | Some pt => apply_Flatten "Flatten to Output" false
                               [Some out_pcol; Some pt]
                | None => ret out_pcol
                end ;;
              apply_sink (class_name transform_cls_out)
                (WriteEventOutput transform_cls_out
                   (out_kwargs output_config))
                to_output
          end
        else ret tt
    end
  else ret tt.

(** ** [run] *)

Variable runtime_conf : RuntimeConf.

(** [os.path.exists] on the job's working directory. *)
Variable path_exists : string -> bool.

(** [pipeline.run()] on a pipeline built with the options of the pass, of
    which [update] is the one that changes from one pass to the next: the
    engine raises, or returns a result, of which [run] only calls
    [wait_until_finish()], which returns or raises. *)
Variable pipeline_run :
  option bool -> Pipeline Element -> Result (Result unit).

Definition is_some {A : Type} (o : option A) : bool :=
  match o with Some _ => true | None => false end.

(** [_verify_packaging], without the files it reads and writes when
    [setup.py] exists. *)
Definition _verify_packaging : Result unit :=
  let fnapi_enabled :=
    existsb (String.eqb "beam_fn_api") (experiments config) in
  let has_setup_file := is_some (setup_file config) in
  let setup_file_exists :=
    match setup_file config with
    | Some f => path_exists f
    | None => false
    end in
  let has_reqs_file := is_some (requirements_file config) in
  if fnapi_enabled && (has_setup_file || has_reqs_file) then
    Raise (SystemExit 1)
  else if negb (streaming config)
          && negb (fnapi_enabled || setup_file_exists)
          && negb has_reqs_file then
    Raise (SystemExit 1)
  else Ok tt.

(** One pass of [run]: the pipelines handed to the engine, and how the
    pass ends.  [update_flag] is [runtime_conf.update] in this pass, and
    [again] is the recursive [self.run()] made after [runtime_conf] lost
    its [update]. *)
Definition run_pass (update_flag : option bool)
    (again : unit -> list (Pipeline Element) * Result unit)
  : list (Pipeline Element) * Result unit :=
  match _verify_packaging with
  | Raise e => ([], Raise e)
  | Ok _ =>
      match _setup_pipeline [] with
      | (Raise e, _) => ([], Raise e)
      | (Ok _, pipeline) =>
          match pipeline_run update_flag pipeline with
          | Raise (ValueError e) =>
              match update_flag, index 0 "No running job found with name" e
              with
              | Some true, Some _ =>
                  let (runs, r) := again tt in (pipeline :: runs, r)
              | _, _ => ([pipeline], Raise (SystemExit 1))
              end
          | Raise e => ([pipeline], Raise e)
          | Ok result =>
              let should_block :=
                direct_runner runtime_conf || blocking runtime_conf
                || is_direct_gke in
              if should_block then ([pipeline], result)
              else ([pipeline], Ok tt)
          end
      end
  end.

Definition run : list (Pipeline Element) * Result unit :=
  run_pass (update runtime_conf)
    (fun _ => run_pass None (fun _ => ([], Raise (SystemExit 1)))).

End Assembly.

End KlioPipeline.

Import KlioPipeline.

(** ** A concrete job, for the examples *)

Module Example.

(** A message, with the facts the helpers look at. *)
Record Msg : Type := {
  msg_id : nat;
  to_this_job : bool;
  ping_mode : bool;
  output_in_store : bool;
  forced : bool;
  input_in_store : bool;
  audit_log : nat
}.

Definition Msg_eq_dec (x y : Msg) : {x = y} + {x <> y}.
Proof. repeat decide equality. Defined.

Definition log_hop (m : Msg) : Msg :=
  {| msg_id := msg_id m; to_this_job := to_this_job m;
     ping_mode := ping_mode m; output_in_store := output_in_store m;
     forced := forced m; input_in_store := input_in_store m;
     audit_log := S (audit_log m) |}.

(** A message of this job that is not a ping, by its id and by what the
    stores hold. *)
Definition message (id : nat) (out force inp : bool) : Msg :=
  {| msg_id := id; to_this_job := true; ping_mode := false;
     output_in_store := out; forced := force; input_in_store := inp;
     audit_log := 0 |}.

Definition done_before : Msg := message 1 true false true.
Definition redo : Msg := message 2 true true true.
Definition fresh : Msg := message 3 false false true.
Definition no_input : Msg := message 4 false false false.
Definition not_ours : Msg :=
  {| msg_id := 5; to_this_job := false; ping_mode := false;
     output_in_store := true; forced := false; input_in_store := true;
     audit_log := 0 |}.
Definition forced_ping : Msg :=
  {| msg_id := 6; to_this_job := true; ping_mode := true;
     output_in_store := true; forced := true; input_in_store := true;
     audit_log := 0 |}.

#[global] Instance helpers : Helpers Msg := {|
  message_version := fun m => if Nat.even (msg_id m) then V2 else V1;
  v1_intended := to_this_job;
  v2_intended := to_this_job;
  audit := log_hop;
  ping := ping_mode;
  data_output_exists := output_in_store;
  force := forced;
  data_input_exists := input_in_store;
  read_event_input := fun _ kwargs =>
    if String.eqb kwargs "in-a" then
      [done_before; redo; fresh; no_input; not_ours; forced_ping]
    else if String.eqb kwargs "in-b" then [message 7 true false true]
    else [];
  namedtuple_accepts := fun _ => true
|}.

(** A business transform that returns what it is handed. *)
Definition pass_on (to_process : ToProcess Msg) : list Msg :=
  List.concat (map pvalue_elems (to_process_values to_process)).

Definition run_py : RunPy Msg := RunModule None (Some pass_on).

Definition pubsub_in (kwargs : string) (skip : bool) : EventInput :=
  {| in_name := "pubsub"; skip_klio_read := skip; in_kwargs := kwargs |}.

Definition pubsub_out (skip : bool) : EventOutput :=
  {| out_name := "pubsub"; skip_klio_write := skip; out_kwargs := "out" |}.

Definition checked : DataConfig := {| skip_klio_existence_check := false |}.

Definition job (runner : string) (ev_in : list EventInput)
    (ev_out : list EventOutput) (d_in d_out : list DataConfig) : KlioConfig :=
  {| streaming := true; runner := runner; experiments := [];
     setup_file := None; requirements_file := None;
     events_inputs := ev_in; events_outputs := ev_out;
     data_inputs := d_in; data_outputs := d_out |}.

(** One pubsub input, one pubsub output, both existence checks. *)
Definition gke_job : KlioConfig :=
  job "DirectGKERunner" [pubsub_in "in-a" false] [pubsub_out false]
    [checked] [checked].

Definition runtime : RuntimeConf :=
  {| direct_runner := false; update := None; blocking := false |}.

Definition engine_ok (update_flag : option bool) (p : Pipeline Msg)
  : Result (Result unit) := Ok (Ok tt).

End Example.

(** A job with no data input and an output-existence check. *)
Definition no_data_input_job (skip_read : bool) : KlioConfig :=
  Example.job "DirectGKERunner" [Example.pubsub_in "in-a" skip_read]
    [Example.pubsub_out false] [] [Example.checked].

(** A job with two data inputs. *)
Definition two_data_inputs_job (skip_read : bool) : KlioConfig :=
  Example.job "DirectGKERunner" [Example.pubsub_in "in-a" skip_read]
    [Example.pubsub_out false] [Example.checked; Example.checked]
    [Example.checked].

(** The job of the examples, with skip-write on its event output. *)
Definition skip_write_job : KlioConfig :=
  Example.job "DirectGKERunner" [Example.pubsub_in "in-a" false]
    [Example.pubsub_out true] [Example.checked] [Example.checked].

(** The job of the examples with two pubsub inputs. *)
Definition two_inputs_job : KlioConfig :=
  Example.job "DirectGKERunner"
    [Example.pubsub_in "in-a" false; Example.pubsub_in "in-b" false]
    [Example.pubsub_out false] [Example.checked] [Example.checked].

Definition two_inputs_fields : list (string * PValue Example.Msg) :=
  match fst (_generate_pcoll_per_input two_inputs_job []) with
  | Ok (fields, _) => fields
  | Raise _ => []
  end.

Definition two_inputs_pass_thru : PCollection Example.Msg :=
  match fst (_generate_pcoll_per_input two_inputs_job []) with
  | Ok (_, to_pass_thru) => to_pass_thru
  | Raise _ => {| pc_up := []; pc_elems := [] |}
  end.

(** ** Observations on an assembled pipeline *)

Section Observations.

Context {Element : Type}.

Definition is_read (t : Transform) : bool :=
  match t with ReadEventInput _ _ => true | _ => false end.
Definition is_audit (t : Transform) : bool :=
  match t with KlioUpdateAuditLog => true | _ => false end.
Definition is_ack (t : Transform) : bool :=
  match t with KlioAckInputMessage => true | _ => false end.
Definition is_drop (t : Transform) : bool :=
  match t with KlioDrop => true | _ => false end.
Definition is_run (t : Transform) : bool :=
  match t with RunCallable => true | _ => false end.
Definition is_write (t : Transform) : bool :=
  match t with WriteEventOutput _ _ => true | _ => false end.
Definition is_recipient_check (t : Transform) : bool :=
  match t with
  | _KlioTagMessageVersion | _KlioV1CheckRecipients | KlioCheckRecipients =>
      true
  | _ => false
  end.
(** The ping filter, the two existence checks and the force filter. *)
Definition is_gate (t : Transform) : bool :=
  match t with
  | KlioFilterPing | KlioGcsCheckOutputExists | KlioFilterForce
  | KlioGcsCheckInputExists => true
  | _ => false
  end.

(** The stages of a pipeline that apply a given kind of transform. *)
Definition stages_of (kind : Transform -> bool) (p : Pipeline Element)
  : Pipeline Element :=
  filter (fun s => kind (st_transform s)) p.

(** The bag of elements consumed by the stages of a kind. *)
Definition consumed (kind : Transform -> bool) (p : Pipeline Element)
  : list Element :=
  List.concat (map (@st_in Element) (stages_of kind p)).

(** The bag of elements emitted by the stages of a kind. *)
Definition emitted (kind : Transform -> bool) (p : Pipeline Element)
  : list Element :=
  List.concat (map (@st_out Element) (stages_of kind p)).

(** The stage applied under a label. *)
Definition stage_at (label : string) (p : Pipeline Element)
  : option (Stage Element) :=
  find (fun s => String.eqb (st_label s) label) p.

(** [s] is downstream of the stage labelled [label]. *)
Definition downstream_of (label : string) (s : Stage Element) : bool :=
  existsb (String.eqb label) (st_up s).

Lemma stages_of_app kind (p q : Pipeline Element) :
  stages_of kind (p ++ q) = stages_of kind p ++ stages_of kind q.
Proof. unfold stages_of. apply filter_app. Qed.

Lemma consumed_app kind (p q : Pipeline Element) :
  consumed kind (p ++ q) = consumed kind p ++ consumed kind q.
Proof.
  unfold consumed. now rewrite stages_of_app, map_app, concat_app.
Qed.

Lemma emitted_app kind (p q : Pipeline Element) :
  emitted kind (p ++ q) = emitted kind p ++ emitted kind q.
Proof.
  unfold emitted. now rewrite stages_of_app, map_app, concat_app.
Qed.

End Observations.

(** ** The assembly only ever appends stages *)

Section Frame.

Context {Element : Type}.

Local Abbreviation M := (M Element).

(** [m] appends the same stages and returns the same value whatever the
    pipeline it starts from. *)
Definition framed {A : Type} (m : M A) : Prop :=
  forall p, m p = (fst (m []), p ++ snd (m [])).

Lemma framed_ret {A : Type} (a : A) : framed (ret (Element := Element) a).
Proof. intros p. cbn. now rewrite app_nil_r. Qed.

Lemma framed_raise {A : Type} (e : Exn) :
  framed (raise (Element := Element) (A := A) e).
Proof. intros p. cbn. now rewrite app_nil_r. Qed.

Lemma framed_apply_stage (s : Stage Element) : framed (apply_stage s).
Proof. intros p. reflexivity. Qed.

Lemma framed_bind {A B : Type} (m : M A) (k : A -> M B) :
  framed m -> (forall a, framed (k a)) -> framed (bind m k).
Proof.
  intros Hm Hk p. unfold bind. rewrite (Hm p).
  destruct (m []) as [[a | e] d]; cbn.
  - rewrite (Hk a (p ++ d)), (Hk a d). cbn. now rewrite app_assoc.
  - reflexivity.
Qed.

End Frame.

Create HintDb framed.

#[local] Hint Resolve framed_ret framed_raise framed_apply_stage : framed.

Ltac framed_step :=
  first
    [ apply framed_ret
    | apply framed_raise
    | apply framed_apply_stage
    | apply framed_bind; [ | intros ? ]
    | match goal with
      | |- framed (match ?x with _ => _ end) => destruct x
      end ].

Ltac framed_auto := repeat framed_step.

Section FrameAssembly.

Context {Element : Type} {H : Helpers Element}.

Variable config : KlioConfig.
Variable run_py : RunPy Element.

Lemma framed_apply_read label cls kwargs :
  framed (apply_read label cls kwargs).
Proof. unfold apply_read. framed_auto. Qed.

Lemma framed_apply_tagged label t route (c : PCollection Element) :
  framed (apply_tagged label t route c).
Proof. unfold apply_tagged. framed_auto. Qed.

Lemma framed_apply_map label t f (c : PCollection Element) :
  framed (apply_map label t f c).
Proof. unfold apply_map. framed_auto. Qed.

Lemma framed_apply_sink label t (c : PCollection Element) :
  framed (apply_sink label t c).
Proof. unfold apply_sink. framed_auto. Qed.

Lemma framed_apply_Flatten label given
    (cs : list (option (PCollection Element))) :
  framed (apply_Flatten label given cs).
Proof. unfold apply_Flatten. framed_auto. Qed.

Lemma framed_apply_run f (t : ToProcess Element) : framed (apply_run f t).
Proof. unfold apply_run. framed_auto. Qed.

Hint Resolve framed_apply_read framed_apply_tagged framed_apply_map
  framed_apply_sink framed_apply_Flatten framed_apply_run : framed.

Ltac framed_ops := repeat first [ solve [ auto with framed ] | framed_step ].

Lemma framed_setup_data_io_filters in_pcol label_prefix :
  framed (_setup_data_io_filters config in_pcol label_prefix).
Proof. unfold _setup_data_io_filters. framed_ops. Qed.

Lemma framed_update_audit_log in_pcol label_pfx :
  framed (_update_audit_log (H := H) in_pcol label_pfx).
Proof. unfold _update_audit_log. framed_ops. Qed.

Lemma framed_filter_intended_recipients in_pcol label_pfx :
  framed (_filter_intended_recipients config in_pcol label_pfx).
Proof. unfold _filter_intended_recipients. framed_ops. Qed.

Hint Resolve framed_setup_data_io_filters framed_update_audit_log
  framed_filter_intended_recipients : framed.

Lemma framed_generate_pcoll input_config label_prefix :
  framed (_generate_pcoll config input_config label_prefix).
Proof. unfold _generate_pcoll. framed_ops. Qed.

Hint Resolve framed_generate_pcoll : framed.

Lemma framed_per_input_loop inputs acc multi :
  framed (per_input_loop config inputs acc multi).
Proof.
  revert acc multi.
  induction inputs as [| [input_name input_conf] rest IH]; intros acc multi;
    cbn [per_input_loop].
  - apply framed_ret.
  - apply framed_bind; [ auto with framed | ].
    intros [tp [c | ]]; apply IH.
Qed.

Hint Resolve framed_per_input_loop : framed.

Lemma framed_generate_pcoll_per_input :
  framed (_generate_pcoll_per_input config).
Proof. unfold _generate_pcoll_per_input. framed_ops. Qed.

Hint Resolve framed_generate_pcoll_per_input : framed.

Lemma framed_get_run_callable : framed (_get_run_callable run_py).
Proof. unfold _get_run_callable. framed_ops. Qed.

Hint Resolve framed_get_run_callable : framed.

Lemma framed_setup_pipeline : framed (_setup_pipeline config run_py).
Proof. unfold _setup_pipeline. framed_ops. Qed.

End FrameAssembly.

(** ** Bags of elements *)

Section Bags.

Context {A : Type}.
Variable eq_dec : forall x y : A, {x = y} + {x <> y}.

Lemma count_occ_filter (f : A -> bool) (l : list A) (x : A) :
  count_occ eq_dec (filter f l) x = if f x then count_occ eq_dec l x else 0.
Proof.
  induction l as [| a l IH]; cbn.
  - now destruct (f x).
  - destruct (f a) eqn:Hfa; cbn; destruct (eq_dec a x) as [-> | Hne].
    + rewrite Hfa in *. now rewrite IH.
    + exact IH.
    + rewrite Hfa in *. exact IH.
    + exact IH.
Qed.

Lemma count_occ_concat (ls : list (list A)) (x : A) :
  count_occ eq_dec (List.concat ls) x
  = list_sum (map (fun l => count_occ eq_dec l x) ls).
Proof.
  induction ls as [| l ls IH]; cbn; [ reflexivity | ].
  now rewrite count_occ_app, IH.
Qed.

Lemma Permutation_filter_app (f : A -> bool) (l1 l2 m1 m2 : list A) :
  Permutation l1 (filter f m1) -> Permutation l2 (filter f m2) ->
  Permutation (l1 ++ l2) (filter f (m1 ++ m2)).
Proof.
  intros H1 H2. rewrite filter_app. now apply Permutation_app.
Qed.

End Bags.

(** ** The route of an element through the topology *)

Section Routes.

Context {Element : Type} {H : Helpers Element}.

Variable config : KlioConfig.

(** The recipient filter: the predicate of the message's version. *)
Definition intended (e : Element) : bool :=
  match message_version e with
  | V1 => v1_intended e
  | V2 => v2_intended e
  end.

(** The existence check of the first data input or output is enabled. *)
Definition check_enabled (data : list DataConfig) : bool :=
  match data with
  | d :: _ => negb (skip_klio_existence_check d)
  | [] => false
  end.

Inductive Route : Type := Processed | PassedThru | NotFound.

Definition Route_eqb (a b : Route) : bool :=
  match a, b with
  | Processed, Processed | PassedThru, PassedThru | NotFound, NotFound => true
  | _, _ => false
  end.

(** The branch the data filters put an audit-logged element on, as one
    decision per element: a ping message (when a data input is declared)
    and a message whose output exists and is not forced are passed
    through; a message whose input is missing is dropped; the others go to
    the business transform. *)
Definition data_route (e : Element) : Route :=
  if _has_data_inputs config && ping e then PassedThru
  else if check_enabled (data_outputs config) && data_output_exists e
          && negb (force e) then PassedThru
  else if check_enabled (data_inputs config) && negb (data_input_exists e)
  then NotFound
  else Processed.

Definition routed (r : Route) (e : Element) : bool :=
  Route_eqb (data_route e) r.

End Routes.

(** ** What one input's chain of stages does *)

Section Chain.

Context {Element : Type} {H : Helpers Element}.
Variable eq_dec : forall x y : Element, {x = y} + {x <> y}.

Variable config : KlioConfig.

Local Abbreviation PCollection := (PCollection Element).
Local Abbreviation PValue := (PValue Element).
Local Abbreviation Pipeline := (Pipeline Element).

Definition opt_elems (o : option PCollection) : list Element :=
  match o with Some c => pc_elems c | None => [] end.

Definition opt_up (o : option PCollection) : list string :=
  match o with Some c => pc_up c | None => [] end.

(** The stages [d] route every message read to one branch: the streams
    [tps] handed to the business transform, the pass-through bag [pt], or a
    drop; and they acknowledge what they drop on [DirectGKERunner] only. *)
Record routes_ok (tps : list PValue) (pt : list Element) (d : Pipeline)
  : Prop := {
  ok_audit :
    Permutation (consumed is_audit d) (filter intended (consumed is_read d));
  ok_gate : emitted is_audit d = map audit (consumed is_audit d);
  ok_process :
    Permutation (List.concat (map pvalue_elems tps))
      (filter (routed config Processed) (emitted is_audit d));
  ok_pass :
    Permutation pt (filter (routed config PassedThru) (emitted is_audit d));
  ok_drop :
    Permutation (consumed is_drop d)
      (filter (fun e => negb (intended e)) (consumed is_read d)
       ++ filter (routed config NotFound) (emitted is_audit d));
  ok_ack :
    consumed is_ack d = if is_direct_gke config then consumed is_drop d else [];
  ok_run : stages_of is_run d = [];
  ok_write : stages_of is_write d = []
}.

Lemma routes_ok_nil : routes_ok [PBegin] [] [].
Proof.
  constructor; cbn; try reflexivity; try apply perm_nil.
  now destruct (is_direct_gke config).
Qed.

Ltac bag_cases x :=
  unfold routed, data_route, intended, check_enabled, tag_version,
    check_recipients, filter_ping, check_output_exists, filter_force,
    check_input_exists, _has_data_inputs;
  repeat match goal with
         | E : data_inputs _ = _ |- _ => rewrite E
         | E : data_outputs _ = _ |- _ => rewrite E
         end;
  cbn;
  destruct (message_version x), (v1_intended x), (v2_intended x),
    (ping x), (data_output_exists x), (force x), (data_input_exists x);
  cbn; lia.

Ltac bag_solve :=
  apply (Permutation_count_occ eq_dec); intros x;
  repeat rewrite ?count_occ_app, ?(count_occ_filter eq_dec), ?count_occ_nil;
  bag_cases x.

Lemma generate_pcoll_routes input_config label_prefix tp pt d :
  _generate_pcoll config input_config label_prefix [] = (Ok (tp, pt), d) ->
  routes_ok [tp] (opt_elems pt) d.
Proof.
  unfold _generate_pcoll.
  destruct (skip_klio_read input_config).
  { intros [= <- <- <-]. apply routes_ok_nil. }
  destruct (dict_get _ _) as [cls | ]; [ | discriminate ].
  unfold _filter_intended_recipients, _update_audit_log,
    _setup_data_io_filters, _has_multi_data_inputs, _has_multi_data_outputs,
    _has_data_inputs, _has_data_outputs.
  destruct (is_direct_gke config) eqn:Hgke;
    destruct (data_inputs config) as [| [[ | ]] [ | ? ?]] eqn:Hin;
    destruct (data_outputs config) as [| [[ | ]] [ | ? ?]] eqn:Hout;
    cbn; unfold ret, raise; intros Hrun;
    try discriminate Hrun;
    injection Hrun as <- <- <-;
    (constructor;
     [ cbn; bag_solve
     | cbn; rewrite ?app_nil_r; reflexivity
     | cbn; rewrite ?app_nil_r; bag_solve
     | cbn; rewrite ?app_nil_r; bag_solve
     | cbn; rewrite ?app_nil_r; bag_solve
     | cbn; rewrite ?Hgke; reflexivity
     | reflexivity
     | reflexivity ]).
Qed.

End Chain.

(** ** Dictionaries *)

Section Dicts.

Context {V : Type}.

Definition keys (d : list (string * V)) : list string := map fst d.

Lemma dict_set_new (d : list (string * V)) k v :
  ~ In k (keys d) -> dict_set d k v = d ++ [(k, v)].
Proof.
  induction d as [| [k' v'] d IH]; cbn; intros Hk; [ reflexivity | ].
  destruct (String.eqb_spec k k') as [-> | Hne].
  - exfalso. apply Hk. now left.
  - rewrite IH; [ reflexivity | ]. intros Hin. apply Hk. now right.
Qed.

Lemma keys_dict_set (d : list (string * V)) k v :
  keys (dict_set d k v) = if existsb (String.eqb k) (keys d) then keys d
                          else keys d ++ [k].
Proof.
  unfold keys.
  induction d as [| [k' v'] d IH]; cbn; [ reflexivity | ].
  destruct (String.eqb_spec k k') as [-> | Hne]; cbn; [ reflexivity | ].
  rewrite IH. now destruct (existsb _ _).
Qed.

Lemma NoDup_keys_dict_set (d : list (string * V)) k v :
  NoDup (keys d) -> NoDup (keys (dict_set d k v)).
Proof.
  intros Hd. rewrite keys_dict_set.
  destruct (existsb _ _) eqn:Hex; [ exact Hd | ].
  apply NoDup_app; [ exact Hd | repeat constructor; intros [] | ].
  intros x Hx [Hk | []]. subst x.
  assert (existsb (String.eqb k) (keys d) = true) as Habs.
  { apply existsb_exists. exists k.
    split; [ exact Hx | apply String.eqb_refl ]. }
  congruence.
Qed.

End Dicts.

Section Aggregation.

Context {Element : Type} {H : Helpers Element}.
Variable eq_dec : forall x y : Element, {x = y} + {x <> y}.

Variable config : KlioConfig.

Local Abbreviation PCollection := (PCollection Element).
Local Abbreviation PValue := (PValue Element).
Local Abbreviation Pipeline := (Pipeline Element).

Lemma NoDup_input_conf_names_from index evs (acc : list (string * EventInput)) :
  NoDup (keys acc) -> NoDup (keys (input_conf_names_from index evs acc)).
Proof.
  revert index acc.
  induction evs as [| ev evs IH]; intros index acc Hacc; cbn; [ exact Hacc | ].
  apply IH. now apply NoDup_keys_dict_set.
Qed.

Lemma NoDup_generate_input_conf_names :
  NoDup (keys (_generate_input_conf_names config)).
Proof. apply NoDup_input_conf_names_from. constructor. Qed.

Lemma routes_ok_empty : routes_ok (H := H) config [] [] [].
Proof.
  constructor; cbn; try reflexivity; try apply perm_nil.
  now destruct (is_direct_gke config).
Qed.

Lemma routes_ok_app tps1 pt1 d1 tps2 pt2 d2 :
  routes_ok config tps1 pt1 d1 -> routes_ok config tps2 pt2 d2 ->
  routes_ok config (tps1 ++ tps2) (pt1 ++ pt2) (d1 ++ d2).
Proof.
  intros [Ha1 Hg1 Hp1 Hs1 Hd1 Hk1 Hr1 Hw1] [Ha2 Hg2 Hp2 Hs2 Hd2 Hk2 Hr2 Hw2].
  constructor; rewrite ?consumed_app, ?emitted_app, ?stages_of_app.
  - now apply Permutation_filter_app.
  - now rewrite map_app, Hg1, Hg2.
  - rewrite map_app, concat_app. now apply Permutation_filter_app.
  - now apply Permutation_filter_app.
  - rewrite !filter_app.
    apply (Permutation_count_occ eq_dec). intros x.
    rewrite (proj1 (Permutation_count_occ eq_dec _ _)
               (Permutation_app Hd1 Hd2) x).
    rewrite !count_occ_app. lia.
  - rewrite Hk1, Hk2. now destruct (is_direct_gke config).
  - now rewrite Hr1, Hr2.
  - now rewrite Hw1, Hw2.
Qed.

Definition opt_list (o : option PCollection) : list PCollection :=
  match o with Some c => [c] | None => [] end.

(** The per-input loop runs each input's chain on its own: [fields] maps
    each input name to the value its chain hands to the business transform,
    [pts] are the pass-through streams of the chains that have one, and
    [d] the stages of all chains, input after input. *)
Inductive chains_ok
  : list (string * EventInput) -> list (string * PValue) ->
    list PCollection -> Pipeline -> Prop :=
| chains_nil : chains_ok [] [] [] []
| chains_cons input_name input_conf rest tp pt dk fields pts d :
    _generate_pcoll config input_conf (Some input_name) []
    = (Ok (tp, pt), dk) ->
    chains_ok rest fields pts d ->
    chains_ok ((input_name, input_conf) :: rest) ((input_name, tp) :: fields)
      (opt_list pt ++ pts) (dk ++ d).

Lemma per_input_loop_chains inputs acc multi p dict multi' p' :
  per_input_loop config inputs acc multi p = (Ok (dict, multi'), p') ->
  NoDup (keys acc ++ keys inputs) ->
  exists fields pts d,
    chains_ok inputs fields pts d /\
    dict = acc ++ fields /\ multi' = multi ++ pts /\ p' = p ++ d.
Proof.
  revert acc multi p.
  induction inputs as [| [input_name input_conf] rest IH]; intros acc multi p.
  - cbn. intros [= <- <- <-] _. exists [], [], [].
    rewrite !app_nil_r. repeat split. constructor.
  - cbn [per_input_loop]. unfold bind at 1.
    rewrite (framed_generate_pcoll config input_conf (Some input_name) p).
    destruct (_generate_pcoll config input_conf (Some input_name) [])
      as [[[tp pt] | e] dk] eqn:Hchain; cbn [fst snd]; [ | discriminate ].
    intros Hloop Hnd.
    assert (~ In input_name (keys acc)) as Hfresh.
    { intros Hin. cbn in Hnd.
      apply NoDup_remove_2 in Hnd. apply Hnd.
      apply in_or_app. now left. }
    rewrite dict_set_new in Hloop by exact Hfresh.
    apply IH in Hloop.
    + destruct Hloop as (fields & pts & d & Hch & -> & -> & ->).
      exists ((input_name, tp) :: fields), (opt_list pt ++ pts), (dk ++ d).
      repeat split.
      * now apply chains_cons with (1 := Hchain).
      * now rewrite <- app_assoc.
      * destruct pt; cbn; now rewrite <- ?app_assoc.
      * now rewrite <- app_assoc.
    + unfold keys in *. rewrite map_app. cbn in *.
      rewrite <- app_assoc. exact Hnd.
Qed.

Lemma chains_ok_keys inputs fields pts d :
  chains_ok inputs fields pts d -> keys fields = keys inputs.
Proof. induction 1; cbn; [ reflexivity | now f_equal ]. Qed.

Lemma chains_ok_routes inputs fields pts d :
  chains_ok inputs fields pts d ->
  routes_ok config (map snd fields)
    (List.concat (map (@pc_elems Element) pts)) d.
Proof.
  induction 1 as [| k ev rest tp pt dk fields pts d Hchain _ IH]; cbn.
  - apply routes_ok_empty.
  - apply generate_pcoll_routes with (eq_dec := eq_dec) in Hchain.
    rewrite map_app, concat_app.
    change (tp :: map snd fields) with ([tp] ++ map snd fields).
    apply routes_ok_app; [ | exact IH ].
    destruct pt; cbn in *; now rewrite ?app_nil_r.
Qed.

End Aggregation.

(** ** What the assembled pipeline does *)

Section Assembled.

Context {Element : Type} {H : Helpers Element}.
Variable eq_dec : forall x y : Element, {x = y} + {x <> y}.

Variable config : KlioConfig.
Variable run_py : RunPy Element.

Local Abbreviation PCollection := (PCollection Element).
Local Abbreviation PValue := (PValue Element).
Local Abbreviation Pipeline := (Pipeline Element).

(** The job has an event output that klio writes. *)
Definition write_wired : bool :=
  match events_outputs config with
  | output_config :: _ => negb (skip_klio_write output_config)
  | [] => false
  end.

Lemma bind_ok_inv {A B : Type} (m : M Element A) (k : A -> M Element B)
    p b p' :
  bind m k p = (Ok b, p') ->
  exists a p1, m p = (Ok a, p1) /\ k a p1 = (Ok b, p').
Proof.
  unfold bind. destruct (m p) as [[a | e] p1]; [ | discriminate ].
  intros Hk. now exists a, p1.
Qed.

Lemma all_pcolls_map_Some (cs : list PCollection) :
  all_pcolls (map Some cs) = Some cs.
Proof. induction cs as [| c cs IH]; cbn; [ | rewrite IH ]; reflexivity. Qed.

Lemma apply_Flatten_given label (cs : list PCollection) p :
  apply_Flatten label true (map Some cs) p
  = (Ok {| pc_up := label :: List.concat (map (@pc_up Element) cs);
           pc_elems := List.concat (map (@pc_elems Element) cs) |},
     p ++ [{| st_label := label; st_transform := Flatten;
              st_up := List.concat (map (@pc_up Element) cs);
              st_in := List.concat (map (@pc_elems Element) cs);
              st_out := List.concat (map (@pc_elems Element) cs) |}]).
Proof.
  unfold apply_Flatten. rewrite all_pcolls_map_Some. now destruct cs.
Qed.

Lemma routes_ok_Flatten tps pt d (s : Stage Element) :
  st_transform s = Flatten ->
  routes_ok config tps pt d -> routes_ok config tps pt (d ++ [s]).
Proof.
  intros Hs Hok.
  rewrite <- (app_nil_r tps), <- (app_nil_r pt).
  apply routes_ok_app; [ exact eq_dec | exact Hok | ].
  constructor; unfold consumed, emitted, stages_of; cbn; rewrite Hs; cbn;
    try reflexivity; try apply perm_nil.
  now destruct (is_direct_gke config).
Qed.

(** The streams assembled before the business transform is applied. *)
Lemma generate_pcoll_per_input_chains p fields to_pass_thru p' :
  _generate_pcoll_per_input config p = (Ok (fields, to_pass_thru), p') ->
  exists pts d,
    chains_ok config (_generate_input_conf_names config) fields pts d /\
    to_pass_thru
    = {| pc_up := "Merge multi-input pass-thrus"
                  :: List.concat (map (@pc_up Element) pts);
         pc_elems := List.concat (map (@pc_elems Element) pts) |} /\
    p' = p ++ d
           ++ [{| st_label := "Merge multi-input pass-thrus";
                  st_transform := Flatten;
                  st_up := List.concat (map (@pc_up Element) pts);
                  st_in := List.concat (map (@pc_elems Element) pts);
                  st_out := List.concat (map (@pc_elems Element) pts) |}].
Proof.
  unfold _generate_pcoll_per_input.
  destruct (negb (namedtuple_accepts _)); [ discriminate | ]. intros Hrun.
  apply bind_ok_inv in Hrun as ([dict multi] & p1 & Hloop & Hrest).
  apply per_input_loop_chains in Hloop.
  2:{ cbn. apply NoDup_generate_input_conf_names. }
  destruct Hloop as (fs & pts & d & Hch & -> & -> & ->). cbn in Hrest.
  apply bind_ok_inv in Hrest as (c & p2 & Hflat & Hret).
  rewrite apply_Flatten_given in Hflat.
  injection Hflat as <- <-. injection Hret as <- <- <-.
  exists pts, d. repeat split; [ exact Hch | now rewrite <- app_assoc ].
Qed.

(** The first steps of [_setup_pipeline]: the streams assembled before the
    business transform is applied. *)
Definition generate_phase
  : M Element (ToProcess Element * option PCollection) :=
  if _has_event_inputs config then
    if negb (_has_multi_event_inputs config) then
      match hd_error (events_inputs config) with
      | None => raise IndexError
      | Some input_config =>
          ' (to_process, to_pass_thru) <-
            _generate_pcoll config input_config None ;;
          ret (Single to_process, to_pass_thru)
      end
    else
      ' (to_process, to_pass_thru) <- _generate_pcoll_per_input config ;;
      ret (MultiInputPCollTuple to_process, Some to_pass_thru)
  else ret (Single PBegin, None).

(** The streams assembled before the business transform is applied, for
    any number of event inputs. *)
Lemma generate_phase_routes to_process to_pass_thru d :
  generate_phase [] = (Ok (to_process, to_pass_thru), d) ->
  routes_ok config (to_process_values to_process) (opt_elems to_pass_thru) d.
Proof.
  unfold generate_phase.
  destruct (_has_event_inputs config).
  2:{ intros [= <- <- <-]. apply routes_ok_nil. }
  destruct (negb (_has_multi_event_inputs config)).
  - destruct (hd_error (events_inputs config)) as [input_config | ];
      [ | discriminate ].
    intros Hrun.
    apply bind_ok_inv in Hrun as ([tp pt] & p1 & Hchain & Hret).
    injection Hret as <- <- <-.
    now apply generate_pcoll_routes with (eq_dec := eq_dec) in Hchain.
  - intros Hrun.
    apply bind_ok_inv in Hrun as ([fields pt] & p1 & Hmulti & Hret).
    injection Hret as <- <- <-.
    apply generate_pcoll_per_input_chains in Hmulti
      as (pts & d & Hch & -> & ->).
    cbn [app]. apply routes_ok_Flatten; [ reflexivity | ].
    eapply chains_ok_routes; eauto.
Qed.

(** The stage of the business transform and the stream it returns. *)
Definition run_stage (f : ToProcess Element -> list Element)
    (to_process : ToProcess Element) : Stage Element :=
  {| st_label := "run"; st_transform := RunCallable;
     st_up := List.concat (map pvalue_up (to_process_values to_process));
     st_in := List.concat (map pvalue_elems (to_process_values to_process));
     st_out := f to_process |}.

Definition run_output (f : ToProcess Element -> list Element)
    (to_process : ToProcess Element) : PCollection :=
  {| pc_up := "run"
              :: List.concat (map pvalue_up (to_process_values to_process));
     pc_elems := f to_process |}.

(** [(out_pcol, to_pass_thru) | label >> beam.Flatten()] when there is a
    pass-through stream, [out_pcol] otherwise: the merged stream and the
    stage that merges. *)
Definition merged (label : string) (out_pcol : PCollection)
    (to_pass_thru : option PCollection) : PCollection * Pipeline :=
  match to_pass_thru with
  | Some pt =>
      let up := pc_up out_pcol ++ pc_up pt ++ [] in
      let es := pc_elems out_pcol ++ pc_elems pt ++ [] in
      ({| pc_up := label :: up; pc_elems := es |},
       [{| st_label := label; st_transform := Flatten;
           st_up := up; st_in := es; st_out := es |}])
  | None => (out_pcol, [])
  end.

Definition sink_stage (label : string) (t : Transform) (c : PCollection)
  : Stage Element :=
  {| st_label := label; st_transform := t; st_up := pc_up c;
     st_in := pc_elems c; st_out := [] |}.

(** The stages that acknowledge the merged stream. *)
Definition ack_stages (out_pcol : PCollection)
    (to_pass_thru : option PCollection) : Pipeline :=
  if is_direct_gke config then
    snd (merged "Flatten to Ack Input Messages" out_pcol to_pass_thru)
    ++ [sink_stage "Ack Input Messages" KlioAckInputMessage
          (fst (merged "Flatten to Ack Input Messages" out_pcol
                  to_pass_thru))]
  else [].

(** The stages that write the merged stream to the event output. *)
Definition write_stages (out_pcol : PCollection)
    (to_pass_thru : option PCollection) : Pipeline :=
  match events_outputs config with
  | [] => []
  | output_config :: _ =>
      if skip_klio_write output_config then []
      else
        match dict_get (output (_io_mapper config)) (out_name output_config)
        with
        | None => []
        | Some cls =>
            snd (merged "Flatten to Output" out_pcol to_pass_thru)
            ++ [sink_stage (class_name cls)
                  (WriteEventOutput cls (out_kwargs output_config))
                  (fst (merged "Flatten to Output" out_pcol to_pass_thru))]
        end
  end.

(** A pipeline that [_setup_pipeline] assembles without raising is the
    stages of the inputs' chains, then the business transform, then the
    acknowledgment, then the write. *)
Lemma setup_pipeline_inv p0 p :
  _setup_pipeline config run_py p0 = (Ok tt, p) ->
  exists f to_process to_pass_thru d,
    _get_run_callable run_py [] = (Ok f, []) /\
    generate_phase [] = (Ok (to_process, to_pass_thru), d) /\
    p = p0 ++ d ++ [run_stage f to_process]
          ++ ack_stages (run_output f to_process) to_pass_thru
          ++ write_stages (run_output f to_process) to_pass_thru.
Proof.
  rewrite (framed_setup_pipeline config run_py p0).
  destruct (_setup_pipeline config run_py []) as [r p1] eqn:Hrun.
  cbn [fst snd]. intros [= -> <-].
  unfold _setup_pipeline in Hrun.
  apply bind_ok_inv in Hrun as (f & q & Hget & Hrun).
  assert (q = []) as ->.
  { unfold _get_run_callable in Hget.
    destruct run_py as [ | [?|] [?|]]; cbn in Hget;
      unfold ret, raise in Hget; congruence. }
  apply bind_ok_inv in Hrun as ([to_process to_pass_thru] & d & Hgen & Hrun).
  exists f, to_process, to_pass_thru, d.
  split; [ exact Hget | split; [ exact Hgen | ] ].
  f_equal.
  apply bind_ok_inv in Hrun as (out_pcol & p2 & Hout & Hrun).
  injection Hout as <- <-.
  fold (run_stage f to_process) in Hrun.
  fold (run_output f to_process) in Hrun.
  apply bind_ok_inv in Hrun as ([] & p3 & Hack & Hwrite).
  assert (p3 = (d ++ [run_stage f to_process])
                 ++ ack_stages (run_output f to_process) to_pass_thru)
    as ->.
  { unfold ack_stages. destruct (is_direct_gke config).
    - destruct to_pass_thru as [pt | ]; cbn in Hack |- *;
        injection Hack as <-; now rewrite <- ?app_assoc.
    - injection Hack as <-. now rewrite app_nil_r. }
  clear Hack.
  set (base := (d ++ [run_stage f to_process])
                 ++ ack_stages (run_output f to_process) to_pass_thru) in *.
  assert (p1 = base ++ write_stages (run_output f to_process) to_pass_thru)
    as ->.
  { unfold write_stages, _has_event_outputs in *.
    destruct (events_outputs config) as [| output_config rest];
      cbn in Hwrite.
    { injection Hwrite as <-. now rewrite app_nil_r. }
    destruct (skip_klio_write output_config); cbn in Hwrite.
    { injection Hwrite as <-. now rewrite app_nil_r. }
    destruct (dict_get _ _) as [cls | ]; [ | discriminate ].
    destruct to_pass_thru as [pt | ]; cbn in Hwrite |- *;
      injection Hwrite as <-; now rewrite <- ?app_assoc. }
  subst base. now rewrite <- !app_assoc.
Qed.

Lemma setup_pipeline_output_known p0 p output_config rest :
  _setup_pipeline config run_py p0 = (Ok tt, p) ->
  events_outputs config = output_config :: rest ->
  skip_klio_write output_config = false ->
  exists cls,
    dict_get (output (_io_mapper config)) (out_name output_config) = Some cls.
Proof.
  unfold _setup_pipeline. intros Hrun Hout Hskip.
  apply bind_ok_inv in Hrun as (f & q & _ & Hrun).
  apply bind_ok_inv in Hrun as ([to_process to_pass_thru] & d & _ & Hrun).
  apply bind_ok_inv in Hrun as (out_pcol & p2 & _ & Hrun).
  apply bind_ok_inv in Hrun as ([] & p3 & _ & Hwrite).
  unfold _has_event_outputs in Hwrite. rewrite Hout in Hwrite.
  cbn in Hwrite. rewrite Hskip in Hwrite. cbn in Hwrite.
  destruct (dict_get _ _) as [cls | ]; [ now exists cls | discriminate ].
Qed.

Lemma merged_elems label (out_pcol : PCollection) to_pass_thru :
  pc_elems (fst (merged label out_pcol to_pass_thru))
  = pc_elems out_pcol ++ opt_elems to_pass_thru.
Proof. destruct to_pass_thru; cbn; now rewrite ?app_nil_r. Qed.

Lemma consumed_merged kind label (out_pcol : PCollection) to_pass_thru :
  kind Flatten = false ->
  consumed kind (snd (merged label out_pcol to_pass_thru)) = [].
Proof.
  intros Hk. destruct to_pass_thru; unfold consumed, stages_of; cbn;
    now rewrite ?Hk.
Qed.

Lemma emitted_merged kind label (out_pcol : PCollection) to_pass_thru :
  kind Flatten = false ->
  emitted kind (snd (merged label out_pcol to_pass_thru)) = [].
Proof.
  intros Hk. destruct to_pass_thru; unfold emitted, stages_of; cbn;
    now rewrite ?Hk.
Qed.

Lemma consumed_ack_stages kind (out_pcol : PCollection) to_pass_thru :
  kind Flatten = false ->
  consumed kind (ack_stages out_pcol to_pass_thru)
  = if is_direct_gke config && kind KlioAckInputMessage
    then pc_elems out_pcol ++ opt_elems to_pass_thru else [].
Proof.
  intros Hk. unfold ack_stages. destruct (is_direct_gke config); cbn.
  - rewrite consumed_app, consumed_merged by exact Hk.
    unfold consumed, stages_of. cbn.
    destruct (kind KlioAckInputMessage); cbn; [ | reflexivity ].
    now rewrite merged_elems, app_nil_r.
  - reflexivity.
Qed.

Lemma emitted_ack_stages kind (out_pcol : PCollection) to_pass_thru :
  kind Flatten = false ->
  emitted kind (ack_stages out_pcol to_pass_thru) = [].
Proof.
  intros Hk. unfold ack_stages. destruct (is_direct_gke config); cbn.
  - rewrite emitted_app, emitted_merged by exact Hk.
    unfold emitted, stages_of. cbn.
    now destruct (kind KlioAckInputMessage).
  - reflexivity.
Qed.

Lemma consumed_write_stages kind (out_pcol : PCollection) to_pass_thru :
  kind Flatten = false ->
  (forall cls kwargs, kind (WriteEventOutput cls kwargs) = is_write
                                 (WriteEventOutput cls kwargs)) ->
  (forall output_config rest,
      events_outputs config = output_config :: rest ->
      skip_klio_write output_config = false ->
      exists cls,
        dict_get (output (_io_mapper config)) (out_name output_config)
        = Some cls) ->
  consumed kind (write_stages out_pcol to_pass_thru)
  = if write_wired then pc_elems out_pcol ++ opt_elems to_pass_thru else [].
Proof.
  intros Hk Hw Hknown. unfold write_stages, write_wired.
  destruct (events_outputs config) as [| output_config rest];
    [ reflexivity | ].
  destruct (skip_klio_write output_config) eqn:Hskip; [ reflexivity | ].
  destruct (Hknown _ _ eq_refl Hskip) as [cls ->]. cbn.
  rewrite consumed_app, consumed_merged by exact Hk.
  unfold consumed, stages_of. cbn. rewrite Hw. cbn.
  now rewrite merged_elems, app_nil_r.
Qed.

Lemma emitted_write_stages kind (out_pcol : PCollection) to_pass_thru :
  kind Flatten = false ->
  emitted kind (write_stages out_pcol to_pass_thru) = [].
Proof.
  intros Hk. unfold write_stages.
  destruct (events_outputs config) as [| output_config rest];
    [ reflexivity | ].
  destruct (skip_klio_write output_config); [ reflexivity | ].
  destruct (dict_get _ _) as [cls | ]; [ | reflexivity ].
  rewrite emitted_app, emitted_merged by exact Hk.
  unfold emitted, stages_of. cbn.
  now destruct (kind (WriteEventOutput _ _)).
Qed.

Lemma consumed_write_stages_other kind (out_pcol : PCollection)
    to_pass_thru :
  kind Flatten = false ->
  (forall cls kwargs, kind (WriteEventOutput cls kwargs) = false) ->
  consumed kind (write_stages out_pcol to_pass_thru) = [].
Proof.
  intros Hk Hw. unfold write_stages.
  destruct (events_outputs config) as [| output_config rest];
    [ reflexivity | ].
  destruct (skip_klio_write output_config); [ reflexivity | ].
  destruct (dict_get _ _) as [cls | ]; [ | reflexivity ].
  rewrite consumed_app, consumed_merged by exact Hk.
  unfold consumed, stages_of. cbn. now rewrite Hw.
Qed.

Lemma no_stages_consumed kind (d : Pipeline) :
  stages_of kind d = [] -> consumed kind d = [] /\ emitted kind d = [].
Proof. unfold consumed, emitted. now intros ->. Qed.

(** The assembled pipeline routes every message: what each kind of stage
    consumes, as bags, in terms of the messages read and of [data_route]. *)
Record pipeline_ok (p : Pipeline) : Prop := {
  po_audit :
    Permutation (consumed is_audit p) (filter intended (consumed is_read p));
  po_gate : emitted is_audit p = map audit (consumed is_audit p);
  po_run :
    Permutation (consumed is_run p)
      (filter (routed config Processed) (emitted is_audit p));
  po_drop :
    Permutation (consumed is_drop p)
      (filter (fun e => negb (intended e)) (consumed is_read p)
       ++ filter (routed config NotFound) (emitted is_audit p));
  po_write :
    Permutation (consumed is_write p)
      (if write_wired
       then emitted is_run p
            ++ filter (routed config PassedThru) (emitted is_audit p)
       else []);
  po_ack :
    Permutation (consumed is_ack p)
      (if is_direct_gke config
       then consumed is_drop p
            ++ emitted is_run p
            ++ filter (routed config PassedThru) (emitted is_audit p)
       else [])
}.

Lemma setup_pipeline_routes p :
  _setup_pipeline config run_py [] = (Ok tt, p) -> pipeline_ok p.
Proof.
  intros Hrun.
  pose proof (fun output_config rest =>
                @setup_pipeline_output_known [] p output_config rest Hrun)
    as Hknown.
  apply setup_pipeline_inv in Hrun
    as (f & to_process & to_pass_thru & d & _ & Hok & ->).
  apply generate_phase_routes in Hok.
  destruct Hok as [Ha Hg Hp Hs Hd Hk Hr Hw].
  constructor;
    rewrite ?consumed_app, ?emitted_app;
    rewrite ?consumed_ack_stages, ?emitted_ack_stages by reflexivity;
    rewrite ?emitted_write_stages by reflexivity;
    rewrite ?(@consumed_write_stages is_write)
      by (reflexivity || exact Hknown);
    rewrite ?consumed_write_stages_other by reflexivity;
    unfold consumed, emitted, stages_of in *;
    cbn [filter map List.concat run_stage run_output st_transform st_in
           st_out pc_elems is_ack is_run is_write is_audit is_read is_drop
           app andb];
    rewrite ?Hr, ?Hw, ?andb_false_r, ?andb_true_r;
    cbn [map List.concat app]; repeat rewrite ?app_nil_l, ?app_nil_r.
  - exact Ha.
  - exact Hg.
  - exact Hp.
  - exact Hd.
  - destruct write_wired; [ | apply perm_nil ].
    now apply Permutation_app_head.
  - rewrite Hk. destruct (is_direct_gke config); [ | apply perm_nil ].
    cbn. apply Permutation_app_head. now apply Permutation_app_head.
Qed.

End Assembled.

(** ** Failing assemblies *)

Section Failures.

Context {Element : Type} {H : Helpers Element}.

Variable config : KlioConfig.
Variable run_py : RunPy Element.

(** [m] raises [e], whatever the pipeline it starts from. *)
Definition fails_with {A : Type} (e : Exn) (m : M Element A) : Prop :=
  forall p, exists p', m p = (Raise e, p').

Definition fails {A : Type} (m : M Element A) : Prop :=
  forall p, exists e p', m p = (Raise e, p').

Lemma fails_with_fails {A : Type} e (m : M Element A) :
  fails_with e m -> fails m.
Proof. intros Hm p. destruct (Hm p) as [p' Hp]. now exists e, p'. Qed.

Lemma fails_with_bind_l {A B : Type} e (m : M Element A)
    (k : A -> M Element B) :
  fails_with e m -> fails_with e (bind m k).
Proof.
  intros Hm p. destruct (Hm p) as [p' Hp]. exists p'.
  unfold bind. now rewrite Hp.
Qed.

Lemma fails_bind_l {A B : Type} (m : M Element A) (k : A -> M Element B) :
  fails m -> fails (bind m k).
Proof.
  intros Hm p. destruct (Hm p) as (e & p' & Hp). exists e, p'.
  unfold bind. now rewrite Hp.
Qed.

(** The event inputs the assembler wires: the values of the dictionary of
    [_generate_input_conf_names] (for a single input, that input). *)
Definition wired_inputs : list EventInput :=
  map snd (_generate_input_conf_names config).

(** Klio reads the input itself, with a connector the IO mapper knows. *)
Definition read_by_klio (ev : EventInput) : bool :=
  negb (skip_klio_read ev).

Definition known_input (ev : EventInput) : bool :=
  is_some (dict_get (input (_io_mapper config)) (in_name ev)).

Lemma setup_data_io_filters_multi in_pcol label_prefix :
  _has_multi_data_inputs config || _has_multi_data_outputs config = true ->
  fails_with (SystemExit 1)
    (_setup_data_io_filters config in_pcol label_prefix).
Proof.
  intros Hmulti p. exists p. unfold _setup_data_io_filters.
  now rewrite Hmulti.
Qed.

Lemma setup_data_io_filters_no_input in_pcol label_prefix :
  data_inputs config = [] -> check_enabled (data_outputs config) = true ->
  fails (_setup_data_io_filters config in_pcol label_prefix).
Proof.
  intros Hin Hout p. unfold _setup_data_io_filters, _has_multi_data_inputs,
    _has_multi_data_outputs, _has_data_inputs, _has_data_outputs.
  rewrite Hin. unfold check_enabled in Hout.
  destruct (data_outputs config) as [| [[ | ]] [ | ? ?]];
    try discriminate Hout; cbn; eexists; eexists; reflexivity.
Qed.

Definition succeeds {A : Type} (m : M Element A) : Prop :=
  forall p, exists a p', m p = (Ok a, p').

Lemma fails_with_bind_r {A B : Type} e (m : M Element A)
    (k : A -> M Element B) :
  succeeds m -> (forall a, fails_with e (k a)) -> fails_with e (bind m k).
Proof.
  intros Hm Hk p. destruct (Hm p) as (a & p1 & Hp).
  destruct (Hk a p1) as [p' Hp']. exists p'.
  unfold bind. now rewrite Hp.
Qed.

Lemma fails_bind_r {A B : Type} (m : M Element A) (k : A -> M Element B) :
  succeeds m -> (forall a, fails (k a)) -> fails (bind m k).
Proof.
  intros Hm Hk p. destruct (Hm p) as (a & p1 & Hp).
  destruct (Hk a p1) as (e & p' & Hp'). exists e, p'.
  unfold bind. now rewrite Hp.
Qed.

(** Up to the data filters, a chain that klio reads does not raise. *)
Lemma succeeds_apply_read label cls kwargs :
  succeeds (apply_read (H := H) label cls kwargs).
Proof. intros p. eexists; eexists; reflexivity. Qed.

Lemma succeeds_filter_intended_recipients in_pcol label_pfx :
  succeeds (_filter_intended_recipients config in_pcol label_pfx).
Proof.
  intros p. unfold _filter_intended_recipients.
  destruct (is_direct_gke config); cbn; unfold ret;
    eexists; eexists; reflexivity.
Qed.

Lemma succeeds_update_audit_log in_pcol label_pfx :
  succeeds (_update_audit_log (H := H) in_pcol label_pfx).
Proof. intros p. eexists; eexists; reflexivity. Qed.

Lemma generate_pcoll_fails_with e input_config label_prefix :
  read_by_klio input_config = true ->
  known_input input_config = true ->
  (forall in_pcol,
      fails_with e (_setup_data_io_filters config in_pcol label_prefix)) ->
  fails_with e (_generate_pcoll config input_config label_prefix).
Proof.
  unfold read_by_klio, known_input, _generate_pcoll.
  intros Hread Hknown Hfilters.
  destruct (skip_klio_read input_config); [ discriminate | ].
  destruct (dict_get _ _) as [cls | ]; [ | discriminate ].
  apply fails_with_bind_r; [ apply succeeds_apply_read | intros in_pcol ].
  apply fails_with_bind_r;
    [ apply succeeds_filter_intended_recipients | intros msgs ].
  apply fails_with_bind_r; [ apply succeeds_update_audit_log | intros logged ].
  apply fails_with_bind_l. apply Hfilters.
Qed.

Lemma generate_pcoll_fails input_config label_prefix :
  read_by_klio input_config = true ->
  (forall in_pcol,
      fails (_setup_data_io_filters config in_pcol label_prefix)) ->
  fails (_generate_pcoll config input_config label_prefix).
Proof.
  unfold read_by_klio, _generate_pcoll.
  intros Hread Hfilters.
  destruct (skip_klio_read input_config); [ discriminate | ].
  destruct (dict_get _ _) as [cls | ].
  2:{ intros p. eexists; eexists; reflexivity. }
  apply fails_bind_r; [ apply succeeds_apply_read | intros in_pcol ].
  apply fails_bind_r;
    [ apply succeeds_filter_intended_recipients | intros msgs ].
  apply fails_bind_r; [ apply succeeds_update_audit_log | intros logged ].
  apply fails_bind_l. apply Hfilters.
Qed.

Lemma generate_pcoll_skip_read input_config label_prefix p :
  skip_klio_read input_config = true ->
  _generate_pcoll config input_config label_prefix p = (Ok (PBegin, None), p).
Proof. intros Hskip. unfold _generate_pcoll. now rewrite Hskip. Qed.

Lemma per_input_loop_fails_with e inputs acc multi :
  existsb read_by_klio (map snd inputs) = true ->
  forallb (fun ev => skip_klio_read ev || known_input ev) (map snd inputs)
  = true ->
  (forall in_pcol label_prefix,
      fails_with e (_setup_data_io_filters config in_pcol label_prefix)) ->
  fails_with e (per_input_loop config inputs acc multi).
Proof.
  intros Hex Hall Hfilters. revert acc multi.
  induction inputs as [| [input_name input_conf] rest IH]; intros acc multi;
    [ discriminate | ].
  cbn in Hex, Hall. apply andb_prop in Hall as [Hknown Hall].
  cbn [per_input_loop].
  destruct (skip_klio_read input_conf) eqn:Hskip.
  - intros p. unfold bind at 1.
    rewrite generate_pcoll_skip_read by exact Hskip.
    unfold read_by_klio in Hex at 1. rewrite Hskip in Hex. cbn in Hex.
    apply (IH Hex Hall).
  - apply fails_with_bind_l. apply generate_pcoll_fails_with.
    + unfold read_by_klio. now rewrite Hskip.
    + exact Hknown.
    + intros in_pcol. apply Hfilters.
Qed.

Lemma per_input_loop_fails inputs acc multi :
  existsb read_by_klio (map snd inputs) = true ->
  (forall in_pcol label_prefix,
      fails (_setup_data_io_filters config in_pcol label_prefix)) ->
  fails (per_input_loop config inputs acc multi).
Proof.
  intros Hex Hfilters. revert acc multi.
  induction inputs as [| [input_name input_conf] rest IH]; intros acc multi;
    [ discriminate | ].
  cbn in Hex. cbn [per_input_loop].
  destruct (skip_klio_read input_conf) eqn:Hskip.
  - intros p. unfold bind at 1.
    rewrite generate_pcoll_skip_read by exact Hskip.
    unfold read_by_klio in Hex at 1. rewrite Hskip in Hex. cbn in Hex.
    apply (IH Hex).
  - apply fails_bind_l. apply generate_pcoll_fails.
    + unfold read_by_klio. now rewrite Hskip.
    + intros in_pcol. apply Hfilters.
Qed.

(** With one declared input, the dictionary holds that input. *)
Lemma wired_inputs_single input_config :
  events_inputs config = [input_config] -> wired_inputs = [input_config].
Proof.
  unfold wired_inputs, _generate_input_conf_names. now intros ->.
Qed.

Lemma wired_inputs_none :
  events_inputs config = [] -> wired_inputs = [].
Proof.
  unfold wired_inputs, _generate_input_conf_names. now intros ->.
Qed.

End Failures.

(** ** Configuration errors and skipped reads *)

Section ConfigurationClaims.

Context {Element : Type} {H : Helpers Element}.

Variable config : KlioConfig.
Variable run_py : RunPy Element.

Lemma fails_with_bind_ret {A B : Type} e (a : A) (k : A -> M Element B) :
  fails_with e (k a) -> fails_with e (bind (ret a) k).
Proof. intros Hk p. exact (Hk p). Qed.

Lemma fails_bind_ret {A B : Type} (a : A) (k : A -> M Element B) :
  fails (k a) -> fails (bind (ret a) k).
Proof. intros Hk p. exact (Hk p). Qed.

Lemma existsb_wired_nonempty :
  existsb read_by_klio (wired_inputs config) = true ->
  events_inputs config <> [].
Proof.
  intros Hex Hnil. rewrite (wired_inputs_none config Hnil) in Hex.
  discriminate.
Qed.

(** The streams cannot be assembled when the data filters raise and klio
    reads some input. *)
Lemma generate_phase_fails_with e :
  (forall in_pcol label_prefix,
      fails_with e (_setup_data_io_filters config in_pcol label_prefix)) ->
  existsb read_by_klio (wired_inputs config) = true ->
  forallb (fun ev => skip_klio_read ev || known_input config ev)
    (wired_inputs config) = true ->
  namedtuple_accepts (keys (_generate_input_conf_names config)) = true ->
  fails_with e (generate_phase config).
Proof.
  intros Hfilters Hex Hall Hfields.
  pose proof (existsb_wired_nonempty Hex) as Hne.
  unfold generate_phase, _has_event_inputs, _has_multi_event_inputs.
  destruct (events_inputs config) as [| ic [| ic2 rest]] eqn:Hev;
    [ congruence | | ].
  - rewrite (wired_inputs_single config Hev) in Hex, Hall.
    cbn in Hex, Hall. rewrite orb_false_r in Hex. rewrite andb_true_r in Hall.
    cbn. apply fails_with_bind_l. apply generate_pcoll_fails_with.
    + exact Hex.
    + unfold read_by_klio in Hex. destruct (skip_klio_read ic);
        [ discriminate | exact Hall ].
    + intros in_pcol. apply Hfilters.
  - cbn. apply fails_with_bind_l. unfold _generate_pcoll_per_input.
    fold (keys (_generate_input_conf_names config)). rewrite Hfields. cbn.
    apply fails_with_bind_l. now apply per_input_loop_fails_with.
Qed.

Lemma generate_phase_fails :
  (forall in_pcol label_prefix,
      fails (_setup_data_io_filters config in_pcol label_prefix)) ->
  existsb read_by_klio (wired_inputs config) = true ->
  fails (generate_phase config).
Proof.
  intros Hfilters Hex.
  pose proof (existsb_wired_nonempty Hex) as Hne.
  unfold generate_phase, _has_event_inputs, _has_multi_event_inputs.
  destruct (events_inputs config) as [| ic [| ic2 rest]] eqn:Hev;
    [ congruence | | ].
  - rewrite (wired_inputs_single config Hev) in Hex.
    cbn in Hex. rewrite orb_false_r in Hex.
    cbn. apply fails_bind_l. apply generate_pcoll_fails.
    + exact Hex.
    + intros in_pcol. apply Hfilters.
  - cbn. apply fails_bind_l. unfold _generate_pcoll_per_input.
    destruct (negb (namedtuple_accepts _)).
    + intros p. eexists; eexists; reflexivity.
    + apply fails_bind_l. now apply per_input_loop_fails.
Qed.

Lemma setup_pipeline_fails_with_exit :
  fails_with (SystemExit 1) (generate_phase config) ->
  fails_with (SystemExit 1) (_setup_pipeline config run_py).
Proof.
  intros Hgen. unfold _setup_pipeline, _get_run_callable.
  destruct run_py as [ | [f | ] [g | ]];
    try (intros p; exists p; reflexivity);
    apply fails_with_bind_ret; apply fails_with_bind_l; exact Hgen.
Qed.

Lemma setup_pipeline_fails :
  fails (generate_phase config) -> fails (_setup_pipeline config run_py).
Proof.
  intros Hgen. unfold _setup_pipeline, _get_run_callable.
  destruct run_py as [ | [f | ] [g | ]];
    try (intros p; eexists; exists p; reflexivity);
    apply fails_bind_ret; apply fails_bind_l; exact Hgen.
Qed.

Lemma verify_packaging_exit path_exists e :
  _verify_packaging config path_exists = Raise e -> e = SystemExit 1.
Proof.
  unfold _verify_packaging.
  repeat match goal with
         | |- context [ if ?b then _ else _ ] => destruct b
         end; congruence.
Qed.

End ConfigurationClaims.

(** The stages the assembler puts between an event source and the business
    transform: the read, the recipient filter, the audit log and the data
    filters. *)
Definition is_klio_filter (t : Transform) : bool :=
  is_read t || is_recipient_check t || is_audit t || is_gate t.

(** C9. For an event input configured with skip-read, [_generate_pcoll]
    returns the raw pipeline as the to-process value and no pass-through
    stream, and applies no stage at all; when it is the job's only event
    input, the pipeline that [_setup_pipeline] assembles starts with the
    business transform applied to the raw pipeline and holds no read, no
    recipient filter, no audit log and no data filter. *)
Theorem skip_read_hands_raw_pipeline {Element : Type} {H : Helpers Element}
    (config : KlioConfig) (run_py : RunPy Element)
    (input_config : EventInput) (f : ToProcess Element -> list Element) :
  skip_klio_read input_config = true ->
  (forall label_prefix p,
      _generate_pcoll config input_config label_prefix p
      = (Ok (PBegin, None), p)) /\
  (events_inputs config = [input_config] ->
   _get_run_callable run_py [] = (Ok f, []) ->
   forall r p,
     _setup_pipeline config run_py [] = (r, p) ->
     hd_error p = Some (run_stage f (Single PBegin)) /\
     stages_of is_klio_filter p = []).
Proof.
  intros Hskip. split.
  - intros label_prefix p. unfold _generate_pcoll. now rewrite Hskip.
  - intros Hev Hget r p. unfold _setup_pipeline, bind at 1.
    rewrite Hget. unfold _has_event_inputs, _has_multi_event_inputs.
    rewrite Hev. cbn. unfold _generate_pcoll. rewrite Hskip. cbn.
    destruct (is_direct_gke config);
      destruct (events_outputs config) as [| output_config rest]; cbn;
      try destruct (skip_klio_write output_config); cbn;
      try destruct (dict_get _ _); cbn;
      intros [= <- <-]; split; reflexivity.
Qed.

Lemma skip_read_hands_raw_pipeline_witness :
  _generate_pcoll Example.gke_job (Example.pubsub_in "in-a" true) None []
  = (Ok (PBegin, None), []).
Proof.
  apply (skip_read_hands_raw_pipeline Example.gke_job Example.run_py
           (Example.pubsub_in "in-a" true) Example.pass_on).
  reflexivity.
Defined.

(** C10 (amended). When the job declares no data input, enables the
    output-existence check of its data output, and has an event input that
    klio reads, [_setup_pipeline] raises instead of assembling a pipeline:
    the data filters flatten the absent ping pass-through. *)
Theorem output_check_without_data_input_fails {Element : Type}
    {H : Helpers Element} (config : KlioConfig) (run_py : RunPy Element) :
  data_inputs config = [] ->
  check_enabled (data_outputs config) = true ->
  existsb read_by_klio (wired_inputs config) = true ->
  (forall in_pcol label_prefix p,
      exists e p',
        _setup_data_io_filters config in_pcol label_prefix p = (Raise e, p'))
  /\ (forall p, exists e p',
         _setup_pipeline config run_py p = (Raise e, p')).
Proof.
  intros Hin Hout Hex.
  assert (forall in_pcol label_prefix,
             fails (_setup_data_io_filters config in_pcol label_prefix))
    as Hfilters.
  { intros in_pcol label_prefix.
    now apply setup_data_io_filters_no_input. }
  split; [ exact Hfilters | ].
  apply setup_pipeline_fails. now apply generate_phase_fails.
Qed.

Lemma output_check_without_data_input_fails_witness :
  exists e p',
    _setup_pipeline (no_data_input_job false) Example.run_py [] = (Raise e, p').
Proof.
  apply (output_check_without_data_input_fails (no_data_input_job false)
           Example.run_py); reflexivity.
Defined.

(** C10 as stated fails: with skip-read on the event input the data
    filters are never set up, and the same data configuration assembles. *)
Lemma output_check_without_data_input_counterexample :
  data_inputs (no_data_input_job true) = [] /\
  check_enabled (data_outputs (no_data_input_job true)) = true /\
  fst (_setup_pipeline (no_data_input_job true) Example.run_py []) = Ok tt.
Proof. repeat split. Qed.

(** C8 (amended). When the job declares more than one data input or more
    than one data output and has an event input that klio reads, [run] ends
    with an exception and no pipeline is handed to the engine; the
    exception is [SystemExit(1)] when every input that klio reads names a
    connector of the IO mapper and the input keys are valid field names. *)
Theorem multiple_data_io_exits_before_engine {Element : Type}
    {H : Helpers Element} (config : KlioConfig) (run_py : RunPy Element)
    (runtime_conf : RuntimeConf) (path_exists : string -> bool)
    (pipeline_run : option bool -> Pipeline Element -> Result (Result unit)) :
  _has_multi_data_inputs config || _has_multi_data_outputs config = true ->
  existsb read_by_klio (wired_inputs config) = true ->
  (exists e,
      run config run_py runtime_conf path_exists pipeline_run
      = ([], Raise e))
  /\ (forallb (fun ev => skip_klio_read ev || known_input config ev)
        (wired_inputs config) = true ->
      namedtuple_accepts (keys (_generate_input_conf_names config)) = true ->
      run config run_py runtime_conf path_exists pipeline_run
      = ([], Raise (SystemExit 1))).
Proof.
  intros Hmulti Hex. unfold run, run_pass.
  destruct (_verify_packaging config path_exists) as [[] | e] eqn:Hpack.
  2:{ rewrite (verify_packaging_exit _ _ Hpack). split; [ eexists | ];
        reflexivity. }
  split.
  - assert (fails (_setup_pipeline config run_py)) as Hfails.
    { apply setup_pipeline_fails. apply generate_phase_fails;
        [ | exact Hex ].
      intros in_pcol label_prefix. apply fails_with_fails with (SystemExit 1).
      now apply setup_data_io_filters_multi. }
    destruct (Hfails []) as (e & p' & ->). now exists e.
  - intros Hall Hfields.
    assert (fails_with (SystemExit 1) (_setup_pipeline config run_py))
      as Hfails.
    { apply setup_pipeline_fails_with_exit.
      apply generate_phase_fails_with;
        [ | exact Hex | exact Hall | exact Hfields ].
      intros in_pcol label_prefix.
      now apply setup_data_io_filters_multi. }
    destruct (Hfails []) as [p' ->]. reflexivity.
Qed.

Lemma multiple_data_io_exits_before_engine_witness :
  run (two_data_inputs_job false) Example.run_py Example.runtime
    (fun _ => true) Example.engine_ok
  = ([], Raise (SystemExit 1)).
Proof.
  apply (multiple_data_io_exits_before_engine (two_data_inputs_job false)
           Example.run_py Example.runtime (fun _ => true) Example.engine_ok);
    reflexivity.
Defined.

(** C8 as stated fails: with skip-read on the event input the check on the
    data inputs is never reached, and the engine runs the job. *)
Lemma multiple_data_io_counterexample :
  _has_multi_data_inputs (two_data_inputs_job true) = true /\
  snd (run (two_data_inputs_job true) Example.run_py Example.runtime
         (fun _ => true) Example.engine_ok) = Ok tt /\
  List.length (fst (run (two_data_inputs_job true) Example.run_py
                      Example.runtime (fun _ => true) Example.engine_ok)) = 1.
Proof. repeat split. Qed.

(** ** Labels *)

Lemma append_cancel_l (s a b : string) :
  (s ++ a)%string = (s ++ b)%string -> a = b.
Proof.
  induction s as [| c s IH]; cbn; intros Heq; [ exact Heq | ].
  injection Heq as Heq. now apply IH.
Qed.

Lemma append_associative (s a b : string) :
  ((s ++ a) ++ b)%string = (s ++ a ++ b)%string.
Proof. induction s as [| c s IH]; cbn; [ | rewrite IH ]; reflexivity. Qed.

Lemma lbl_cancel (pfx a b : string) : lbl pfx a = lbl pfx b -> a = b.
Proof. apply append_cancel_l. Qed.

Lemma prefixed_neq_lbl (label_prefix : option string) (a b : string) :
  a <> b -> (forall s, a <> String "[" s) ->
  prefixed label_prefix a <> lbl (prefix_of label_prefix) b.
Proof.
  intros Hab Ha. destruct label_prefix as [l | ]; cbn; [ | exact Hab ].
  destruct (String.eqb l ""); [ apply Ha | ].
  unfold lbl. cbn. rewrite append_associative. cbn.
  intros Heq. injection Heq as Heq. apply append_cancel_l in Heq.
  injection Heq as Heq. now apply Hab.
Qed.

(** ** The input-existence gate *)

Section InputGate.

Context {Element : Type} {H : Helpers Element}.

Variable config : KlioConfig.

Definition no_stage : Stage Element :=
  {| st_label := ""; st_transform := Flatten; st_up := []; st_in := [];
     st_out := [] |}.

Lemma filter_not_found (l : list Element) :
  filter (fun e => Tag_eqb (check_input_exists e) not_found) l
  = filter (fun e => negb (data_input_exists e)) l.
Proof.
  apply filter_ext. intros e. unfold check_input_exists.
  now destruct (data_input_exists e).
Qed.

Lemma filter_found (l : list Element) :
  filter (fun e => Tag_eqb (check_input_exists e) found) l
  = filter data_input_exists l.
Proof.
  apply filter_ext. intros e. unfold check_input_exists.
  now destruct (data_input_exists e).
Qed.

End InputGate.

(** Splits the stages of the data filters at the input-existence check,
    [k] stages before the end. *)
Ltac split_tail k :=
  lazymatch goal with
  | |- exists tp pt before checked tail, (_, _ ++ ?d) = _ /\ _ =>
      let n := eval lazy in (List.length d - S k) in
      eexists; eexists;
      exists (firstn n d), (nth n d no_stage), (skipn (S n) d);
      cbn [firstn nth skipn]
  end.

(** The bags of the data filters, element by element, in terms of
    [data_route]. *)
Ltac route_bag eq_dec :=
  apply (Permutation_count_occ eq_dec);
  let x := fresh "x" in
  intros x;
  repeat rewrite ?count_occ_app, ?(count_occ_filter eq_dec), ?count_occ_nil;
  unfold routed, data_route, check_enabled, filter_ping,
    check_output_exists, filter_force, check_input_exists, _has_data_inputs;
  repeat match goal with
         | E : data_inputs _ = _ |- _ => rewrite E
         | E : data_outputs _ = _ |- _ => rewrite E
         end;
  cbn;
  destruct (ping x), (data_output_exists x), (force x),
    (data_input_exists x);
  cbn; lia.

(** C5 as the spec states it, on the stages of the data filters: a stage
    that drops messages is downstream of a stage that acknowledges them. *)
Definition ack_before_drop {Element : Type} (d : Pipeline Element) : Prop :=
  forall s,
    In s d -> st_transform s = KlioDrop ->
    exists a,
      In a d /\ st_transform a = KlioAckInputMessage /\
      In (st_label a) (st_up s).

(** C5 (amended). With the input-existence check enabled, the data filters
    end with the check stage, then (on [DirectGKERunner] only) the stage
    that acknowledges the not-found branch, then the stage that drops it.
    The check consumes the messages of the incoming stream that are not
    passed through; the acknowledgment and the drop each consume, as a bag,
    exactly the messages of the incoming stream that [data_route] sends to
    the not-found branch: one copy per arrival of every checked message
    whose input data is missing.  Both are wired to the not-found output of
    the check and to nothing else: the upstream of each is the check and
    what is upstream of the check, so the drop is not downstream of the
    acknowledgment, nor the acknowledgment of the drop, unless the incoming
    stream already is.  The stream handed to the business transform is the
    bag of the messages routed to it, the pass-through stream the bag of
    the messages passed through, and a message routed to the not-found
    branch is in neither. *)
Theorem missing_input_is_dropped_beside_ack {Element : Type}
    {H : Helpers Element} (eq_dec : forall x y : Element, {x = y} + {x <> y})
    (config : KlioConfig)
    (in_pcol : PCollection Element) (label_prefix : option string)
    (p : Pipeline Element) (data_in_config : DataConfig) :
  data_inputs config = [data_in_config] ->
  skip_klio_existence_check data_in_config = false ->
  _has_multi_data_outputs config = false ->
  exists to_process to_pass_thru before checked ack_and_drop,
    _setup_data_io_filters config in_pcol label_prefix p
    = (Ok (to_process, to_pass_thru), p ++ before ++ checked :: ack_and_drop)
    /\ st_transform checked = KlioGcsCheckInputExists
    /\ Permutation (st_in checked)
         (filter (fun e => negb (routed config PassedThru e))
            (pc_elems in_pcol))
    /\ map (@st_transform Element) ack_and_drop
       = (if is_direct_gke config then [KlioAckInputMessage; KlioDrop]
          else [KlioDrop])
    /\ stages_of is_ack before = [] /\ stages_of is_drop before = []
    /\ (forall s, In s ack_and_drop ->
          st_up s = st_label checked :: st_up checked
          /\ st_in s
             = filter (fun e => negb (data_input_exists e)) (st_in checked)
          /\ Permutation (st_in s)
               (filter (routed config NotFound) (pc_elems in_pcol)))
    /\ (forall a s, In a ack_and_drop -> In s ack_and_drop ->
          ~ In (st_label a) (pc_up in_pcol) ->
          ~ In (st_label a) (st_up s))
    /\ pc_elems to_process = filter data_input_exists (st_in checked)
    /\ Permutation (pc_elems to_process)
         (filter (routed config Processed) (pc_elems in_pcol))
    /\ Permutation (opt_elems to_pass_thru)
         (filter (routed config PassedThru) (pc_elems in_pcol))
    /\ (forall e, In e (pc_elems in_pcol) ->
          routed config NotFound e = true ->
          ~ In e (pc_elems to_process) /\ ~ In e (opt_elems to_pass_thru)).
Proof.
  intros Hin Hskip Hmulti.
  rewrite (framed_setup_data_io_filters config in_pcol label_prefix p).
  unfold _setup_data_io_filters, _has_multi_data_inputs, _has_data_inputs,
    _has_data_outputs.
  rewrite Hmulti. destruct data_in_config as [skip]. cbn in Hskip.
  subst skip. rewrite Hin. unfold _has_multi_data_outputs in Hmulti.
  destruct (data_outputs config) as [| [[ | ]] [ | ? ?]] eqn:Hout;
    try discriminate Hmulti;
    destruct (is_direct_gke config); cbn;
    [ split_tail 2 | split_tail 1 | split_tail 2 | split_tail 1
    | split_tail 2 | split_tail 1 ];
    (split; [ reflexivity | ]);
    (split; [ reflexivity | ]);
    (split; [ cbn; rewrite ?app_nil_r; route_bag eq_dec | ]);
    (split; [ reflexivity | ]);
    (split; [ reflexivity | ]);
    (split; [ reflexivity | ]);
    (split;
     [ intros s Hs; cbn in Hs;
       repeat (destruct Hs as [<- | Hs];
               [ split; [ reflexivity | ];
                 split; [ apply filter_not_found | ];
                 cbn; rewrite ?app_nil_r; route_bag eq_dec | ]);
       contradiction | ]);
    (split;
     [ intros a s Ha Hs Hfresh Hup; cbn [In] in Ha, Hs;
       repeat match goal with
              | Hor : _ \/ _ |- _ => destruct Hor as [Hor | Hor]
              | Hf : False |- _ => contradiction
              end;
       subst a s; cbn in Hfresh, Hup;
       rewrite ?app_nil_r, ?in_app_iff in Hup; cbn [In] in Hup;
       repeat match goal with
              | Hor : _ \/ _ |- _ => destruct Hor as [Hor | Hor]
              | Hf : False |- _ => contradiction
              | Heq : lbl ?q _ = lbl ?q _ |- _ =>
                  apply lbl_cancel in Heq; discriminate Heq
              end;
       exact (Hfresh Hup) | ]);
    (split; [ cbn; apply filter_found | ]);
    (split; [ cbn; rewrite ?app_nil_r; route_bag eq_dec | ]);
    (split; [ cbn; rewrite ?app_nil_r; route_bag eq_dec | ]);
    intros e He Hroute; revert Hroute;
    unfold routed, data_route, check_enabled, _has_data_inputs;
    rewrite Hin, ?Hout; cbn;
    rewrite ?in_app_iff, ?filter_In;
    unfold filter_ping, check_output_exists, filter_force,
      check_input_exists;
    destruct (ping e), (data_output_exists e), (force e),
      (data_input_exists e); cbn;
    intuition discriminate.
Qed.

Lemma missing_input_is_dropped_beside_ack_witness :
  exists to_process to_pass_thru before checked ack_and_drop,
    _setup_data_io_filters Example.gke_job
      {| pc_up := ["Updating KlioMessage Audit Log"];
         pc_elems := [Example.log_hop Example.no_input;
                      Example.log_hop Example.fresh] |} None []
    = (Ok (to_process, to_pass_thru), [] ++ before ++ checked :: ack_and_drop)
    /\ st_transform checked = KlioGcsCheckInputExists
    /\ map (@st_transform Example.Msg) ack_and_drop
       = [KlioAckInputMessage; KlioDrop]
    /\ (forall s, In s ack_and_drop ->
          st_up s = st_label checked :: st_up checked
          /\ Permutation (st_in s) [Example.log_hop Example.no_input]).
Proof.
  destruct (missing_input_is_dropped_beside_ack (H := Example.helpers)
              Example.Msg_eq_dec Example.gke_job
              {| pc_up := ["Updating KlioMessage Audit Log"];
                 pc_elems := [Example.log_hop Example.no_input;
                              Example.log_hop Example.fresh] |} None []
              (data_in_config := Example.checked)
              eq_refl eq_refl eq_refl)
    as (tp & pt & before & checked & tail & Hrun & Hchk & _ & Htail & _ & _
        & Hsame & _).
  exists tp, pt, before, checked, tail.
  split; [ exact Hrun | ]. split; [ exact Hchk | ]. split; [ exact Htail | ].
  intros s Hs. destruct (Hsame s Hs) as (Hup & _ & Hbag).
  split; [ exact Hup | exact Hbag ].
Defined.

(** C5 as stated fails: in the data filters of the example job the stage
    that drops the messages whose input data is missing is applied to the
    not-found output of the check, and no acknowledgment is upstream of
    it. *)
Lemma ack_before_drop_counterexample :
  ~ ack_before_drop
      (snd (_setup_data_io_filters Example.gke_job
              {| pc_up := ["Updating KlioMessage Audit Log"];
                 pc_elems := [Example.log_hop Example.no_input;
                              Example.log_hop Example.fresh] |} None [])).
Proof.
  intros Hclaim.
  destruct (Hclaim
              (last (snd (_setup_data_io_filters Example.gke_job
                            {| pc_up := ["Updating KlioMessage Audit Log"];
                               pc_elems := [Example.log_hop Example.no_input;
                                            Example.log_hop Example.fresh] |}
                            None []))
                 no_stage))
    as (a & Hin & Ha & Hup).
  - vm_compute. tauto.
  - reflexivity.
  - vm_compute in Hin.
    repeat (destruct Hin as [<- | Hin];
            [ first [ discriminate Ha
                    | vm_compute in Hup; intuition discriminate ] | ]).
    contradiction.
Qed.

(** ** The recipient filter and the audit log *)

Ltac label_neq :=
  match goal with
  | Heq : lbl ?q _ = lbl ?q _ |- _ =>
      apply lbl_cancel in Heq; discriminate Heq
  | Heq : prefixed ?q ?a = lbl (prefix_of ?q) ?b |- _ =>
      exfalso; revert Heq; apply prefixed_neq_lbl;
      [ discriminate | intros ?; discriminate ]
  end.

Ltac label_notin :=
  let Hin := fresh "Hin" in
  intros Hin; cbn [In app] in Hin; rewrite ?in_app_iff in Hin;
  cbn [In app] in Hin;
  repeat match goal with
         | Hor : _ \/ _ |- _ => destruct Hor as [Hor | Hor]
         | Hf : False |- _ => contradiction
         end;
  label_neq.

(** Splits the stages of one input's chain: the read and the recipient
    checks, the flatten of the drop branch, the [k] stages that consume it,
    the flatten of the process branch, the audit log, the data filters. *)
Ltac split_chain k :=
  lazymatch goal with
  | |- exists r routing to_drop ack_and_drop to_process audit_log filters,
        (_, _ ++ ?d) = _ /\ _ =>
      eexists;
      exists (firstn 4 d), (nth 4 d no_stage), (firstn k (skipn 5 d)),
        (nth (5 + k) d no_stage), (nth (6 + k) d no_stage),
        (skipn (7 + k) d);
      cbn [firstn nth skipn Nat.add]
  end.

Ltac bag_solve_with eq_dec :=
  apply (Permutation_count_occ eq_dec);
  let x := fresh "x" in
  intros x;
  repeat rewrite ?count_occ_app, ?(count_occ_filter eq_dec), ?count_occ_nil;
  unfold intended, tag_version, check_recipients;
  destruct (message_version x), (v1_intended x), (v2_intended x);
  cbn; lia.

(** C6. One input's chain is: the read and the recipient checks; the
    flatten of the messages to ignore, consumed unmodified by the
    acknowledgment (on [DirectGKERunner]) and by the drop; the flatten of
    the intended messages; the audit log applied to that flatten; then the
    data filters.  The messages to ignore are exactly the messages read
    that the recipient predicate of their version rejects; no audit-log
    stage and no data filter is applied before the process branch; the
    audit log consumes the process branch only and is not downstream of the
    drop branch; and every data filter is downstream of the audit log, not
    downstream of the drop branch, and consumes audit-logged messages
    only. *)
Theorem ignored_messages_skip_audit_and_gates {Element : Type}
    {H : Helpers Element} (eq_dec : forall x y : Element, {x = y} + {x <> y})
    (config : KlioConfig) (input_config : EventInput)
    (label_prefix : option string) (p : Pipeline Element) (cls : IoClass) :
  skip_klio_read input_config = false ->
  dict_get (input (_io_mapper config)) (in_name input_config) = Some cls ->
  exists r routing to_drop ack_and_drop to_process audit_log filters,
    _generate_pcoll config input_config label_prefix p
    = (r, p ++ routing ++ to_drop :: ack_and_drop
              ++ to_process :: audit_log :: filters)
    /\ Forall (fun s => is_audit (st_transform s) = false
                        /\ is_gate (st_transform s) = false)
         (routing ++ to_drop :: ack_and_drop ++ [to_process])
    /\ Permutation (st_out to_drop)
         (filter (fun e => negb (intended e))
            (read_event_input cls (in_kwargs input_config)))
    /\ map (@st_transform Element) ack_and_drop
       = (if is_direct_gke config then [KlioAckInputMessage; KlioDrop]
          else [KlioDrop])
    /\ (forall s, In s ack_and_drop ->
          st_in s = st_out to_drop
          /\ st_up s = st_label to_drop :: st_up to_drop)
    /\ Permutation (st_out to_process)
         (filter intended (read_event_input cls (in_kwargs input_config)))
    /\ st_transform audit_log = KlioUpdateAuditLog
    /\ st_in audit_log = st_out to_process
    /\ st_up audit_log = st_label to_process :: st_up to_process
    /\ st_out audit_log = map audit (st_in audit_log)
    /\ ~ In (st_label to_drop) (st_up audit_log)
    /\ Forall (fun s => In (st_label audit_log) (st_up s)
                        /\ ~ In (st_label to_drop) (st_up s)
                        /\ is_audit (st_transform s) = false
                        /\ forall x, In x (st_in s) ->
                                     In x (st_out audit_log))
         filters.
Proof.
  intros Hskip Hcls.
  rewrite (framed_generate_pcoll config input_config label_prefix p).
  unfold _generate_pcoll. rewrite Hskip, Hcls.
  unfold _filter_intended_recipients, _update_audit_log,
    _setup_data_io_filters, _has_multi_data_inputs, _has_multi_data_outputs,
    _has_data_inputs, _has_data_outputs.
  destruct (is_direct_gke config);
    destruct (data_inputs config) as [| [[ | ]] [ | ? ?]];
    destruct (data_outputs config) as [| [[ | ]] [ | ? ?]];
    cbn;
    lazymatch goal with
    | |- context [ "Ack Dropped Input Message" ] => split_chain 2
    | |- _ => split_chain 1
    end;
    (split; [ reflexivity | ]);
    (split; [ repeat constructor | ]);
    (split; [ cbn; bag_solve_with eq_dec | ]);
    (split; [ reflexivity | ]);
    (split;
     [ intros s Hs; cbn in Hs;
       repeat (destruct Hs as [<- | Hs]; [ split; reflexivity | ]);
       contradiction | ]);
    (split; [ cbn; bag_solve_with eq_dec | ]);
    (split; [ reflexivity | ]);
    (split; [ reflexivity | ]);
    (split; [ reflexivity | ]);
    (split; [ reflexivity | ]);
    (split; [ cbn; label_notin | ]);
    repeat (constructor;
            [ split; [ cbn; solve [ repeat first [ left; reflexivity
                                                 | right ] ] |
              split; [ cbn; label_notin |
              split; [ reflexivity |
              cbn; intros x Hx;
              repeat first [ apply in_app_or in Hx as [Hx | Hx]
                           | apply filter_In in Hx as [Hx _] ];
              solve [ exact Hx | contradiction ] ] ] ] | ]);
    apply Forall_nil.
Qed.

Lemma ignored_messages_skip_audit_and_gates_witness :
  exists r routing to_drop ack_and_drop to_process audit_log filters,
    _generate_pcoll Example.gke_job (Example.pubsub_in "in-a" false) None []
    = (r, [] ++ routing ++ to_drop :: ack_and_drop
             ++ to_process :: audit_log :: filters)
    /\ Permutation (st_out to_drop) [Example.not_ours]
    /\ st_transform audit_log = KlioUpdateAuditLog
    /\ st_in audit_log = st_out to_process.
Proof.
  destruct (ignored_messages_skip_audit_and_gates Example.Msg_eq_dec
              Example.gke_job (Example.pubsub_in "in-a" false) None []
              (cls := KlioReadFromPubSub) eq_refl eq_refl)
    as (r & routing & to_drop & acks & to_process & audit_log & filters
        & Hrun & _ & Hdrop & _ & _ & _ & Haudit & Hin & _).
  exists r, routing, to_drop, acks, to_process, audit_log, filters.
  repeat split; assumption.
Defined.

(** ** Routes through the assembled pipeline *)

Section RouteClaims.

Context {Element : Type} {H : Helpers Element}.
Variable eq_dec : forall x y : Element, {x = y} + {x <> y}.

Variable config : KlioConfig.

(** What becomes of a message read: ignored messages stay as they are,
    intended ones get an audit record. *)
Definition after_recipient_filter (e : Element) : Element :=
  if intended e then audit e else e.

Lemma Permutation_after_recipient_filter (l : list Element) :
  Permutation (map after_recipient_filter l)
    (filter (fun e => negb (intended e)) l ++ map audit (filter intended l)).
Proof.
  induction l as [| a l IH]; cbn; [ constructor | ].
  unfold after_recipient_filter at 1.
  destruct (intended a); cbn.
  - now apply Permutation_cons_app.
  - now constructor.
Qed.

Lemma count_occ_routes (l : list Element) (x : Element) :
  count_occ eq_dec l x
  = count_occ eq_dec (filter (routed config Processed) l) x
    + count_occ eq_dec (filter (routed config PassedThru) l) x
    + count_occ eq_dec (filter (routed config NotFound) l) x.
Proof.
  rewrite !(count_occ_filter eq_dec). unfold routed.
  destruct (data_route config x); cbn; lia.
Qed.


Lemma routed_processed (e : Element) :
  _has_data_inputs config && ping e = false ->
  force e = true ->
  check_enabled (data_inputs config) && negb (data_input_exists e) = false ->
  data_route config e = Processed.
Proof.
  intros Hp Hf Hi. unfold data_route. rewrite Hp, Hf, Hi. cbn.
  now rewrite andb_false_r.
Qed.

End RouteClaims.



(** C4 as the spec states it, for the message [e] in the pipeline [p]: the
    message is handed to the business transform each time it reaches the
    data filters, and the event output receives it only as often as the
    business transform returns it. *)
Definition reprocessed_only {Element : Type} {H : Helpers Element}
    (eq_dec : forall x y : Element, {x = y} + {x <> y})
    (p : Pipeline Element) (e : Element) : Prop :=
  count_occ eq_dec (consumed is_run p) e
  = count_occ eq_dec (emitted is_audit p) e /\
  count_occ eq_dec (consumed is_write p) e
  = count_occ eq_dec (emitted is_run p) e.

(** C4 (amended). In a pipeline that [_setup_pipeline] assembled for a job
    whose event output is written, a message that is not a ping (or any
    message, when the job declares no data input), whose output exists,
    that is forced and that passes the input-existence gate is handed to
    the business transform each time it reaches the data filters and is not
    on the pass-through stream: the event output receives it only as often
    as the business transform returns it. *)
Theorem forced_output_is_reprocessed {Element : Type} {H : Helpers Element}
    (eq_dec : forall x y : Element, {x = y} + {x <> y})
    (config : KlioConfig) (run_py : RunPy Element) (p : Pipeline Element)
    (e : Element) :
  _setup_pipeline config run_py [] = (Ok tt, p) ->
  write_wired config = true ->
  _has_data_inputs config && ping e = false ->
  data_output_exists e = true -> force e = true ->
  check_enabled (data_inputs config) && negb (data_input_exists e) = false ->
  reprocessed_only eq_dec p e.
Proof.
  intros Hrun Hwrite Hping Hout Hforce Hinput.
  destruct (setup_pipeline_routes eq_dec _ _ Hrun)
    as [_ _ Hprocess _ Hwritten _].
  pose proof (routed_processed config e Hping Hforce Hinput) as Hroute.
  rewrite Hwrite in Hwritten. unfold reprocessed_only.
  rewrite (proj1 (Permutation_count_occ eq_dec _ _) Hprocess e).
  rewrite (proj1 (Permutation_count_occ eq_dec _ _) Hwritten e).
  rewrite count_occ_app, !(count_occ_filter eq_dec).
  unfold routed. rewrite Hroute. cbn. split; [ reflexivity | lia ].
Qed.

Lemma forced_output_is_reprocessed_witness :
  reprocessed_only Example.Msg_eq_dec
    (snd (_setup_pipeline Example.gke_job Example.run_py []))
    (Example.log_hop Example.redo).
Proof.
  apply (forced_output_is_reprocessed Example.Msg_eq_dec Example.gke_job
           Example.run_py); reflexivity.
Defined.

(** C4 as stated fails on a ping message: its output exists, it is forced
    and its input exists, it reaches the data filters once, and the ping
    filter passes it through; the business transform is never handed it
    and the event output receives it from the pass-through stream. *)
Lemma forced_output_counterexample :
  data_output_exists (Example.log_hop Example.forced_ping) = true /\
  force (Example.log_hop Example.forced_ping) = true /\
  data_input_exists (Example.log_hop Example.forced_ping) = true /\
  count_occ Example.Msg_eq_dec
    (emitted is_audit
       (snd (_setup_pipeline Example.gke_job Example.run_py [])))
    (Example.log_hop Example.forced_ping) = 1 /\
  ~ reprocessed_only Example.Msg_eq_dec
      (snd (_setup_pipeline Example.gke_job Example.run_py []))
      (Example.log_hop Example.forced_ping).
Proof.
  repeat split. intros [Hhanded _]. vm_compute in Hhanded. discriminate.
Qed.

(** C1 (amended). In a pipeline that [_setup_pipeline] assembled, every
    message read from an event input takes exactly one of three routes: it
    is dropped (as it was read, by the recipient filter; or audit-logged, by
    the input-existence gate), or handed to the business transform, or put
    on the pass-through stream.  The event output, when the job has one
    that klio writes, receives the stream the business transform returns
    and the pass-through stream, once each, and nothing is written
    otherwise.  On [DirectGKERunner] the dropped messages, the returned
    stream and the pass-through stream are acknowledged, once each, and on
    another runner nothing is acknowledged. *)
Theorem every_message_takes_one_route {Element : Type} {H : Helpers Element}
    (eq_dec : forall x y : Element, {x = y} + {x <> y})
    (config : KlioConfig) (run_py : RunPy Element) (p : Pipeline Element) :
  _setup_pipeline config run_py [] = (Ok tt, p) ->
  Permutation (map after_recipient_filter (consumed is_read p))
    (consumed is_drop p ++ consumed is_run p
     ++ filter (routed config PassedThru) (emitted is_audit p)) /\
  Permutation (consumed is_write p)
    (if write_wired config
     then emitted is_run p
          ++ filter (routed config PassedThru) (emitted is_audit p)
     else []) /\
  Permutation (consumed is_ack p)
    (if is_direct_gke config
     then consumed is_drop p ++ emitted is_run p
          ++ filter (routed config PassedThru) (emitted is_audit p)
     else []).
Proof.
  intros Hrun.
  destruct (setup_pipeline_routes eq_dec _ _ Hrun)
    as [Haudit Hgate Hprocess Hdrop Hwritten Hack].
  split; [ | split; assumption ].
  rewrite Permutation_after_recipient_filter.
  rewrite <- (Permutation_map audit Haudit), <- Hgate.
  apply (Permutation_count_occ eq_dec). intros x.
  rewrite !count_occ_app.
  rewrite (proj1 (Permutation_count_occ eq_dec _ _) Hprocess x).
  rewrite (proj1 (Permutation_count_occ eq_dec _ _) Hdrop x).
  rewrite count_occ_app.
  rewrite (count_occ_routes eq_dec config (emitted is_audit p) x) at 1.
  lia.
Qed.

Lemma every_message_takes_one_route_witness :
  Permutation
    (consumed is_write
       (snd (_setup_pipeline Example.gke_job Example.run_py [])))
    (emitted is_run (snd (_setup_pipeline Example.gke_job Example.run_py []))
     ++ filter (routed Example.gke_job PassedThru)
          (emitted is_audit
             (snd (_setup_pipeline Example.gke_job Example.run_py [])))).
Proof.
  destruct (every_message_takes_one_route (H := Example.helpers)
              Example.Msg_eq_dec Example.gke_job Example.run_py
              (p := snd (_setup_pipeline Example.gke_job Example.run_py []))
              eq_refl) as (_ & Hwritten & _).
  exact Hwritten.
Defined.

(** C1 as stated fails with skip-write: the message [fresh] is read, and
    it is neither written (nothing is) nor dropped, before or after its
    audit record. *)
Lemma one_terminal_path_counterexample :
  In Example.fresh
    (consumed is_read
       (snd (_setup_pipeline skip_write_job Example.run_py []))) /\
  consumed is_write (snd (_setup_pipeline skip_write_job Example.run_py []))
  = [] /\
  ~ In Example.fresh
      (consumed is_drop
         (snd (_setup_pipeline skip_write_job Example.run_py []))) /\
  ~ In (Example.log_hop Example.fresh)
      (consumed is_drop
         (snd (_setup_pipeline skip_write_job Example.run_py []))).
Proof.
  split; [ vm_compute; tauto | ].
  split; [ reflexivity | ].
  split; vm_compute; intuition discriminate.
Qed.

(** ** Labels of the assembled streams *)

(** A label that is not the default label of a write transform. *)
Definition not_io_class (l : string) : Prop :=
  forall cls, l <> class_name cls.

Lemma lbl_not_io_class (label_prefix : option string) (s : string) :
  not_io_class s -> not_io_class (lbl (prefix_of label_prefix) s).
Proof.
  intros Hs. destruct label_prefix as [l | ]; [ | exact Hs ].
  intros cls. destruct cls; discriminate.
Qed.

Lemma prefixed_not_io_class (label_prefix : option string) (s : string) :
  not_io_class s -> not_io_class (prefixed label_prefix s).
Proof.
  intros Hs. destruct label_prefix as [l | ]; [ | exact Hs ]. cbn.
  destruct (String.eqb l ""); [ exact Hs | ].
  intros cls. destruct cls; discriminate.
Qed.

Ltac label_fresh :=
  first [ apply lbl_not_io_class | apply prefixed_not_io_class | idtac ];
  let cls := fresh "cls" in
  intros cls; destruct cls; discriminate.

Section Labels.

Context {Element : Type} {H : Helpers Element}.

Variable config : KlioConfig.

Lemma generate_pcoll_labels input_config label_prefix tp pt d :
  _generate_pcoll config input_config label_prefix [] = (Ok (tp, pt), d) ->
  Forall not_io_class (pvalue_up tp ++ opt_up pt).
Proof.
  unfold _generate_pcoll.
  destruct (skip_klio_read input_config).
  { intros [= <- <- <-]. constructor. }
  destruct (dict_get _ _) as [cls | ]; [ | discriminate ].
  unfold _filter_intended_recipients, _update_audit_log,
    _setup_data_io_filters, _has_multi_data_inputs, _has_multi_data_outputs,
    _has_data_inputs, _has_data_outputs.
  destruct (is_direct_gke config);
    destruct (data_inputs config) as [| [[ | ]] [ | ? ?]];
    destruct (data_outputs config) as [| [[ | ]] [ | ? ?]];
    cbn; unfold ret, raise; intros Hrun;
    try discriminate Hrun;
    injection Hrun as <- <- <-; cbn;
    repeat (apply Forall_cons; [ label_fresh | ]); apply Forall_nil.
Qed.

Lemma chains_ok_labels inputs fields pts (d : Pipeline Element) :
  chains_ok config inputs fields pts d ->
  Forall not_io_class (List.concat (map pvalue_up (map snd fields)))
  /\ Forall not_io_class (List.concat (map (@pc_up Element) pts)).
Proof.
  induction 1 as [| k ev rest tp pt dk fields pts d Hchain _ [IHf IHp]];
    cbn; [ split; constructor | ].
  apply generate_pcoll_labels in Hchain.
  apply Forall_app in Hchain as [Htp Hpt].
  split.
  - apply Forall_app. now split.
  - rewrite map_app, concat_app. apply Forall_app. split; [ | exact IHp ].
    destruct pt; cbn in *; now rewrite ?app_nil_r.
Qed.

Lemma generate_phase_labels to_process to_pass_thru d :
  generate_phase config [] = (Ok (to_process, to_pass_thru), d) ->
  Forall not_io_class
    (List.concat (map pvalue_up (to_process_values to_process))
     ++ opt_up to_pass_thru).
Proof.
  unfold generate_phase.
  destruct (_has_event_inputs config).
  2:{ intros [= <- <- <-]. constructor. }
  destruct (negb (_has_multi_event_inputs config)).
  - destruct (hd_error (events_inputs config)) as [input_config | ];
      [ | discriminate ].
    intros Hrun.
    apply bind_ok_inv in Hrun as ([tp pt] & p1 & Hchain & Hret).
    injection Hret as <- <- <-.
    apply generate_pcoll_labels in Hchain. cbn. now rewrite app_nil_r.
  - intros Hrun.
    apply bind_ok_inv in Hrun as ([fields pt] & p1 & Hmulti & Hret).
    injection Hret as <- <- <-.
    apply generate_pcoll_per_input_chains in Hmulti
      as (pts & d & Hch & -> & ->).
    apply chains_ok_labels in Hch as [Hf Hp]. cbn.
    apply Forall_app. split; [ exact Hf | ].
    apply Forall_cons; [ label_fresh | exact Hp ].
Qed.

End Labels.

(** ** Acknowledgment and write *)

Section AckAndWrite.

Context {Element : Type} {H : Helpers Element}.
Variable eq_dec : forall x y : Element, {x = y} + {x <> y}.

Variable config : KlioConfig.
Variable run_py : RunPy Element.

Lemma no_stages_Forall kind (d : Pipeline Element) :
  stages_of kind d = [] ->
  Forall (fun s => kind (st_transform s) = false) d.
Proof.
  unfold stages_of. induction d as [| s d IH]; cbn; [ constructor | ].
  destruct (kind (st_transform s)) eqn:Hk; [ discriminate | ].
  intros Hd. constructor; [ exact Hk | now apply IH ].
Qed.

Lemma merged_only_flattens label (out_pcol : PCollection Element) pt :
  Forall (fun s => st_transform s = Flatten) (snd (merged label out_pcol pt)).
Proof. destruct pt; cbn; repeat constructor. Qed.

Lemma merged_up label (out_pcol : PCollection Element) pt :
  not_io_class label ->
  Forall not_io_class (pc_up out_pcol ++ opt_up pt) ->
  Forall not_io_class (pc_up (fst (merged label out_pcol pt))).
Proof.
  intros Hl Hup. destruct pt as [c | ]; cbn in *.
  - constructor; [ exact Hl | now rewrite app_nil_r ].
  - now rewrite app_nil_r in Hup.
Qed.

Lemma write_stages_inv (out_pcol : PCollection Element) pt w :
  In w (write_stages config out_pcol pt) ->
  is_write (st_transform w) = true ->
  (exists cls, st_label w = class_name cls) /\
  st_in w = pc_elems out_pcol ++ opt_elems pt.
Proof.
  unfold write_stages.
  destruct (events_outputs config) as [| output_config rest];
    [ contradiction | ].
  destruct (skip_klio_write output_config); [ contradiction | ].
  destruct (dict_get _ _) as [cls | ]; [ | contradiction ].
  intros Hin Hw. apply in_app_or in Hin as [Hin | [<- | []]].
  - pose proof (merged_only_flattens "Flatten to Output" out_pcol pt) as Hf.
    rewrite Forall_forall in Hf. rewrite (Hf _ Hin) in Hw. discriminate.
  - split; [ now exists cls | apply merged_elems ].
Qed.

End AckAndWrite.

(** C2 as the spec states it, on the stages of a pipeline: the stage that
    acknowledges the input messages is downstream of a stage that writes
    the event output. *)
Definition write_then_ack {Element : Type} (p : Pipeline Element) : Prop :=
  forall a,
    In a p -> st_label a = "Ack Input Messages" ->
    exists w,
      In w p /\ is_write (st_transform w) = true /\
      In (st_label w) (st_up a).

(** C2 (amended). On [DirectGKERunner], the pipeline that
    [_setup_pipeline] assembles holds the stage "Ack Input Messages",
    applied to the stream the business transform returns merged with the
    pass-through stream.  No write stage is applied before it; a write
    stage, when the job has one, is applied after it and consumes the same
    merged stream; and the acknowledgment is not downstream of the write:
    the two are independent consumers of the same streams. *)
Theorem ack_is_wired_beside_write {Element : Type} {H : Helpers Element}
    (eq_dec : forall x y : Element, {x = y} + {x <> y})
    (config : KlioConfig) (run_py : RunPy Element) (p : Pipeline Element) :
  _setup_pipeline config run_py [] = (Ok tt, p) ->
  is_direct_gke config = true ->
  exists before ack after,
    p = before ++ ack :: after
    /\ st_label ack = "Ack Input Messages"
    /\ st_transform ack = KlioAckInputMessage
    /\ In "run" (st_up ack)
    /\ Forall (fun s => is_write (st_transform s) = false) before
    /\ (forall w, In w p -> is_write (st_transform w) = true ->
          In w after /\ st_in w = st_in ack
          /\ ~ In (st_label w) (st_up ack)).
Proof.
  intros Hrun Hgke.
  apply setup_pipeline_inv in Hrun
    as (f & to_process & to_pass_thru & d & _ & Hgen & ->).
  pose proof (generate_phase_routes eq_dec _ Hgen) as Hok.
  pose proof (generate_phase_labels _ Hgen) as Hlabels.
  set (out_pcol := run_output f to_process) in *.
  unfold ack_stages. rewrite Hgke.
  set (m := merged "Flatten to Ack Input Messages" out_pcol to_pass_thru).
  exists (d ++ [run_stage f to_process] ++ snd m),
    (sink_stage "Ack Input Messages" KlioAckInputMessage (fst m)),
    (write_stages config out_pcol to_pass_thru).
  assert (Forall (fun s => is_write (st_transform s) = false)
            (d ++ [run_stage f to_process] ++ snd m)) as Hbefore.
  { apply Forall_app. split.
    - apply no_stages_Forall. apply Hok.
    - apply Forall_app. split; [ repeat constructor | ].
      eapply Forall_impl; [ | apply merged_only_flattens ].
      cbn. now intros s ->. }
  assert (Forall not_io_class (pc_up (fst m))) as Hup.
  { apply merged_up; [ label_fresh | ].
    cbn. apply Forall_cons; [ label_fresh | exact Hlabels ]. }
  split; [ cbn; now rewrite <- !app_assoc | ].
  split; [ reflexivity | ]. split; [ reflexivity | ].
  split.
  { subst m. destruct to_pass_thru; cbn; auto. }
  split; [ exact Hbefore | ].
  intros w Hin Hw. cbn [app] in Hin.
  rewrite <- !app_assoc in Hin.
  assert (In w (write_stages config out_pcol to_pass_thru)) as Hafter.
  { rewrite Forall_forall in Hbefore.
    rewrite !app_assoc in Hin.
    apply in_app_or in Hin as [Hin | Hin]; [ | exact Hin ].
    apply in_app_or in Hin as [Hin | [<- | []]].
    - rewrite <- !app_assoc in Hin. rewrite (Hbefore _ Hin) in Hw.
      discriminate.
    - discriminate. }
  destruct (write_stages_inv _ _ _ _ Hafter Hw) as [[cls Hcls] Hsame].
  split; [ exact Hafter | ]. split.
  - rewrite Hsame. cbn. subst m. now rewrite merged_elems.
  - rewrite Hcls. cbn. rewrite Forall_forall in Hup.
    intros Hin'. now apply (Hup _ Hin' cls).
Qed.

Lemma ack_is_wired_beside_write_witness :
  exists before ack after,
    snd (_setup_pipeline Example.gke_job Example.run_py [])
    = before ++ ack :: after
    /\ st_label ack = "Ack Input Messages"
    /\ Forall (fun s => is_write (st_transform s) = false) before.
Proof.
  destruct (ack_is_wired_beside_write (H := Example.helpers)
              Example.Msg_eq_dec Example.gke_job Example.run_py
              (p := snd (_setup_pipeline Example.gke_job Example.run_py []))
              eq_refl eq_refl)
    as (before & ack & after & Hp & Hlabel & _ & _ & Hbefore & _).
  exists before, ack, after. repeat split; assumption.
Defined.

(** C2 as stated fails: in the pipeline of the example job the stage that
    acknowledges the input messages has no write stage upstream. *)
Lemma write_then_ack_counterexample :
  ~ write_then_ack (snd (_setup_pipeline Example.gke_job Example.run_py [])).
Proof.
  intros Hclaim.
  destruct (Hclaim
              (nth 19 (snd (_setup_pipeline Example.gke_job Example.run_py []))
                 no_stage))
    as (w & Hin & Hw & Hup).
  - vm_compute. tauto.
  - reflexivity.
  - vm_compute in Hin.
    repeat (destruct Hin as [<- | Hin];
            [ first [ discriminate Hw
                    | vm_compute in Hup; intuition discriminate ] | ]).
    contradiction.
Qed.

(** ** The names of the event inputs *)

Section InputNames.

Definition is_digit (c : ascii) : bool :=
  match c with
  | "0" | "1" | "2" | "3" | "4" | "5" | "6" | "7" | "8" | "9" => true
  | _ => false
  end%char.

Fixpoint all_digits (s : string) : bool :=
  match s with
  | EmptyString => true
  | String c s' => is_digit c && all_digits s'
  end.

Fixpoint ends_with_digit (s : string) : bool :=
  match s with
  | EmptyString => false
  | String c EmptyString => is_digit c
  | String _ s' => ends_with_digit s'
  end.

Lemma all_digits_string_of_uint (d : Decimal.uint) :
  all_digits (NilEmpty.string_of_uint d) = true.
Proof. induction d; cbn; auto. Qed.

Lemma all_digits_str (n : nat) : all_digits (str n) = true.
Proof. apply all_digits_string_of_uint. Qed.

Lemma str_inj (i j : nat) : str i = str j -> i = j.
Proof.
  unfold str. intros Heq. apply DecimalNat.Unsigned.to_uint_inj.
  pose proof (NilEmpty.usu (Nat.to_uint i)) as Hi.
  rewrite Heq, NilEmpty.usu in Hi. now injection Hi.
Qed.

Lemma all_digits_append (s t : string) :
  all_digits (s ++ t) = true -> all_digits s = true.
Proof.
  induction s as [| c s IH]; cbn; [ reflexivity | ].
  intros Hst. apply andb_prop in Hst as [Hc Hst].
  rewrite Hc. now apply IH.
Qed.

Lemma all_digits_ends_with_digit (s : string) :
  s <> EmptyString -> all_digits s = true -> ends_with_digit s = true.
Proof.
  induction s as [| c s IH]; [ congruence | ].
  intros _ Hs. cbn in Hs. apply andb_prop in Hs as [Hc Hs].
  destruct s as [| c' s]; [ exact Hc | ].
  change (ends_with_digit (String c' s) = true). now apply IH.
Qed.

Lemma ends_with_digit_tail (c : ascii) (s : string) :
  ends_with_digit (String c s) = false -> ends_with_digit s = false.
Proof. destruct s; [ reflexivity | now cbn ]. Qed.

(** A name that does not end with a digit is recovered from the name
    followed by an ordinal. *)
Lemma name_ordinal_inj (a b x y : string) :
  ends_with_digit a = false -> ends_with_digit b = false ->
  all_digits x = true -> all_digits y = true ->
  (a ++ x)%string = (b ++ y)%string -> a = b /\ x = y.
Proof.
  revert b. induction a as [| c a IH]; intros b Ha Hb Hx Hy Heq.
  - destruct b as [| c' b]; [ now split | ]. exfalso.
    cbn [append] in Heq. rewrite Heq in Hx.
    apply (all_digits_append (String c' b) y) in Hx.
    apply all_digits_ends_with_digit in Hx; congruence.
  - destruct b as [| c' b].
    + exfalso. cbn [append] in Heq. rewrite <- Heq in Hy.
      apply (all_digits_append (String c a) x) in Hy.
      apply all_digits_ends_with_digit in Hy; congruence.
    + cbn in Heq. injection Heq as -> Heq.
      apply ends_with_digit_tail in Ha, Hb.
      destruct (IH b Ha Hb Hx Hy Heq) as [-> ->]. now split.
Qed.

(** The event inputs under their names followed by their ordinals. *)
Fixpoint indexed_names (index : nat) (ev_inputs : list EventInput)
  : list (string * EventInput) :=
  match ev_inputs with
  | [] => []
  | ev :: rest =>
      ((in_name ev ++ str index)%string, ev) :: indexed_names (S index) rest
  end.

Lemma in_keys_indexed_names index evs k :
  In k (keys (indexed_names index evs)) ->
  exists ev j, In ev evs /\ index <= j /\ k = (in_name ev ++ str j)%string.
Proof.
  revert index. induction evs as [| ev rest IH]; intros index; cbn;
    [ contradiction | ].
  intros [<- | Hin].
  - exists ev, index. auto.
  - destruct (IH _ Hin) as (ev' & j & Hev & Hj & ->).
    exists ev', j. repeat split; auto. lia.
Qed.

Lemma NoDup_indexed_names index evs :
  Forall (fun ev => ends_with_digit (in_name ev) = false) evs ->
  NoDup (keys (indexed_names index evs)).
Proof.
  revert index. induction evs as [| ev rest IH]; intros index Hnames; cbn;
    [ constructor | ].
  inversion Hnames as [| ? ? Hev Hrest]; subst.
  constructor; [ | now apply IH ].
  intros Hin. apply in_keys_indexed_names in Hin
    as (ev' & j & Hev' & Hj & Heq).
  rewrite Forall_forall in Hrest.
  apply name_ordinal_inj in Heq as [_ Heq];
    auto using all_digits_str.
  apply str_inj in Heq. lia.
Qed.

Lemma input_conf_names_from_indexed index evs
    (acc : list (string * EventInput)) :
  NoDup (keys acc ++ keys (indexed_names index evs)) ->
  input_conf_names_from index evs acc = acc ++ indexed_names index evs.
Proof.
  revert index acc. induction evs as [| ev rest IH]; intros index acc Hnd;
    cbn; [ now rewrite app_nil_r | ].
  cbn in Hnd. rewrite dict_set_new.
  - rewrite IH; [ now rewrite <- app_assoc | ].
    unfold keys in *. rewrite map_app, <- app_assoc. exact Hnd.
  - intros Hin. apply NoDup_remove_2 in Hnd. apply Hnd.
    apply in_or_app. now left.
Qed.

(** Without a name that ends with a digit, no two inputs share a key and
    the dictionary lists every declared input, in order. *)
Lemma generate_input_conf_names_indexed (config : KlioConfig) :
  Forall (fun ev => ends_with_digit (in_name ev) = false)
    (events_inputs config) ->
  _generate_input_conf_names config = indexed_names 0 (events_inputs config).
Proof.
  intros Hnames. unfold _generate_input_conf_names.
  rewrite input_conf_names_from_indexed; [ reflexivity | ].
  now apply NoDup_indexed_names.
Qed.

End InputNames.

(** ** Several event inputs *)

Lemma Permutation_concat_map {A B : Type} (f : A -> list B) (l l' : list A) :
  Permutation l l' ->
  Permutation (List.concat (map f l)) (List.concat (map f l')).
Proof.
  induction 1 as [| x l l' _ IH | x y l | l l' l'' _ IH1 _ IH2]; cbn.
  - constructor.
  - now apply Permutation_app_head.
  - rewrite !app_assoc. apply Permutation_app_tail.
    apply Permutation_app_comm.
  - now transitivity (List.concat (map f l')).
Qed.

(** The stage that merges the pass-through streams of the inputs. *)
Definition merge_stage {Element : Type} (pts : list (PCollection Element))
  : Stage Element :=
  {| st_label := "Merge multi-input pass-thrus"; st_transform := Flatten;
     st_up := List.concat (map (@pc_up Element) pts);
     st_in := List.concat (map (@pc_elems Element) pts);
     st_out := List.concat (map (@pc_elems Element) pts) |}.

(** [l] carries the prefix of the input [k]. *)
Definition bracketed (k l : string) : Prop :=
  exists x, l = ("[" ++ k ++ "] " ++ x)%string.

Lemma str_nonempty (n : nat) : str n <> EmptyString.
Proof.
  unfold str. intros Heq.
  pose proof (NilEmpty.usu (Nat.to_uint n)) as Hn.
  rewrite Heq in Hn. cbn in Hn. injection Hn as Hn.
  pose proof (DecimalNat.Unsigned.of_to n) as Hof.
  rewrite <- Hn in Hof. cbn in Hof. subst n. discriminate Hn.
Qed.

(** ** The chain of one event input *)

Lemma Permutation_filter_bag {A : Type} (f : A -> bool) (l l' : list A) :
  Permutation l l' -> Permutation (filter f l) (filter f l').
Proof.
  induction 1 as [| x l l' _ IH | x y l | l l' l'' _ IH1 _ IH2]; cbn.
  - constructor.
  - destruct (f x); [ now constructor | exact IH ].
  - destruct (f x), (f y); try reflexivity. constructor.
  - now transitivity (filter f l').
Qed.

Section ChainContent.

Context {Element : Type} {H : Helpers Element}.
Variable eq_dec : forall x y : Element, {x = y} + {x <> y}.

Variable config : KlioConfig.

(** The messages klio reads from an event input. *)
Definition messages_of (ev : EventInput) : list Element :=
  if skip_klio_read ev then []
  else
    match dict_get (input (_io_mapper config)) (in_name ev) with
    | Some cls => read_event_input cls (in_kwargs ev)
    | None => []
    end.

(** The stage that reads the event input [ev] under the key [k]. *)
Definition read_stage (k : string) (cls : IoClass) (ev : EventInput)
  : Stage Element :=
  {| st_label := ("[" ++ k ++ "] Read Event Input")%string;
     st_transform := ReadEventInput cls (in_kwargs ev);
     st_up := [];
     st_in := read_event_input cls (in_kwargs ev);
     st_out := read_event_input cls (in_kwargs ev) |}.

(** What the chain of the input [ev], keyed [k], is made of: nothing for a
    skip-read input; otherwise the read of its connector, then the recipient
    filter, the audit log and the data filters, all downstream of that read
    and of stages of this chain only, which route every message read
    ([routes_ok]) to the stream [tp] handed to the business transform, to
    the pass-through stream [pt] or to a drop. *)
Record chain_wired (k : string) (ev : EventInput) (tp : PValue Element)
    (pt : option (PCollection Element)) (dk : Pipeline Element) : Prop := {
  cw_skip :
    skip_klio_read ev = true -> dk = [] /\ tp = PBegin /\ pt = None;
  cw_read :
    skip_klio_read ev = false ->
    exists cls rest c,
      dict_get (input (_io_mapper config)) (in_name ev) = Some cls
      /\ dk = read_stage k cls ev :: rest
      /\ tp = PColl c
      /\ stages_of is_read rest = []
      /\ map (@st_transform Element) (stages_of is_recipient_check rest)
         = [_KlioTagMessageVersion; _KlioV1CheckRecipients;
            KlioCheckRecipients]
      /\ map (@st_transform Element) (stages_of is_audit rest)
         = [KlioUpdateAuditLog]
      /\ Forall (fun s => In (st_label (read_stage k cls ev)) (st_up s)) rest;
  cw_routes : routes_ok config [tp] (opt_elems pt) dk;
  cw_own :
    Forall (fun s => bracketed k (st_label s)
                     /\ Forall (bracketed k) (st_up s)) dk;
  cw_streams : Forall (bracketed k) (pvalue_up tp ++ opt_up pt)
}.

Ltac all_bracketed :=
  repeat (apply Forall_cons; [ eexists; reflexivity | ]); apply Forall_nil.

Lemma generate_pcoll_wired k input_config tp pt dk :
  k <> EmptyString ->
  _generate_pcoll config input_config (Some k) [] = (Ok (tp, pt), dk) ->
  chain_wired k input_config tp pt dk.
Proof.
  intros Hne Hchain.
  pose proof (generate_pcoll_routes eq_dec _ _ _ Hchain) as Hroutes.
  revert Hchain Hroutes. unfold _generate_pcoll.
  destruct (skip_klio_read input_config) eqn:Hskip.
  { intros [= <- <- <-] Hroutes.
    constructor;
      [ intros _; repeat split | congruence | exact Hroutes
      | constructor | constructor ]. }
  destruct (dict_get _ _) as [cls | ] eqn:Hcls; [ | discriminate ].
  assert (String.eqb k "" = false) as Hk.
  { now apply String.eqb_neq. }
  unfold _filter_intended_recipients, _update_audit_log,
    _setup_data_io_filters, _has_multi_data_inputs, _has_multi_data_outputs,
    _has_data_inputs, _has_data_outputs, prefixed, prefix_of, lbl.
  rewrite Hk.
  destruct (is_direct_gke config);
    destruct (data_inputs config) as [| [[ | ]] [ | ? ?]];
    destruct (data_outputs config) as [| [[ | ]] [ | ? ?]];
    cbn; unfold ret, raise; intros Hrun Hroutes;
    try discriminate Hrun;
    injection Hrun as <- <- <-;
    (constructor;
     [ congruence
     | intros _; exists cls; eexists; eexists;
       split; [ exact Hcls | ];
       split; [ reflexivity | ];
       split; [ reflexivity | ];
       split; [ reflexivity | ];
       split; [ reflexivity | ];
       split; [ reflexivity | ];
       cbn; rewrite ?append_associative; cbn;
       repeat (apply Forall_cons;
               [ cbn; solve [ repeat first [ left; reflexivity | right ] ]
               | ]);
       apply Forall_nil
     | exact Hroutes
     | cbn; rewrite ?append_associative; cbn;
       repeat (apply Forall_cons;
               [ split; [ eexists; reflexivity | all_bracketed ] | ]);
       apply Forall_nil
     | cbn; rewrite ?append_associative; cbn; all_bracketed ]).
Qed.

(** The chains of the inputs, one after the other. *)
Inductive chains_wired
  : list (string * EventInput) -> list (string * PValue Element) ->
    list (PCollection Element) -> Pipeline Element -> Prop :=
| chains_wired_nil : chains_wired [] [] [] []
| chains_wired_cons k ev rest tp pt dk fields pts d :
    chain_wired k ev tp pt dk ->
    chains_wired rest fields pts d ->
    chains_wired ((k, ev) :: rest) ((k, tp) :: fields)
      (opt_list pt ++ pts) (dk ++ d).

Lemma chains_ok_wired inputs fields pts (d : Pipeline Element) :
  chains_ok config inputs fields pts d ->
  Forall (fun entry : string * EventInput => fst entry <> EmptyString)
    inputs ->
  chains_wired inputs fields pts d.
Proof.
  induction 1 as [| k ev rest tp pt dk fields pts d Hchain _ IH];
    intros Hkeys; [ constructor | ].
  inversion Hkeys as [| ? ? Hk Hrest]; subst. cbn in Hk.
  constructor; [ now apply generate_pcoll_wired | now apply IH ].
Qed.

Lemma chains_wired_reads inputs fields pts (d : Pipeline Element) :
  chains_wired inputs fields pts d ->
  consumed is_read d = List.concat (map messages_of (map snd inputs)).
Proof.
  induction 1 as [| k ev rest tp pt dk fields pts d Hchain _ IH];
    [ reflexivity | ].
  rewrite consumed_app, IH. cbn [map snd List.concat]. f_equal.
  unfold messages_of.
  destruct (skip_klio_read ev) eqn:Hskip.
  - destruct (cw_skip Hchain Hskip) as (-> & _). reflexivity.
  - destruct (cw_read Hchain Hskip)
      as (cls & tl & c & -> & -> & _ & Hreads & _).
    unfold consumed, stages_of in *. cbn. rewrite Hreads. cbn.
    now rewrite app_nil_r.
Qed.

End ChainContent.

Lemma indexed_names_values index evs :
  map snd (indexed_names index evs) = evs.
Proof.
  revert index. induction evs as [| ev rest IH]; intros index; cbn;
    [ reflexivity | now rewrite IH ].
Qed.

Lemma indexed_names_nonempty index evs :
  Forall (fun entry : string * EventInput => fst entry <> EmptyString)
    (indexed_names index evs).
Proof.
  revert index. induction evs as [| ev rest IH]; intros index; cbn;
    constructor; [ | apply IH ].
  cbn. destruct (in_name ev); [ apply str_nonempty | discriminate ].
Qed.

(** C7. For a job whose event input names do not end with a digit,
    [_generate_pcoll_per_input], when it does not raise, has run the chain
    of every declared input on its own, one after the other, under the
    label prefix of its key.  Each chain ([chain_wired]) is empty for a
    skip-read input; otherwise it starts with the read of the input's
    connector, holds the three stages of the recipient filter and the
    audit log, every stage of it is downstream of that read and of stages
    of the same chain only, and it routes every message read to the stream
    handed to the business transform, to the pass-through stream or to a
    drop.  So the reads of all chains consume exactly the messages of the
    declared inputs that klio reads.  The structure returned maps the key
    of each input, its name followed by its ordinal, to the value its chain
    hands to the business transform, and the keys are pairwise distinct.
    The pass-through stream returned is the flatten of the pass-through
    streams of the chains: as a bag, it holds exactly the audit-logged
    intended messages of all inputs that the data filters pass through,
    neither more nor less; every element occurs in it as often as in the
    chains' streams together, and merging the chains' streams in another
    order gives the same bag. *)
Theorem per_input_streams_are_merged {Element : Type} {H : Helpers Element}
    (eq_dec : forall x y : Element, {x = y} + {x <> y})
    (config : KlioConfig) (p : Pipeline Element)
    (fields : list (string * PValue Element))
    (to_pass_thru : PCollection Element) (p' : Pipeline Element) :
  Forall (fun ev => ends_with_digit (in_name ev) = false)
    (events_inputs config) ->
  _generate_pcoll_per_input config p = (Ok (fields, to_pass_thru), p') ->
  exists pts d,
    chains_ok config (indexed_names 0 (events_inputs config)) fields pts d
    /\ chains_wired config (indexed_names 0 (events_inputs config)) fields
         pts d
    /\ consumed is_read d
       = List.concat (map (messages_of config) (events_inputs config))
    /\ routes_ok config (map snd fields) (pc_elems to_pass_thru) d
    /\ keys fields = keys (indexed_names 0 (events_inputs config))
    /\ NoDup (keys fields)
    /\ p' = p ++ d ++ [merge_stage pts]
    /\ pc_elems to_pass_thru = List.concat (map (@pc_elems Element) pts)
    /\ Permutation (pc_elems to_pass_thru)
         (filter (routed config PassedThru)
            (map audit
               (filter intended
                  (List.concat
                     (map (messages_of config) (events_inputs config))))))
    /\ (forall e,
          count_occ eq_dec (pc_elems to_pass_thru) e
          = list_sum (map (fun c => count_occ eq_dec (pc_elems c) e) pts))
    /\ (forall pts',
          Permutation pts pts' ->
          Permutation (pc_elems to_pass_thru)
            (List.concat (map (@pc_elems Element) pts'))).
Proof.
  intros Hnames Hrun.
  apply generate_pcoll_per_input_chains in Hrun as (pts & d & Hch & -> & ->).
  rewrite (generate_input_conf_names_indexed config Hnames) in Hch.
  exists pts, d.
  pose proof (chains_ok_keys Hch) as Hkeys.
  pose proof (chains_ok_wired eq_dec Hch (indexed_names_nonempty 0 _))
    as Hwired.
  pose proof (chains_wired_reads Hwired) as Hreads.
  rewrite indexed_names_values in Hreads.
  pose proof (chains_ok_routes eq_dec Hch) as Hroutes.
  split; [ exact Hch | ]. split; [ exact Hwired | ].
  split; [ exact Hreads | ]. split; [ exact Hroutes | ].
  split; [ exact Hkeys | ].
  split; [ rewrite Hkeys; now apply NoDup_indexed_names | ].
  split; [ reflexivity | ]. split; [ reflexivity | ]. split; [ | split ].
  - cbn [pc_elems]. rewrite <- Hreads.
    destruct Hroutes as [Ha Hg _ Hpass _ _ _ _].
    rewrite Hpass, Hg. apply Permutation_filter_bag, Permutation_map. exact Ha.
  - intros e. cbn. rewrite count_occ_concat. now rewrite map_map.
  - intros pts' Hperm. cbn. now apply Permutation_concat_map.
Qed.

Lemma per_input_streams_are_merged_witness :
  keys two_inputs_fields = ["pubsub0"; "pubsub1"] /\
  Permutation (pc_elems two_inputs_pass_thru)
    (filter (routed two_inputs_job PassedThru)
       (map audit
          (filter intended
             (List.concat
                (map (messages_of two_inputs_job)
                   (events_inputs two_inputs_job)))))).
Proof.
  destruct (per_input_streams_are_merged (H := Example.helpers)
              Example.Msg_eq_dec two_inputs_job []
              (fields := two_inputs_fields)
              (to_pass_thru := two_inputs_pass_thru)
              (p' := snd (_generate_pcoll_per_input two_inputs_job [])))
    as (pts & d & _ & _ & _ & _ & Hkeys & _ & _ & _ & Hbag & _).
  - repeat constructor.
  - reflexivity.
  - split; [ exact Hkeys | exact Hbag ].
Defined.

(** ** Pipeline options ([KlioPipeline], the methods before the assembly) *)

(** [s[:n]] *)
Fixpoint take (n : nat) (s : string) : string :=
  match n, s with
  | S n', String c s' => String c (take n' s')
  | _, _ => EmptyString
  end.

Definition is_upper (c : ascii) : bool :=
  let n := nat_of_ascii c in Nat.leb 65 n && Nat.leb n 90.

Definition is_lower (c : ascii) : bool :=
  let n := nat_of_ascii c in Nat.leb 97 n && Nat.leb n 122.

Definition lower_char (c : ascii) : ascii :=
  if is_upper c then ascii_of_nat (nat_of_ascii c + 32) else c.

(** [str.lower()] on a string of ASCII characters: the letters [A] to [Z]
    are lowered, every other character is kept. *)
Fixpoint lower (s : string) : string :=
  match s with
  | EmptyString => EmptyString
  | String c s' => String (lower_char c) (lower s')
  end.

Fixpoint string_forall (f : ascii -> bool) (s : string) : bool :=
  match s with
  | EmptyString => true
  | String c s' => f c && string_forall f s'
  end.

(** The character class of [DATAFLOW_LABEL_REGEX]: [[a-zA-Z0-9_\-]]. *)
Definition label_char (c : ascii) : bool :=
  is_lower c || is_upper c || is_digit c
  || Ascii.eqb c "_" || Ascii.eqb c "-".

(** [re.findall(DATAFLOW_LABEL_REGEX, s)]: the maximal runs of label
    characters of [s], from left to right; [run] is the run being read. *)
Fixpoint findall_from (s : string) (run : string) : list string :=
  match s with
  | EmptyString =>
      match run with EmptyString => [] | _ => [run] end
  | String c s' =>
      if label_char c then findall_from s' (run ++ String c EmptyString)%string
      else
        match run with
        | EmptyString => findall_from s' EmptyString
        | _ => run :: findall_from s' EmptyString
        end
  end.

Definition findall (s : string) : list string := findall_from s EmptyString.

Definition _get_clean_label_value (label_value : string) : option string :=
  let matches := findall label_value in
  match matches with
  | [] => None
  | _ =>
      let ret_label := String.concat "-" matches in
      let ret_label := take 63 ret_label in
      Some (lower ret_label)
  end.

(** [image.split(":")[0]] *)
Fixpoint before_colon (s : string) : string :=
  match s with
  | EmptyString => EmptyString
  | String c s' =>
      if Ascii.eqb c ":" then EmptyString else String c (before_colon s')
  end.

(** ["{}:{}".format(image_name, tag)], and [image] for a tag that is [None]
    or empty. *)
Definition _get_image_tag (image : string) (tag : option string) : string :=
  match tag with
  | None => image
  | Some EmptyString => image
  | Some t => (before_colon image ++ ":" ++ t)%string
  end.

(** [d.pop(k, None)], for the dictionary that is left. *)
Fixpoint dict_pop {V : Type} (d : list (string * V)) (k : string)
  : list (string * V) :=
  match d with
  | [] => []
  | (k', v) :: d' =>
      if String.eqb k k' then d' else (k', v) :: dict_pop d' k
  end.

(** [dict((k, v) for k, v in d.items() if v is not None)] *)
Fixpoint drop_none {V : Type} (d : list (string * option V))
  : list (string * V) :=
  match d with
  | [] => []
  | (k, Some v) :: d' => (k, v) :: drop_none d'
  | (_, None) :: d' => drop_none d'
  end.

(** [d.get(k) is not None] *)
Definition is_set {V : Type} (d : list (string * option V)) (k : string)
  : bool :=
  match dict_get d k with
  | Some (Some _) => true
  | _ => false
  end.

(** [_parse_config_pipeline_options], on the dictionary that
    [pipeline_options.as_dict()] returns. *)
Definition _parse_config_pipeline_options {V : Type}
    (pipe_opts_dict : list (string * option V)) : list (string * V) :=
  let has_setup_file := is_set pipe_opts_dict "setup_file" in
  let has_reqs_file := is_set pipe_opts_dict "requirements_file" in
  let pipe_opts_dict :=
    if has_setup_file || has_reqs_file then
      dict_pop pipe_opts_dict "worker_harness_container_image"
    else pipe_opts_dict in
  drop_none pipe_opts_dict.

Definition DATAFLOW_LABEL_KEY_TO_OS_ENVIRON : list (string * string) :=
  [("build_id", "BUILD_ID"); ("organization", "ORGANIZATION");
   ("repo", "REPOSITORY"); ("branch", "BRANCH_NAME");
   ("commit_sha", "COMMIT_SHA"); ("klio-cli", "KLIO_CLI_VERSION")].

(** The fields of [GoogleCloudOptions] that [_set_google_cloud_options]
    writes. *)
Record GoogleCloudOptions : Type := {
  gcp_job_name : option string;
  gcp_update : option bool;
  gcp_labels : option (list string)
}.

(** ["{}".format(v)] for a string or [None]. *)
Definition format_value (v : option string) : string :=
  match v with Some s => s | None => "None" end.

(** The truth value of a string or [None]. *)
Definition truthy (v : option string) : bool :=
  match v with
  | Some (String _ _) => true
  | _ => false
  end.

Section GoogleCloud.

(** The versions of the three klio packages, and [os.environ]. *)
Variable klio_exec_version klio_core_version klio_lib_version : string.
Variable environ : string -> option string.

(** [os.environ.get(key, default)] *)
Definition environ_get (key default : string) : string :=
  match environ key with Some v => v | None => default end.

(** One turn of the loop over [DATAFLOW_LABEL_KEY_TO_OS_ENVIRON.items()]. *)
Definition add_environ_label (labels : list string)
    (item : string * string) : list string :=
  let (label, os_key) := item in
  let os_value := environ_get os_key "" in
  let os_value := _get_clean_label_value os_value in
  if truthy os_value then
    labels ++ [(label ++ "=" ++ format_value os_value)%string]
  else labels.

Definition _set_google_cloud_options (job_name : string)
    (update_flag : option bool) (gcp_opts : GoogleCloudOptions)
  : GoogleCloudOptions :=
  let labels :=
    match gcp_labels gcp_opts with
    | Some (l :: ls) => l :: ls
    | _ => []
    end in
  let klio_exec_value := _get_clean_label_value klio_exec_version in
  let klio_core_value := _get_clean_label_value klio_core_version in
  let klio_value := _get_clean_label_value klio_lib_version in
  let klio_labels :=
    [("klio-exec=" ++ format_value klio_exec_value)%string;
     ("klio-core=" ++ format_value klio_core_value)%string;
     ("klio=" ++ format_value klio_value)%string] in
  let labels := labels ++ klio_labels in
  let labels :=
    fold_left add_environ_label DATAFLOW_LABEL_KEY_TO_OS_ENVIRON labels in
  let deploy_user := environ "USER" in
  let deploy_user :=
    if String.eqb (lower (environ_get "CI" "")) "true" then Some "ci"
    else deploy_user in
  let labels :=
    match deploy_user with
    | Some (String c u) =>
        labels
        ++ [("deployed_by="
             ++ format_value (_get_clean_label_value (String c u)))%string]
    | _ => labels
    end in
  {| gcp_job_name := Some job_name;
     gcp_update :=
       match update_flag with
       | Some u => Some u
       | None => gcp_update gcp_opts
       end;
     gcp_labels := Some labels |}.

End GoogleCloud.

(** ** Label values *)

(** The characters of a valid label value: lowercase letters, digits,
    underscores and dashes. *)
Definition clean_char (c : ascii) : bool :=
  is_lower c || is_digit c || Ascii.eqb c "_" || Ascii.eqb c "-".

Ltac ascii_cases c :=
  destruct c as [[ | ] [ | ] [ | ] [ | ] [ | ] [ | ] [ | ] [ | ]].

Lemma lower_char_clean (c : ascii) :
  label_char c = true -> clean_char (lower_char c) = true.
Proof. ascii_cases c; vm_compute; congruence. Qed.

Lemma clean_char_label (c : ascii) :
  clean_char c = true -> label_char c = true.
Proof. ascii_cases c; vm_compute; congruence. Qed.

Lemma clean_char_lower (c : ascii) :
  clean_char c = true -> lower_char c = c.
Proof. ascii_cases c; vm_compute; congruence. Qed.

Lemma string_forall_append f (a b : string) :
  string_forall f (a ++ b) = string_forall f a && string_forall f b.
Proof.
  induction a as [| c a IH]; cbn; [ reflexivity | ].
  now rewrite IH, andb_assoc.
Qed.

Lemma string_forall_take f n (s : string) :
  string_forall f s = true -> string_forall f (take n s) = true.
Proof.
  revert s. induction n as [| n IH]; intros [| c s]; cbn; try reflexivity.
  intros Hs. apply andb_prop in Hs as [Hc Hs]. rewrite Hc. now apply IH.
Qed.

Lemma length_take n (s : string) : String.length (take n s) <= n.
Proof.
  revert s. induction n as [| n IH]; intros [| c s]; cbn; try lia.
  specialize (IH s). lia.
Qed.

Lemma take_all n (s : string) : String.length s <= n -> take n s = s.
Proof.
  revert s. induction n as [| n IH]; intros [| c s]; cbn; try reflexivity;
    try lia.
  intros Hs. rewrite IH; [ reflexivity | lia ].
Qed.

Lemma length_lower (s : string) : String.length (lower s) = String.length s.
Proof. induction s as [| c s IH]; cbn; [ | rewrite IH ]; reflexivity. Qed.

Lemma string_forall_lower (s : string) :
  string_forall label_char s = true ->
  string_forall clean_char (lower s) = true.
Proof.
  induction s as [| c s IH]; cbn; [ reflexivity | ].
  intros Hs. apply andb_prop in Hs as [Hc Hs].
  now rewrite (lower_char_clean c Hc), IH.
Qed.

Lemma lower_clean (s : string) :
  string_forall clean_char s = true -> lower s = s.
Proof.
  induction s as [| c s IH]; cbn; [ reflexivity | ].
  intros Hs. apply andb_prop in Hs as [Hc Hs].
  now rewrite (clean_char_lower c Hc), IH.
Qed.

Lemma append_nonempty_r (a : string) (c : ascii) :
  (a ++ String c EmptyString)%string <> EmptyString.
Proof. destruct a; discriminate. Qed.

(** Every match is a non-empty run of label characters. *)
Lemma findall_from_runs (s run : string) :
  string_forall label_char run = true ->
  Forall (fun m => string_forall label_char m = true /\ m <> EmptyString)
    (findall_from s run).
Proof.
  revert run. induction s as [| c s IH]; intros run Hrun; cbn.
  - destruct run; [ constructor | ].
    constructor; [ split; [ exact Hrun | discriminate ] | constructor ].
  - destruct (label_char c) eqn:Hc.
    + apply IH. rewrite string_forall_append, Hrun. cbn. now rewrite Hc.
    + destruct run as [| r run]; [ now apply IH | ].
      constructor; [ split; [ exact Hrun | discriminate ] | now apply IH ].
Qed.

Lemma findall_from_nil (s run : string) :
  findall_from s run = [] <->
  run = EmptyString /\ string_forall (fun c => negb (label_char c)) s = true.
Proof.
  revert run. induction s as [| c s IH]; intros run; cbn.
  - destruct run; split; try discriminate; auto.
    intros [Hrun _]. discriminate Hrun.
  - destruct (label_char c) eqn:Hc; cbn.
    + rewrite IH. split; intros [Hrun Hs]; [ | discriminate ].
      now apply append_nonempty_r in Hrun.
    + destruct run as [| r run]; [ | split; [ | intros [Hrun _] ];
                                      discriminate ].
      rewrite IH. tauto.
Qed.

Lemma findall_from_all (s run : string) :
  string_forall label_char s = true ->
  (run ++ s)%string <> EmptyString ->
  findall_from s run = [(run ++ s)%string].
Proof.
  revert run. induction s as [| c s IH]; intros run Hs Hne; cbn.
  - destruct run as [| r run]; [ now cbn in Hne | ].
    cbn. f_equal. f_equal. clear. induction run; cbn; congruence.
  - cbn in Hs. apply andb_prop in Hs as [Hc Hs]. rewrite Hc.
    rewrite IH; [ | exact Hs | ].
    + now rewrite append_associative.
    + rewrite append_associative. cbn. destruct run; discriminate.
Qed.

Lemma string_forall_concat f sep (l : list string) :
  string_forall f sep = true ->
  Forall (fun m => string_forall f m = true) l ->
  string_forall f (String.concat sep l) = true.
Proof.
  intros Hsep Hl. induction Hl as [| m l Hm Hl IH]; [ reflexivity | ].
  cbn. destruct l as [| m' l]; [ exact Hm | ].
  rewrite !string_forall_append, Hm, Hsep. exact IH.
Qed.

Lemma concat_nonempty sep m (l : list string) :
  m <> EmptyString -> String.concat sep (m :: l) <> EmptyString.
Proof.
  intros Hm. cbn. destruct l; [ exact Hm | ].
  destruct m; [ congruence | discriminate ].
Qed.

Lemma lower_take_valid (n : nat) (joined : string) :
  joined <> EmptyString ->
  string_forall label_char joined = true ->
  lower (take (S n) joined) <> EmptyString
  /\ String.length (lower (take (S n) joined)) <= S n
  /\ string_forall clean_char (lower (take (S n) joined)) = true.
Proof.
  intros Hne Hall. split; [ | split ].
  - destruct joined; [ congruence | discriminate ].
  - rewrite length_lower. apply length_take.
  - apply string_forall_lower. now apply string_forall_take.
Qed.

(** X1. A cleaned label value is never empty, has at most 63 characters,
    and holds lowercase letters, digits, underscores and dashes only. *)
Theorem clean_label_value_valid (label_value ret_label : string) :
  _get_clean_label_value label_value = Some ret_label ->
  ret_label <> EmptyString
  /\ String.length ret_label <= 63
  /\ string_forall clean_char ret_label = true.
Proof.
  unfold _get_clean_label_value.
  pose proof (findall_from_runs label_value EmptyString eq_refl) as Hruns.
  fold (findall label_value) in Hruns.
  destruct (findall label_value) as [| m l]; [ discriminate | ].
  intros Hret.
  assert (ret_label = lower (take 63 (String.concat "-" (m :: l)))) as ->
    by congruence.
  inversion Hruns as [| ? ? [Hm Hne] Hl]; subst.
  apply (@lower_take_valid 62 (String.concat "-" (m :: l))).
  - now apply concat_nonempty.
  - apply string_forall_concat; [ reflexivity | ].
    eapply Forall_impl; [ | exact Hruns ]. now intros a [Ha _].
Qed.

Lemma clean_label_value_valid_witness :
  _get_clean_label_value "Hello, World! v1.2" = Some "hello-world-v1-2"
  /\ "hello-world-v1-2" <> EmptyString
  /\ String.length "hello-world-v1-2" <= 63
  /\ string_forall clean_char "hello-world-v1-2" = true.
Proof.
  split; [ reflexivity | ].
  apply (@clean_label_value_valid "Hello, World! v1.2" "hello-world-v1-2").
  reflexivity.
Defined.

(** X2. Cleaning returns [None] exactly when the value holds no letter,
    digit, underscore or dash. *)
Theorem clean_label_value_none (label_value : string) :
  _get_clean_label_value label_value = None <->
  string_forall (fun c => negb (label_char c)) label_value = true.
Proof.
  unfold _get_clean_label_value.
  pose proof (findall_from_nil label_value EmptyString) as Hnil.
  fold (findall label_value) in Hnil.
  destruct (findall label_value) as [| m l].
  - split; [ intros _; now apply Hnil | reflexivity ].
  - split; [ discriminate | ].
    intros Hs. destruct Hnil as [_ Hnil]. now discriminate Hnil.
Qed.

(** X3. A valid label value (non-empty, at most 63 characters, lowercase
    letters, digits, underscores and dashes only) is returned unchanged. *)
Theorem clean_label_value_fixed (label_value : string) :
  label_value <> EmptyString ->
  String.length label_value <= 63 ->
  string_forall clean_char label_value = true ->
  _get_clean_label_value label_value = Some label_value.
Proof.
  intros Hne Hlen Hchars.
  unfold _get_clean_label_value, findall.
  rewrite findall_from_all.
  - cbn [append String.concat]. now rewrite take_all, lower_clean.
  - clear - Hchars. induction label_value as [| c s IH]; [ reflexivity | ].
    cbn in *. apply andb_prop in Hchars as [Hc Hs].
    now rewrite (clean_char_label c Hc), IH.
  - exact Hne.
Qed.

Lemma clean_label_value_fixed_witness :
  _get_clean_label_value "hello-world-v1-2" = Some "hello-world-v1-2".
Proof.
  apply (@clean_label_value_fixed "hello-world-v1-2");
    [ discriminate | cbn; lia | reflexivity ].
Defined.

(** ** Image tags *)

Definition no_colon (c : ascii) : bool := negb (Ascii.eqb c ":").

Lemma before_colon_no_colon (s : string) :
  string_forall no_colon (before_colon s) = true.
Proof.
  induction s as [| c s IH]; cbn; [ reflexivity | ].
  destruct (Ascii.eqb c ":") eqn:Hc; cbn; [ reflexivity | ].
  unfold no_colon at 1. now rewrite Hc.
Qed.

Lemma before_colon_split (name rest : string) :
  string_forall no_colon name = true ->
  before_colon (name ++ String ":" rest) = name.
Proof.
  induction name as [| c name IH]; cbn; [ reflexivity | ].
  intros Hname. apply andb_prop in Hname as [Hc Hname].
  unfold no_colon in Hc. destruct (Ascii.eqb c ":"); [ discriminate | ].
  now rewrite IH.
Qed.

Lemma before_colon_whole (name : string) :
  string_forall no_colon name = true -> before_colon name = name.
Proof.
  induction name as [| c name IH]; cbn; [ reflexivity | ].
  intros Hname. apply andb_prop in Hname as [Hc Hname].
  unfold no_colon in Hc. destruct (Ascii.eqb c ":"); [ discriminate | ].
  now rewrite IH.
Qed.

(** X4. With a non-empty tag, the image keeps what stands before its first
    colon and gets the tag: an image without a colon is tagged as a whole,
    and whatever follows the first colon of an image (its old tag, but also
    the path after a registry port) is discarded. *)
Theorem image_tag_replaces_after_first_colon (name rest : string)
    (c : ascii) (tag : string) :
  string_forall no_colon name = true ->
  _get_image_tag name (Some (String c tag))
  = (name ++ ":" ++ String c tag)%string
  /\ _get_image_tag (name ++ String ":" rest) (Some (String c tag))
     = (name ++ ":" ++ String c tag)%string.
Proof.
  intros Hname. unfold _get_image_tag.
  now rewrite before_colon_whole, before_colon_split.
Qed.

Lemma image_tag_replaces_after_first_colon_witness :
  _get_image_tag "host:5000/job/image:1.0" (Some "2.0") = "host:2.0".
Proof.
  apply (@image_tag_replaces_after_first_colon "host" "5000/job/image:1.0"
           "2" ".0").
  reflexivity.
Defined.

(** X5. Tagging an image again replaces the tag: only the last non-empty
    tag counts. *)
Theorem image_tag_retag (image : string) (c1 : ascii) (tag1 : string)
    (c2 : ascii) (tag2 : string) :
  _get_image_tag (_get_image_tag image (Some (String c1 tag1)))
    (Some (String c2 tag2))
  = _get_image_tag image (Some (String c2 tag2)).
Proof.
  unfold _get_image_tag.
  change (before_colon image ++ ":" ++ String c1 tag1)%string
    with (before_colon image ++ String ":" (String c1 tag1))%string.
  now rewrite before_colon_split by apply before_colon_no_colon.
Qed.

(** ** The options taken from the configuration *)

Lemma dict_get_in_keys {V : Type} (d : list (string * V)) k v :
  dict_get d k = Some v -> In k (keys d).
Proof.
  induction d as [| [k' v'] d IH]; cbn; [ discriminate | ].
  destruct (String.eqb_spec k k') as [-> | Hne]; [ now left | ].
  intros Hget. right. now apply IH.
Qed.

Lemma dict_get_pop {V : Type} (d : list (string * V)) k k' :
  NoDup (keys d) ->
  dict_get (dict_pop d k') k
  = if String.eqb k k' then None else dict_get d k.
Proof.
  induction d as [| [k0 v0] d IH]; cbn; intros Hnd.
  - now destruct (String.eqb k k').
  - apply NoDup_cons_iff in Hnd as [Hfresh Hnd'].
    destruct (String.eqb_spec k' k0) as [-> | Hne'].
    + destruct (String.eqb k k0) eqn:Hk; [ | reflexivity ].
      apply String.eqb_eq in Hk. subst k.
      destruct (dict_get d k0) eqn:Hget; [ | reflexivity ].
      exfalso. apply Hfresh. now apply dict_get_in_keys in Hget.
    + cbn. destruct (String.eqb k k0) eqn:Hk.
      * apply String.eqb_eq in Hk. subst k.
        destruct (String.eqb_spec k0 k'); [ congruence | reflexivity ].
      * now apply IH.
Qed.

Lemma keys_dict_pop_incl {V : Type} (d : list (string * V)) k' k :
  In k (keys (dict_pop d k')) -> In k (keys d).
Proof.
  induction d as [| [k0 v0] d IH]; cbn; [ tauto | ].
  destruct (String.eqb k' k0); cbn; [ tauto | ].
  intros [<- | Hin]; [ now left | right; now apply IH ].
Qed.

Lemma NoDup_keys_dict_pop {V : Type} (d : list (string * V)) k' :
  NoDup (keys d) -> NoDup (keys (dict_pop d k')).
Proof.
  induction d as [| [k0 v0] d IH]; cbn; intros Hnd; [ constructor | ].
  apply NoDup_cons_iff in Hnd as [Hfresh Hnd'].
  destruct (String.eqb k' k0); [ exact Hnd' | ].
  cbn. constructor; [ | now apply IH ].
  intros Hin. apply Hfresh. now apply keys_dict_pop_incl in Hin.
Qed.

Lemma keys_drop_none_incl {V : Type} (d : list (string * option V)) k :
  In k (keys (drop_none d)) -> In k (keys d).
Proof.
  induction d as [| [k0 [v0 | ]] d IH]; cbn; [ tauto | | ].
  - intros [<- | Hin]; [ now left | right; now apply IH ].
  - intros Hin. right. now apply IH.
Qed.

Lemma dict_get_drop_none {V : Type} (d : list (string * option V)) k :
  NoDup (keys d) ->
  dict_get (drop_none d) k
  = match dict_get d k with Some (Some v) => Some v | _ => None end.
Proof.
  induction d as [| [k0 [v0 | ]] d IH]; cbn; intros Hnd;
    [ reflexivity | | ];
    apply NoDup_cons_iff in Hnd as [Hfresh Hnd'].
  - destruct (String.eqb k k0); [ reflexivity | now apply IH ].
  - destruct (String.eqb k k0) eqn:Hk; [ | now apply IH ].
    apply String.eqb_eq in Hk. subst k.
    destruct (dict_get (drop_none d) k0) eqn:Hget; [ | reflexivity ].
    exfalso. apply Hfresh.
    apply dict_get_in_keys in Hget. now apply keys_drop_none_incl in Hget.
Qed.

(** X6. The parsed options hold an option exactly when the configuration
    sets it to a value other than [None], with that value; except that the
    worker harness container image is left out whenever a setup file or a
    requirements file is set. *)
Theorem parsed_options_lookup {V : Type}
    (pipe_opts_dict : list (string * option V)) (k : string) :
  NoDup (keys pipe_opts_dict) ->
  dict_get (_parse_config_pipeline_options pipe_opts_dict) k
  = if String.eqb k "worker_harness_container_image"
       && (is_set pipe_opts_dict "setup_file"
           || is_set pipe_opts_dict "requirements_file")
    then None
    else match dict_get pipe_opts_dict k with
         | Some (Some v) => Some v
         | _ => None
         end.
Proof.
  intros Hnd. unfold _parse_config_pipeline_options.
  destruct (is_set pipe_opts_dict "setup_file"
            || is_set pipe_opts_dict "requirements_file").
  - rewrite dict_get_drop_none by now apply NoDup_keys_dict_pop.
    rewrite dict_get_pop by exact Hnd. rewrite andb_true_r.
    now destruct (String.eqb k "worker_harness_container_image").
  - rewrite andb_false_r. now apply dict_get_drop_none.
Qed.

Lemma parsed_options_lookup_witness :
  dict_get
    (_parse_config_pipeline_options
       [("runner", Some "DataflowRunner"); ("setup_file", Some "setup.py");
        ("worker_harness_container_image", Some "img"); ("region", None)])
    "worker_harness_container_image" = None.
Proof.
  rewrite (@parsed_options_lookup string
             [("runner", Some "DataflowRunner");
              ("setup_file", Some "setup.py");
              ("worker_harness_container_image", Some "img");
              ("region", None)]
             "worker_harness_container_image").
  - reflexivity.
  - repeat constructor; cbn; intuition discriminate.
Defined.

(** ** The labels of the Dataflow job *)

Section GoogleCloudLabels.

Variable klio_exec_version klio_core_version klio_lib_version : string.
Variable environ : string -> option string.

Local Abbreviation set_options :=
  (_set_google_cloud_options klio_exec_version klio_core_version
     klio_lib_version environ).

(** The labels already on the options, [gcp_opts.labels or []]. *)
Definition labels_before (gcp_opts : GoogleCloudOptions) : list string :=
  match gcp_labels gcp_opts with Some l => l | None => [] end.

Definition labels_after (job_name : string) (update_flag : option bool)
    (gcp_opts : GoogleCloudOptions) : list string :=
  labels_before (set_options job_name update_flag gcp_opts).

Lemma fold_add_environ_label (items : list (string * string))
    (labels : list string) :
  exists added,
    fold_left (add_environ_label environ) items labels = labels ++ added
    /\ List.length added <= List.length items.
Proof.
  revert labels. induction items as [| [label os_key] items IH];
    intros labels; cbn [fold_left].
  - exists []. now rewrite app_nil_r.
  - destruct (IH (add_environ_label environ labels (label, os_key)))
      as (added & -> & Hlen).
    unfold add_environ_label.
    destruct (truthy _).
    + eexists (_ :: added). rewrite <- app_assoc. split; [ reflexivity | ].
      cbn. lia.
    + exists added. split; [ reflexivity | ]. cbn. lia.
Qed.

End GoogleCloudLabels.

(** X7. Setting the Google Cloud options keeps every label the options
    already carry, in place, and appends to them: first the three labels of
    the klio versions, then at most seven more (six taken from the
    environment and the user who deploys). *)
Theorem google_cloud_labels_extend
    (klio_exec_version klio_core_version klio_lib_version : string)
    (environ : string -> option string) (job_name : string)
    (update_flag : option bool) (gcp_opts : GoogleCloudOptions) :
  exists added,
    labels_after klio_exec_version klio_core_version klio_lib_version environ
      job_name update_flag gcp_opts
    = labels_before gcp_opts
      ++ [("klio-exec="
           ++ format_value (_get_clean_label_value klio_exec_version))%string;
          ("klio-core="
           ++ format_value (_get_clean_label_value klio_core_version))%string;
          ("klio="
           ++ format_value (_get_clean_label_value klio_lib_version))%string]
      ++ added
    /\ List.length added <= 7.
Proof.
  unfold labels_after, labels_before, _set_google_cloud_options.
  cbn [gcp_labels].
  set (existing := match gcp_labels gcp_opts with
                   | Some (l :: ls) => l :: ls
                   | _ => []
                   end).
  assert (existing = match gcp_labels gcp_opts with
                     | Some l => l
                     | None => []
                     end) as <-.
  { subst existing. now destruct (gcp_labels gcp_opts) as [[| ? ?] | ]. }
  destruct (fold_add_environ_label environ DATAFLOW_LABEL_KEY_TO_OS_ENVIRON
              (existing
               ++ [("klio-exec="
                    ++ format_value
                         (_get_clean_label_value klio_exec_version))%string;
                   ("klio-core="
                    ++ format_value
                         (_get_clean_label_value klio_core_version))%string;
                   ("klio="
                    ++ format_value
                         (_get_clean_label_value klio_lib_version))%string]))
    as (added & -> & Hlen).
  cbn [List.length DATAFLOW_LABEL_KEY_TO_OS_ENVIRON] in Hlen.
  match goal with
  | |- context [ if ?b then Some "ci" else ?u ] =>
      destruct (if b then Some "ci" else u) as [[| c s] | ]
  end.
  - exists added. rewrite <- app_assoc. split; [ reflexivity | lia ].
  - eexists (added ++ [_]). rewrite <- !app_assoc.
    split; [ reflexivity | ]. rewrite length_app. cbn. lia.
  - exists added. rewrite <- app_assoc. split; [ reflexivity | lia ].
Qed.

(** X8. When the environment variable [CI] reads ["true"] in any letter
    case, the last label is ["deployed_by=ci"], whoever [USER] names. *)
Theorem ci_deploys_as_ci
    (klio_exec_version klio_core_version klio_lib_version : string)
    (environ : string -> option string) (job_name : string)
    (update_flag : option bool) (gcp_opts : GoogleCloudOptions)
    (ci : string) :
  environ "CI" = Some ci ->
  lower ci = "true" ->
  last (labels_after klio_exec_version klio_core_version klio_lib_version
          environ job_name update_flag gcp_opts) ""
  = "deployed_by=ci".
Proof.
  intros Hci Hlower.
  unfold labels_after, labels_before, _set_google_cloud_options, environ_get.
  cbn [gcp_labels]. rewrite Hci, Hlower. cbn [String.eqb Ascii.eqb Bool.eqb].
  cbn. apply last_last.
Qed.

Lemma ci_deploys_as_ci_witness :
  last
    (labels_after "1.0" "1.0" "1.0"
       (fun key => if String.eqb key "CI" then Some "True" else Some "lynn")
       "job" None
       {| gcp_job_name := None; gcp_update := None; gcp_labels := None |})
    ""
  = "deployed_by=ci".
Proof.
  apply (@ci_deploys_as_ci "1.0" "1.0" "1.0"
           (fun key => if String.eqb key "CI" then Some "True"
                       else Some "lynn")
           "job" None
           {| gcp_job_name := None; gcp_update := None; gcp_labels := None |}
           "True");
    reflexivity.
Defined.

(** ** Packaging and the runs of the engine *)

(** ["beam_fn_api" in experiments] *)
Definition fnapi_enabled (config : KlioConfig) : bool :=
  existsb (String.eqb "beam_fn_api") (experiments config).

(** The packaging the check accepts: with the [beam_fn_api] experiment,
    neither a setup file nor a requirements file; without it, a streaming
    job, a setup file that exists, or a requirements file. *)
Definition packaging_accepted (config : KlioConfig)
    (path_exists : string -> bool) : Prop :=
  if fnapi_enabled config then
    setup_file config = None /\ requirements_file config = None
  else
    streaming config = true
    \/ (exists f, setup_file config = Some f /\ path_exists f = true)
    \/ requirements_file config <> None.

(** X9. [_verify_packaging] exits with code 1 exactly when the packaging is
    not one it accepts: with the [beam_fn_api] experiment, a setup file or
    a requirements file is configured; without it, the job is a batch job
    that has neither a setup file that exists nor a requirements file.
    When the packaging is accepted and no configured setup file exists,
    there is no file to read or to write and the check returns. *)
Theorem packaging_exits_iff_not_accepted (config : KlioConfig)
    (path_exists : string -> bool) :
  (_verify_packaging config path_exists = Raise (SystemExit 1)
   <-> ~ packaging_accepted config path_exists)
  /\ (packaging_accepted config path_exists ->
      (forall f, setup_file config = Some f -> path_exists f = false) ->
      _verify_packaging config path_exists = Ok tt).
Proof.
  unfold _verify_packaging, packaging_accepted, fnapi_enabled.
  destruct (existsb _ _), (streaming config),
    (setup_file config) as [f | ], (requirements_file config) as [r | ];
    cbn; try destruct (path_exists f) eqn:Hf; cbn;
    repeat match goal with
           | |- _ /\ _ => split
           | |- _ <-> _ => split
           | |- ~ _ => intro
           | |- _ -> _ => intro
           | Hc : _ /\ _ |- _ => destruct Hc
           | Hc : _ \/ _ |- _ => destruct Hc
           | Hc : exists _, _ |- _ => destruct Hc
           end;
    try congruence;
    try match goal with
        | Hno : forall g, Some ?f = Some g -> _ |- _ =>
            specialize (Hno f eq_refl); congruence
        end;
    try match goal with
        | Hnot : ~ _ |- _ =>
            exfalso; apply Hnot;
            first [ split; reflexivity
                  | left; reflexivity
                  | right; left; eexists; split; [ reflexivity | eassumption ]
                  | right; right; discriminate ]
        end.
Qed.

(** How a pass that does not start the engine again ends, given the
    answer of the engine: a [ValueError] becomes an exit with code 1, any
    other exception is passed on, and a result is waited for when the job
    blocks. *)
Definition pass_outcome (config : KlioConfig) (runtime_conf : RuntimeConf)
    (answer : Result (Result unit)) : Result unit :=
  match answer with
  | Raise (ValueError _) => Raise (SystemExit 1)
  | Raise e => Raise e
  | Ok result =>
      if direct_runner runtime_conf || blocking runtime_conf
         || is_direct_gke config
      then result else Ok tt
  end.

Lemma run_passes {Element : Type} {H : Helpers Element}
    (config : KlioConfig) (run_py : RunPy Element)
    (runtime_conf : RuntimeConf) (path_exists : string -> bool)
    (pipeline_run : option bool -> Pipeline Element -> Result (Result unit)) :
  run config run_py runtime_conf path_exists pipeline_run
  = match _verify_packaging config path_exists with
    | Raise e => ([], Raise e)
    | Ok _ =>
        match _setup_pipeline config run_py [] with
        | (Raise e, _) => ([], Raise e)
        | (Ok _, pipeline) =>
            match pipeline_run (update runtime_conf) pipeline with
            | Raise (ValueError msg) =>
                match update runtime_conf,
                      index 0 "No running job found with name" msg with
                | Some true, Some _ =>
                    ([pipeline; pipeline],
                     pass_outcome config runtime_conf
                       (pipeline_run None pipeline))
                | _, _ => ([pipeline], Raise (SystemExit 1))
                end
            | answer => ([pipeline], pass_outcome config runtime_conf answer)
            end
        end
    end.
Proof.
  unfold run, run_pass, pass_outcome.
  destruct (_verify_packaging config path_exists) as [[] | e];
    [ | reflexivity ].
  destruct (_setup_pipeline config run_py []) as [[[] | e] pipeline];
    [ | reflexivity ].
  destruct (pipeline_run (update runtime_conf) pipeline) as [result | e].
  { now destruct (direct_runner runtime_conf || blocking runtime_conf
                  || is_direct_gke config). }
  destruct e as [code | key | | msg | msg]; try reflexivity.
  destruct (update runtime_conf) as [[ | ] | ]; try reflexivity.
  destruct (index 0 "No running job found with name" msg); try reflexivity.
  destruct (pipeline_run None pipeline) as [result | e].
  - now destruct (direct_runner runtime_conf || blocking runtime_conf
                  || is_direct_gke config).
  - now destruct e.
Qed.

Ltac single_pass pipeline Hfirst :=
  cbn [fst snd List.length In];
  split; [ lia | ];
  split; [ let q := fresh "q" in intros q [<- | []]; now split | ];
  split; [ discriminate | ];
  split;
  [ intros _; exists pipeline; split; [ reflexivity | now rewrite Hfirst ]
  | ].

(** X10. [run] starts the engine at most twice.  Whatever it hands to the
    engine is a pipeline that [_setup_pipeline] has assembled in full from
    an empty one, after the packaging check has returned.  It starts the
    engine a second time only when the runtime configuration asks for an
    update and the engine has answered the first start, made with the
    update flag, by a [ValueError] that tells that no running job was
    found: the second start is made without the update flag, and [run] ends
    as that second start ends.  And [run] returns normally only when the
    engine has accepted a pipeline, with the update flag of the runtime
    configuration or without any. *)
Theorem run_starts_engine_at_most_twice {Element : Type}
    {H : Helpers Element} (config : KlioConfig) (run_py : RunPy Element)
    (runtime_conf : RuntimeConf) (path_exists : string -> bool)
    (pipeline_run : option bool -> Pipeline Element -> Result (Result unit)) :
  let outcome := run config run_py runtime_conf path_exists pipeline_run in
  List.length (fst outcome) <= 2
  /\ (forall pipeline,
        In pipeline (fst outcome) ->
        _verify_packaging config path_exists = Ok tt
        /\ _setup_pipeline config run_py [] = (Ok tt, pipeline))
  /\ (List.length (fst outcome) = 2 ->
      update runtime_conf = Some true
      /\ exists pipeline msg,
           fst outcome = [pipeline; pipeline]
           /\ pipeline_run (Some true) pipeline = Raise (ValueError msg)
           /\ index 0 "No running job found with name" msg <> None
           /\ snd outcome
              = pass_outcome config runtime_conf (pipeline_run None pipeline))
  /\ (List.length (fst outcome) = 1 ->
      exists pipeline,
        fst outcome = [pipeline]
        /\ snd outcome
           = pass_outcome config runtime_conf
               (pipeline_run (update runtime_conf) pipeline))
  /\ (snd outcome = Ok tt ->
      exists update_flag pipeline result,
        In pipeline (fst outcome)
        /\ (update_flag = update runtime_conf \/ update_flag = None)
        /\ pipeline_run update_flag pipeline = Ok result).
Proof.
  cbv zeta. rewrite run_passes.
  destruct (_verify_packaging config path_exists) as [[] | e].
  2:{ cbn. repeat split; try lia; try contradiction; discriminate. }
  destruct (_setup_pipeline config run_py []) as [[[] | e] pipeline].
  2:{ cbn. repeat split; try lia; try contradiction; discriminate. }
  destruct (pipeline_run (update runtime_conf) pipeline)
    as [result | e] eqn:Hfirst.
  { single_pass pipeline Hfirst.
    intros _. exists (update runtime_conf), pipeline, result.
    split; [ now left | ]. split; [ now left | exact Hfirst ]. }
  destruct e as [code | key | | msg | msg];
    try (single_pass pipeline Hfirst; discriminate).
  destruct (update runtime_conf) as [[ | ] | ] eqn:Hupdate;
    destruct (index 0 "No running job found with name" msg) as [n | ]
      eqn:Hmsg;
    try (single_pass pipeline Hfirst; discriminate).
  cbn [fst snd List.length In].
  split; [ lia | ].
  split; [ intros q [<- | [<- | []]]; now split | ].
  split.
  { intros _. split; [ reflexivity | ]. exists pipeline, msg.
    rewrite Hmsg. repeat split; [ exact Hfirst | discriminate ]. }
  split; [ discriminate | ].
  destruct (pipeline_run None pipeline) as [result | e] eqn:Hsecond.
  - intros _. exists None, pipeline, result.
    split; [ now left | ]. split; [ now right | exact Hsecond ].
  - destruct e; discriminate.
Qed.

(** The case the second start exists for: the job to update is not
    running, the engine refuses the update and accepts the job without
    it. *)
Definition no_job_to_update (update_flag : option bool)
    (p : Pipeline Example.Msg) : Result (Result unit) :=
  match update_flag with
  | Some true => Raise (ValueError "No running job found with name klio-job")
  | _ => Ok (Ok tt)
  end.

Lemma run_deploys_without_update_example :
  run Example.gke_job Example.run_py
    {| direct_runner := false; update := Some true; blocking := false |}
    (fun _ => true) no_job_to_update
  = ([snd (_setup_pipeline Example.gke_job Example.run_py []);
      snd (_setup_pipeline Example.gke_job Example.run_py [])],
     Ok tt).
Proof. reflexivity. Qed.

(** ** The dictionary of the event inputs *)

(** Every entry stands for a declared input, under that input's name
    followed by its position. *)
Definition entry_of (ev_inputs : list EventInput)
    (entry : string * EventInput) : Prop :=
  exists index,
    nth_error ev_inputs index = Some (snd entry)
    /\ fst entry = (in_name (snd entry) ++ str index)%string.

Lemma Forall_dict_set {V : Type} (P : string * V -> Prop)
    (d : list (string * V)) k v :
  Forall P d -> P (k, v) -> Forall P (dict_set d k v).
Proof.
  intros Hd Hkv. induction d as [| [k' v'] d IH]; cbn.
  - now constructor.
  - inversion Hd as [| ? ? Hhd Htl]; subst.
    destruct (String.eqb k k'); constructor; auto.
Qed.

Lemma length_dict_set {V : Type} (d : list (string * V)) k v :
  List.length (dict_set d k v) <= S (List.length d).
Proof.
  induction d as [| [k' v'] d IH]; cbn; [ lia | ].
  destruct (String.eqb k k'); cbn; lia.
Qed.

Lemma input_conf_names_from_entries (done ev_inputs : list EventInput)
    (input_dict : list (string * EventInput)) :
  Forall (entry_of (done ++ ev_inputs)) input_dict ->
  Forall (entry_of (done ++ ev_inputs))
    (input_conf_names_from (List.length done) ev_inputs input_dict).
Proof.
  revert done input_dict.
  induction ev_inputs as [| ev rest IH]; intros done input_dict Hdict;
    cbn [input_conf_names_from]; [ exact Hdict | ].
  specialize (IH (done ++ [ev])).
  rewrite <- app_assoc, length_app, Nat.add_1_r in IH. cbn [app] in IH.
  apply IH. apply Forall_dict_set; [ exact Hdict | ].
  exists (List.length done). cbn [fst snd]. split; [ | reflexivity ].
  rewrite nth_error_app2 by lia. now rewrite Nat.sub_diag.
Qed.

Lemma length_input_conf_names_from index ev_inputs
    (input_dict : list (string * EventInput)) :
  List.length (input_conf_names_from index ev_inputs input_dict)
  <= List.length input_dict + List.length ev_inputs.
Proof.
  revert index input_dict.
  induction ev_inputs as [| ev rest IH]; intros index input_dict;
    cbn [input_conf_names_from List.length]; [ lia | ].
  specialize (IH (S index) (dict_set input_dict (in_name ev ++ str index) ev)).
  pose proof (length_dict_set input_dict (in_name ev ++ str index) ev).
  lia.
Qed.

Lemma generate_input_conf_names_entries (config : KlioConfig) :
  Forall (entry_of (events_inputs config)) (_generate_input_conf_names config).
Proof.
  unfold _generate_input_conf_names.
  apply (input_conf_names_from_entries [] (events_inputs config)).
  constructor.
Qed.

Lemma dict_get_In {V : Type} (d : list (string * V)) k v :
  dict_get d k = Some v -> In (k, v) d.
Proof.
  induction d as [| [k' v'] d IH]; cbn; [ discriminate | ].
  destruct (String.eqb k k') eqn:Hk.
  - apply String.eqb_eq in Hk. subst k'. intros [= ->]. now left.
  - intros Hget. right. now apply IH.
Qed.

(** X11. The dictionary of the event inputs never holds more entries than
    there are declared inputs; its keys are pairwise distinct, none is
    empty; and what is stored under a key is a declared input, whose name
    followed by its position in the configuration is that key. *)
Theorem input_conf_names_are_declared_inputs (config : KlioConfig) :
  List.length (_generate_input_conf_names config)
  <= List.length (events_inputs config)
  /\ NoDup (keys (_generate_input_conf_names config))
  /\ ~ In EmptyString (keys (_generate_input_conf_names config))
  /\ forall name ev,
       dict_get (_generate_input_conf_names config) name = Some ev ->
       exists index,
         nth_error (events_inputs config) index = Some ev
         /\ name = (in_name ev ++ str index)%string.
Proof.
  pose proof (generate_input_conf_names_entries config) as Hentries.
  rewrite Forall_forall in Hentries.
  split; [ | split; [ | split ] ].
  - apply (length_input_conf_names_from 0 (events_inputs config) []).
  - apply NoDup_generate_input_conf_names.
  - intros Hin. unfold keys in Hin. apply in_map_iff in Hin
      as ([name ev] & Hname & Hin). cbn in Hname. subst name.
    destruct (Hentries _ Hin) as (index & _ & Hkey). cbn in Hkey.
    destruct (in_name ev); [ | discriminate Hkey ].
    cbn in Hkey. symmetry in Hkey. now apply str_nonempty in Hkey.
  - intros name ev Hget. apply dict_get_In in Hget.
    exact (Hentries _ Hget).
Qed.

(** ** The shape of the assembled pipeline *)

(** The labels of the stages applied after the business transform. *)
Definition tail_label (l : string) : Prop :=
  In l ["Flatten to Ack Input Messages"; "Ack Input Messages";
        "Flatten to Output"]
  \/ exists cls, l = class_name cls.

(** The labels applied outside the chains of the inputs. *)
Definition final_label (l : string) : Prop :=
  l = "Merge multi-input pass-thrus" \/ tail_label l.

Definition no_bracket (c : ascii) : bool := negb (Ascii.eqb c "]").

(** A stage that is neither the business transform nor a write. *)
Definition klio_stage {Element : Type} (s : Stage Element) : Prop :=
  is_run (st_transform s) = false /\ is_write (st_transform s) = false
  /\ (is_read (st_transform s) = true -> st_up s = []).

Lemma bracketed_inj (k1 k2 x1 x2 : string) :
  string_forall no_bracket k1 = true -> string_forall no_bracket k2 = true ->
  (k1 ++ String "]" x1)%string = (k2 ++ String "]" x2)%string -> k1 = k2.
Proof.
  revert k2. induction k1 as [| c k1 IH]; intros [| c' k2] H1 H2 Heq;
    cbn in *.
  - reflexivity.
  - injection Heq as <- _. discriminate H2.
  - injection Heq as -> _. discriminate H1.
  - injection Heq as -> Heq.
    apply andb_prop in H1 as [_ H1]. apply andb_prop in H2 as [_ H2].
    f_equal. now apply IH.
Qed.

Lemma digit_no_bracket (s : string) :
  all_digits s = true -> string_forall no_bracket s = true.
Proof.
  induction s as [| c s IH]; cbn; [ reflexivity | ].
  intros Hs. apply andb_prop in Hs as [Hc Hs]. rewrite IH by exact Hs.
  rewrite andb_true_r.
  destruct c as [[] [] [] [] [] [] [] []]; try discriminate Hc; reflexivity.
Qed.

Lemma known_input_no_bracket (config : KlioConfig) (ev : EventInput) :
  known_input config ev = true ->
  string_forall no_bracket (in_name ev) = true.
Proof.
  unfold known_input, _io_mapper.
  destruct (streaming config); cbn;
    repeat match goal with
           | |- context [ String.eqb (in_name ev) ?s ] =>
               destruct (String.eqb_spec (in_name ev) s) as [-> | _];
               [ reflexivity | ]
           end; discriminate.
Qed.

Ltac label_differs Heq :=
  first [ discriminate Heq
        | injection Heq as Heq; apply append_cancel_l in Heq;
          discriminate Heq ].

Ltac nodup_labels :=
  repeat (apply NoDup_cons;
          [ let Hin := fresh "Hin" in
            cbn [In]; intros Hin;
            repeat (destruct Hin as [Hin | Hin]; [ label_differs Hin | ]);
            exact Hin
          | ]);
  apply NoDup_nil.

Ltac not_final :=
  let Hin := fresh "Hin" in
  let cls := fresh "cls" in
  unfold final_label, tail_label; cbn [In];
  intros [Hin | [Hin | [cls Hin]]];
  [ discriminate Hin
  | repeat (destruct Hin as [Hin | Hin]; [ discriminate Hin | ]); exact Hin
  | destruct cls; discriminate Hin ].

Section Shape.

Context {Element : Type} {H : Helpers Element}.

Variable config : KlioConfig.

(** What one input's chain applies. *)
Record chain_shape (label_prefix : option string) (input_config : EventInput)
    (d : Pipeline Element) : Prop := {
  cs_nodup : NoDup (map (@st_label Element) d);
  cs_klio : Forall klio_stage d;
  cs_final : Forall (fun s => ~ final_label (st_label s)) d;
  cs_bracketed :
    forall k, label_prefix = Some k -> k <> EmptyString ->
              Forall (fun s => bracketed k (st_label s)) d;
  cs_known : d <> [] -> known_input config input_config = true;
  cs_reads : List.length (stages_of is_read d) <= 1
}.

Lemma generate_pcoll_shape input_config label_prefix tp pt d :
  _generate_pcoll config input_config label_prefix [] = (Ok (tp, pt), d) ->
  chain_shape label_prefix input_config d.
Proof.
  unfold _generate_pcoll.
  destruct (skip_klio_read input_config).
  { intros [= <- <- <-].
    constructor; try constructor; cbn; try lia; congruence. }
  assert (forall cls,
             dict_get (input (_io_mapper config)) (in_name input_config)
             = Some cls ->
             known_input config input_config = true) as Hknown.
  { unfold known_input. now intros cls ->. }
  destruct (dict_get _ _) as [cls | ]; [ | discriminate ].
  specialize (Hknown cls eq_refl).
  unfold _filter_intended_recipients, _update_audit_log,
    _setup_data_io_filters, _has_multi_data_inputs, _has_multi_data_outputs,
    _has_data_inputs, _has_data_outputs, prefixed, prefix_of, lbl.
  destruct label_prefix as [k | ];
    [ destruct (String.eqb k "") eqn:Hk;
      [ apply String.eqb_eq in Hk; subst k | ] | ];
    destruct (is_direct_gke config);
    destruct (data_inputs config) as [| [[ | ]] [ | ? ?]];
    destruct (data_outputs config) as [| [[ | ]] [ | ? ?]];
    cbn; unfold ret, raise; intros Hrun;
    try discriminate Hrun;
    injection Hrun as <- <- <-;
    (constructor;
     [ cbn; rewrite ?append_associative; cbn; nodup_labels
     | repeat (apply Forall_cons;
               [ repeat split; cbn; congruence | ]); apply Forall_nil
     | cbn; rewrite ?append_associative; cbn;
       repeat (apply Forall_cons; [ cbn; not_final | ]); apply Forall_nil
     | let k' := fresh "k" in
       let Hk' := fresh "Hk" in
       intros k' Hk' Hne; try discriminate Hk';
       injection Hk' as <-; try congruence;
       cbn; rewrite ?append_associative; cbn;
       repeat (apply Forall_cons; [ eexists; reflexivity | ]);
       apply Forall_nil
     | intros _; exact Hknown
     | cbn; lia ]).
Qed.

Lemma chains_ok_shape inputs fields pts (d : Pipeline Element) :
  chains_ok config inputs fields pts d ->
  NoDup (keys inputs) ->
  Forall (fun entry : string * EventInput =>
            exists index,
              fst entry = (in_name (snd entry) ++ str index)%string)
    inputs ->
  NoDup (map (@st_label Element) d)
  /\ Forall klio_stage d
  /\ Forall (fun s => ~ final_label (st_label s)) d
  /\ Forall (fun s => exists k,
                 In k (keys inputs)
                 /\ string_forall no_bracket k = true
                 /\ bracketed k (st_label s)) d
  /\ List.length (stages_of is_read d) <= List.length inputs.
Proof.
  induction 1 as [| k ev rest tp pt dk fields pts d Hchain _ IH];
    intros Hnd Hnames.
  { repeat split; try constructor. }
  apply generate_pcoll_shape in Hchain.
  destruct Hchain as [Hdup Hklio Hfinal Hbr Hknown Hreads].
  cbn in Hnd. apply NoDup_cons_iff in Hnd as [Hfresh Hnd].
  inversion Hnames as [| ? ? [index Hkey] Hrest]; subst. cbn in Hkey.
  destruct (IH Hnd Hrest) as (IHdup & IHklio & IHfinal & IHbr & IHreads).
  assert (k <> EmptyString) as Hne.
  { rewrite Hkey. destruct (in_name ev); [ | discriminate ].
    apply str_nonempty. }
  specialize (Hbr k eq_refl Hne).
  assert (dk <> [] -> string_forall no_bracket k = true) as Hnb.
  { intros Hdk. rewrite Hkey, string_forall_append.
    rewrite (known_input_no_bracket _ _ (Hknown Hdk)).
    apply digit_no_bracket, all_digits_str. }
  assert (Forall (fun s => exists k',
                      In k' (keys ((k, ev) :: rest))
                      /\ string_forall no_bracket k' = true
                      /\ bracketed k' (st_label s)) (dk ++ d)) as Hall.
  { apply Forall_app. split.
    - rewrite Forall_forall in Hbr |- *. intros s Hs.
      exists k. split; [ now left | ]. split; [ | now apply Hbr ].
      apply Hnb. intros ->. contradiction.
    - rewrite Forall_forall in IHbr |- *. intros s Hs.
      destruct (IHbr s Hs) as (k' & Hin & Hk' & Hlabel).
      exists k'. split; [ now right | now split ]. }
  split; [ | split; [ | split; [ | split ] ] ].
  - rewrite map_app. apply NoDup_app; [ exact Hdup | exact IHdup | ].
    intros l Hl Hl'.
    apply in_map_iff in Hl as (s & <- & Hs).
    apply in_map_iff in Hl' as (s' & Heq & Hs').
    rewrite Forall_forall in Hbr, IHbr.
    destruct (Hbr s Hs) as [x Hx].
    destruct (IHbr s' Hs') as (k' & Hin & Hk' & [x' Hx']).
    rewrite Hx, Hx' in Heq. cbn in Heq. injection Heq as Heq.
    apply bracketed_inj in Heq; [ | exact Hk' | ].
    + subst k'. contradiction.
    + apply Hnb. intros ->. contradiction.
  - apply Forall_app. now split.
  - apply Forall_app. now split.
  - exact Hall.
  - rewrite stages_of_app, length_app. cbn [List.length]. lia.
Qed.

End Shape.

Section AssembledShape.

Context {Element : Type} {H : Helpers Element}.

Variable config : KlioConfig.
Variable run_py : RunPy Element.

Lemma final_label_tail (l : string) : tail_label l -> final_label l.
Proof. intros Hl. now right. Qed.

Lemma generate_phase_shape to_process to_pass_thru (d : Pipeline Element) :
  generate_phase config [] = (Ok (to_process, to_pass_thru), d) ->
  NoDup (map (@st_label Element) d)
  /\ Forall klio_stage d
  /\ Forall (fun s => ~ tail_label (st_label s)) d
  /\ List.length (stages_of is_read d) <= List.length (events_inputs config).
Proof.
  unfold generate_phase, _has_event_inputs.
  destruct (Nat.ltb 0 (List.length (events_inputs config))) eqn:Hlen.
  2:{ intros [= <- <- <-]. repeat split; try constructor. cbn. lia. }
  apply Nat.ltb_lt in Hlen.
  destruct (negb (_has_multi_event_inputs config)).
  - destruct (hd_error (events_inputs config)) as [input_config | ];
      [ | discriminate ].
    intros Hrun.
    apply bind_ok_inv in Hrun as ([tp pt] & p1 & Hchain & Hret).
    injection Hret as <- <- <-.
    apply generate_pcoll_shape in Hchain.
    destruct Hchain as [Hdup Hklio Hfinal _ _ Hreads].
    repeat split; try assumption; [ | lia ].
    eapply Forall_impl; [ | exact Hfinal ].
    intros s Hs Htail. apply Hs. now right.
  - intros Hrun.
    apply bind_ok_inv in Hrun as ([fields pt] & p1 & Hmulti & Hret).
    injection Hret as <- <- <-.
    apply generate_pcoll_per_input_chains in Hmulti
      as (pts & d & Hch & -> & ->).
    apply chains_ok_shape in Hch.
    + destruct Hch as (Hdup & Hklio & Hfinal & _ & Hreads).
      rewrite app_nil_l.
      split; [ | split; [ | split ] ].
      * rewrite map_app. apply NoDup_app; [ exact Hdup | | ].
        { repeat constructor. intros []. }
        intros l Hl [<- | []].
        apply in_map_iff in Hl as (s & Hlabel & Hs).
        rewrite Forall_forall in Hfinal. apply (Hfinal s Hs). now left.
      * apply Forall_app. split; [ exact Hklio | ].
        repeat constructor; cbn; congruence.
      * apply Forall_app. split.
        { eapply Forall_impl; [ | exact Hfinal ].
          intros s Hs Htail. apply Hs. now right. }
        repeat constructor. cbn.
        intros [Hin | [cls Hin]];
          [ cbn in Hin;
            repeat (destruct Hin as [Hin | Hin]; [ discriminate Hin | ]);
            exact Hin
          | destruct cls; discriminate Hin ].
      * rewrite stages_of_app, length_app. cbn.
        pose proof (length_input_conf_names_from 0 (events_inputs config) [])
          as Hlen'.
        unfold _generate_input_conf_names in Hreads. cbn in Hlen'. lia.
    + apply NoDup_generate_input_conf_names.
    + eapply Forall_impl; [ | apply generate_input_conf_names_entries ].
      intros entry (index & _ & Hkey). now exists index.
Qed.

Lemma klio_stages_not_run (d : Pipeline Element) :
  Forall klio_stage d ->
  stages_of is_run d = [] /\ stages_of is_write d = []
  /\ stages_of (fun t => negb (is_run t)) d = d.
Proof.
  induction 1 as [| s d (Hrun & Hwrite & _) _ (IHr & IHw & IHk)]; cbn.
  - repeat split.
  - unfold stages_of in *. cbn. rewrite Hrun, Hwrite, IHr, IHw, IHk.
    repeat split.
Qed.

(** The stages applied after the business transform. *)
Definition tail_stages (out_pcol : PCollection Element)
    (to_pass_thru : option (PCollection Element)) : Pipeline Element :=
  ack_stages config out_pcol to_pass_thru
  ++ write_stages config out_pcol to_pass_thru.

Lemma tail_stages_shape out_pcol to_pass_thru :
  NoDup (map (@st_label Element) (tail_stages out_pcol to_pass_thru))
  /\ Forall (fun s => tail_label (st_label s))
       (tail_stages out_pcol to_pass_thru)
  /\ stages_of is_run (tail_stages out_pcol to_pass_thru) = []
  /\ stages_of is_read (tail_stages out_pcol to_pass_thru) = []
  /\ List.length (stages_of is_write (tail_stages out_pcol to_pass_thru)) <= 1.
Proof.
  unfold tail_stages, ack_stages, write_stages, merged, sink_stage.
  destruct (is_direct_gke config), to_pass_thru as [pt | ],
    (events_outputs config) as [| [name [ | ] kwargs] rest];
    cbn [skip_klio_write out_name out_kwargs];
    try destruct (dict_get _ name) as [cls | ];
    try destruct cls;
    cbn;
    (split; [ nodup_labels | ]);
    (split;
     [ repeat (apply Forall_cons;
               [ first [ left; cbn; tauto
                       | right; eexists; reflexivity
                       | right; now exists KlioReadFromPubSub
                       | right; now exists KlioReadFromText
                       | right; now exists KlioReadFromBigQuery
                       | right; now exists KlioReadFromAvro
                       | right; now exists KlioWriteToPubSub
                       | right; now exists KlioWriteToText
                       | right; now exists KlioWriteToBigQuery
                       | right; now exists KlioWriteToAvro ]
               | ]);
       apply Forall_nil
     | repeat split; cbn; lia ]).
Qed.

End AssembledShape.

(** X12. In a pipeline that [_setup_pipeline] assembles, the business
    transform is applied exactly once.  Every stage before it is one of
    klio's own: none of them writes an event output, and they read from at
    most as many event sources as the job declares event inputs.  After it
    nothing is read any more, and at most one stage writes. *)
Theorem business_transform_is_applied_once {Element : Type}
    {H : Helpers Element} (config : KlioConfig) (run_py : RunPy Element)
    (p : Pipeline Element) :
  _setup_pipeline config run_py [] = (Ok tt, p) ->
  exists before s after,
    p = before ++ s :: after
    /\ st_transform s = RunCallable
    /\ stages_of is_run before = []
    /\ stages_of is_write before = []
    /\ List.length (stages_of is_read before)
       <= List.length (events_inputs config)
    /\ stages_of is_run after = []
    /\ stages_of is_read after = []
    /\ List.length (stages_of is_write after) <= 1.
Proof.
  intros Hrun.
  apply setup_pipeline_inv in Hrun
    as (f & to_process & to_pass_thru & d & _ & Hgen & ->).
  apply generate_phase_shape in Hgen as (_ & Hklio & _ & Hreads).
  apply klio_stages_not_run in Hklio as (Hr & Hw & _).
  destruct (tail_stages_shape config (run_output f to_process) to_pass_thru)
    as (_ & _ & Htr & Htd & Htw).
  exists d, (run_stage f to_process),
    (tail_stages config (run_output f to_process) to_pass_thru).
  cbn [app]. repeat split; assumption.
Qed.

Lemma business_transform_is_applied_once_witness :
  exists before s after,
    snd (_setup_pipeline Example.gke_job Example.run_py []) = before ++ s :: after
    /\ st_transform s = RunCallable
    /\ stages_of is_run before = []
    /\ stages_of is_run after = [].
Proof.
  destruct (@business_transform_is_applied_once _ Example.helpers
              Example.gke_job Example.run_py
              (snd (_setup_pipeline Example.gke_job Example.run_py []))
              eq_refl)
    as (before & s & after & Hp & Hs & Hb & _ & _ & Ha & _).
  exists before, s, after. repeat split; assumption.
Defined.

(** X13. Klio never applies two of its transforms under one label: in a
    pipeline that [_setup_pipeline] assembles, the labels of the stages
    other than the business transform are pairwise distinct, also when the
    chains of several event inputs apply the same transforms. *)
Theorem klio_labels_are_distinct {Element : Type} {H : Helpers Element}
    (config : KlioConfig) (run_py : RunPy Element) (p : Pipeline Element) :
  _setup_pipeline config run_py [] = (Ok tt, p) ->
  NoDup (map (@st_label Element)
           (stages_of (fun t => negb (is_run t)) p)).
Proof.
  intros Hrun.
  apply setup_pipeline_inv in Hrun
    as (f & to_process & to_pass_thru & d & _ & Hgen & ->).
  apply generate_phase_shape in Hgen as (Hdup & Hklio & Hfinal & _).
  apply klio_stages_not_run in Hklio as (_ & _ & Hd).
  destruct (tail_stages_shape config (run_output f to_process) to_pass_thru)
    as (Htdup & Htail & Htr & _ & _).
  fold (tail_stages config (run_output f to_process) to_pass_thru).
  rewrite app_nil_l, !stages_of_app, Hd.
  assert (stages_of (fun t => negb (is_run t))
            (tail_stages config (run_output f to_process) to_pass_thru)
          = tail_stages config (run_output f to_process) to_pass_thru)
    as ->.
  { clear - Htr. unfold stages_of in *.
    induction (tail_stages config (run_output f to_process) to_pass_thru)
      as [| s l IH]; cbn in *; [ reflexivity | ].
    destruct (is_run (st_transform s)); [ discriminate Htr | ].
    cbn. now rewrite IH. }
  cbn [stages_of filter run_stage st_transform is_run negb app].
  rewrite map_app. apply NoDup_app; [ exact Hdup | exact Htdup | ].
  intros l Hl Hl'.
  apply in_map_iff in Hl as (s & <- & Hs).
  apply in_map_iff in Hl' as (s' & Heq & Hs').
  rewrite Forall_forall in Hfinal, Htail.
  apply (Hfinal s Hs). rewrite <- Heq. now apply Htail.
Qed.

Lemma klio_labels_are_distinct_witness :
  NoDup (map (@st_label Example.Msg)
           (stages_of (fun t => negb (is_run t))
              (snd (_setup_pipeline two_inputs_job Example.run_py [])))).
Proof.
  apply (@klio_labels_are_distinct _ Example.helpers two_inputs_job
           Example.run_py).
  reflexivity.
Defined.

(** ** Connectors *)

(** The names under which the mapper of the job's mode knows a connector. *)
Definition connector_names (config : KlioConfig) : list string :=
  if streaming config then ["pubsub"] else ["file"; "bq"; "avro"].

Lemma mapper_input_names (config : KlioConfig) (name : string) cls :
  dict_get (input (_io_mapper config)) name = Some cls ->
  In name (connector_names config).
Proof.
  unfold _io_mapper, connector_names.
  destruct (streaming config); cbn;
    repeat match goal with
           | |- context [ String.eqb name ?s ] =>
               destruct (String.eqb_spec name s) as [-> | _];
               [ intros _; cbn; tauto | ]
           end; discriminate.
Qed.

Lemma mapper_output_names (config : KlioConfig) (name : string) cls :
  dict_get (output (_io_mapper config)) name = Some cls ->
  In name (connector_names config).
Proof.
  unfold _io_mapper, connector_names.
  destruct (streaming config); cbn;
    repeat match goal with
           | |- context [ String.eqb name ?s ] =>
               destruct (String.eqb_spec name s) as [-> | _];
               [ intros _; cbn; tauto | ]
           end; discriminate.
Qed.

Section Connectors.

Context {Element : Type} {H : Helpers Element}.

Variable config : KlioConfig.
Variable run_py : RunPy Element.

Lemma generate_pcoll_known input_config label_prefix p tp pt p' :
  _generate_pcoll config input_config label_prefix p = (Ok (tp, pt), p') ->
  skip_klio_read input_config = false ->
  In (in_name input_config) (connector_names config).
Proof.
  unfold _generate_pcoll. intros Hrun Hskip. rewrite Hskip in Hrun.
  destruct (dict_get _ _) as [cls | ] eqn:Hget; [ | discriminate ].
  now apply mapper_input_names in Hget.
Qed.

Lemma chains_ok_known inputs fields pts (d : Pipeline Element) :
  chains_ok config inputs fields pts d ->
  forall ev, In ev (map snd inputs) -> skip_klio_read ev = false ->
             In (in_name ev) (connector_names config).
Proof.
  induction 1 as [| k ev' rest tp pt dk fields pts d Hchain _ IH]; cbn;
    [ contradiction | ].
  intros ev [<- | Hin] Hskip; [ | now apply IH ].
  now apply generate_pcoll_known in Hchain.
Qed.

End Connectors.

(** X14. A job that is assembled only uses connectors of its mode.  Every
    event input that klio reads itself, and the first event output if klio
    writes it, is named ["pubsub"] in a streaming job, and ["file"], ["bq"]
    or ["avro"] in a batch job. *)
Theorem assembled_job_uses_the_connectors_of_its_mode {Element : Type}
    {H : Helpers Element} (config : KlioConfig) (run_py : RunPy Element)
    (p : Pipeline Element) :
  _setup_pipeline config run_py [] = (Ok tt, p) ->
  (forall ev,
      In ev (wired_inputs config) -> skip_klio_read ev = false ->
      In (in_name ev) (connector_names config))
  /\ (forall output_config rest,
        events_outputs config = output_config :: rest ->
        skip_klio_write output_config = false ->
        In (out_name output_config) (connector_names config)).
Proof.
  intros Hrun. split.
  - apply setup_pipeline_inv in Hrun
      as (f & to_process & to_pass_thru & d & _ & Hgen & _).
    unfold generate_phase, _has_event_inputs, _has_multi_event_inputs in Hgen.
    destruct (events_inputs config) as [| ic [| ic2 rest]] eqn:Hev;
      cbn in Hgen.
    + rewrite (wired_inputs_none config Hev). contradiction.
    + rewrite (wired_inputs_single config Hev).
      intros ev [<- | []] Hskip.
      apply bind_ok_inv in Hgen as ([tp pt] & p1 & Hchain & _).
      now apply generate_pcoll_known in Hchain.
    + apply bind_ok_inv in Hgen as ([fields pt] & p1 & Hmulti & _).
      apply generate_pcoll_per_input_chains in Hmulti
        as (pts & d' & Hch & _ & _).
      exact (chains_ok_known Hch).
  - intros output_config rest Hout Hskip.
    destruct (@setup_pipeline_output_known _ _ _ _ _ _ _ _ Hrun Hout Hskip)
      as [cls Hcls].
    now apply mapper_output_names in Hcls.
Qed.

Lemma assembled_job_uses_the_connectors_of_its_mode_witness :
  In (in_name (Example.pubsub_in "in-b" false)) ["pubsub"]
  /\ In (out_name (Example.pubsub_out false)) ["pubsub"].
Proof.
  assert (_setup_pipeline two_inputs_job Example.run_py []
          = (Ok tt, snd (_setup_pipeline two_inputs_job Example.run_py [])))
    as Hrun by reflexivity.
  destruct (@assembled_job_uses_the_connectors_of_its_mode _ Example.helpers
              two_inputs_job Example.run_py _ Hrun)
    as [Hin Hout].
  split.
  - apply (Hin (Example.pubsub_in "in-b" false));
      [ right; left; reflexivity | reflexivity ].
  - apply (Hout (Example.pubsub_out false) []); reflexivity.
Defined.

(** ** Event outputs beyond the first *)

(** The configuration with other event outputs. *)
Definition with_events_outputs (config : KlioConfig)
    (outputs : list EventOutput) : KlioConfig :=
  {| streaming := streaming config;
     runner := runner config;
     experiments := experiments config;
     setup_file := setup_file config;
     requirements_file := requirements_file config;
     events_inputs := events_inputs config;
     events_outputs := outputs;
     data_inputs := data_inputs config;
     data_outputs := data_outputs config |}.

(** X16. Only the first event output is wired: a job with several event
    outputs is assembled as the job that declares the first of them
    alone, so nothing is ever written to the others. *)
Theorem only_the_first_event_output_is_used {Element : Type}
    {H : Helpers Element} (config : KlioConfig) (run_py : RunPy Element)
    (output_config : EventOutput) (rest : list EventOutput)
    (p : Pipeline Element) :
  events_outputs config = output_config :: rest ->
  _setup_pipeline config run_py p
  = _setup_pipeline (with_events_outputs config [output_config]) run_py p.
Proof.
  destruct config as [s r x sf rf ei eo di do]. cbn. intros ->.
  reflexivity.
Qed.

Lemma only_the_first_event_output_is_used_witness :
  _setup_pipeline
    (Example.job "DirectGKERunner" [Example.pubsub_in "a" false]
       [Example.pubsub_out false; Example.pubsub_out true]
       [Example.checked] [Example.checked]) Example.run_py []
  = _setup_pipeline
      (Example.job "DirectGKERunner" [Example.pubsub_in "a" false]
         [Example.pubsub_out false]
         [Example.checked] [Example.checked]) Example.run_py [].
Proof.
  apply (@only_the_first_event_output_is_used _ Example.helpers
           (Example.job "DirectGKERunner" [Example.pubsub_in "a" false]
              [Example.pubsub_out false; Example.pubsub_out true]
              [Example.checked] [Example.checked])
           Example.run_py (Example.pubsub_out false)
           [Example.pubsub_out true] []).
  reflexivity.
Defined.
